(** * Read receipts: the model, the SQL store and the application layer

    A shallow embedding of
      - package [model]: the read-receipt structs, [IsValid], [PreSave];
      - [store/sqlstore/post_read_receipt_store.go]: the SQL store;
      - [app/post_read_receipts.go]: the application layer;
    followed by the properties of the read-receipt subsystem.

    Tables are finite maps keyed by their primary key; the value holds the
    remaining columns.  Code that talks to the database threads a [World]
    through a small state-and-error monad. *)

From stdpp Require Import base option list sorting gmap strings pretty.
From Stdlib Require Import ZArith Lia.

Local Open Scope string_scope.
Local Open Scope Z_scope.
Local Open Scope list_scope.

(** ** Structs of package [model] *)

Module PostReadReceipt.
Record t := mk {
  PostId : string; UserId : string; ChannelId : string;
  ReadAt : Z; CreateAt : Z;
  DeviceId : string; DeviceType : string; SessionId : string }.
End PostReadReceipt.

Module PostReadReceiptInfo.
Record t := mk {
  PostId : string; ChannelId : string;
  ReadReceipts : list PostReadReceipt.t;
  UnreadUsers : list string;
  TotalUsers : Z; ReadCount : Z;
  LastRead : Z; FirstRead : Z;
  PartiallyRead : bool; AllRead : bool }.
End PostReadReceiptInfo.

Module PostReadReceiptSummary.
Record t := mk {
  PostId : string; ChannelId : string;
  ReadCount : Z; TotalRecipients : Z;
  LastUpdated : Z; FirstReadAt : Z; LastReadAt : Z }.
End PostReadReceiptSummary.

Module ReadReceiptAuditLog.
Record t := mk {
  Id : string; UserId : string; PostId : string; Action : string;
  Metadata : list (string * string);
  CreateAt : Z }.
End ReadReceiptAuditLog.

Module PostReadReceiptBatch.
Record t := mk {
  PostIds : list string; UserId : string; ChannelId : string;
  ReadAt : Z; DeviceId : string }.
End PostReadReceiptBatch.

Module ReadReceiptBatchRequest.
Record t := mk {
  PostIds : list string; ChannelId : string;
  ReadAt : Z; DeviceId : string }.
End ReadReceiptBatchRequest.

Module UserReadReceiptSettings.
Record t := mk { ReceiptMode : string; ShowOthersReceipts : string }.
End UserReadReceiptSettings.

Module AppError.
Record t := mk {
  Where : string; Id : string; DetailedError : string; StatusCode : Z }.
End AppError.

Definition NewAppError (where_ id details : string) (status : Z) : AppError.t :=
  AppError.mk where_ id details status.

Definition StatusBadRequest : Z := 400.
Definition StatusForbidden : Z := 403.
Definition StatusNotFound : Z := 404.
Definition StatusInternalServerError : Z := 500.
Definition StatusNotImplemented : Z := 501.

(** Constants of the read-receipt system. *)
Definition ReadReceiptActionRead := "read".
Definition ReadReceiptActionGhostRead := "ghost_read".
Definition ReadReceiptActionBulkRead := "bulk_read".
Definition ReadReceiptActionPrivacyView := "privacy_view".

Definition DeviceTypeDesktop := "desktop".
Definition DeviceTypeMobile := "mobile".
Definition DeviceTypeWeb := "web".
Definition DeviceTypeUnknown := "unknown".

Definition ReadReceiptMaxBatchSize : Z := 100.

(** Modelled from the spec: the declarations of [ReadReceiptModeDisabled],
    [ReadReceiptVisibilityAll], [ReadReceiptVisibilityNone] and
    [PreferenceCategoryReadReceipts] are not among the files at hand.  The
    receipt mode is enabled/disabled and the visibility mode is all/none;
    only their being distinct strings matters below. *)
Definition ReadReceiptModeEnabled := "enabled".
Definition ReadReceiptModeDisabled := "disabled".
Definition ReadReceiptVisibilityAll := "all".
Definition ReadReceiptVisibilityNone := "none".
Definition PreferenceCategoryReadReceipts := "read_receipts".

(** Modelled from the spec: the channel types are declared outside the files
    at hand.  Direct and group conversations, open and private team
    channels, spelled as the platform spells them. *)
Definition ChannelTypeOpen := "O".
Definition ChannelTypePrivate := "P".
Definition ChannelTypeDirect := "D".
Definition ChannelTypeGroup := "G".

(** Modelled from the spec: the names of the two notification events, also
    declared outside the files at hand. *)
Definition WebsocketEventPostRead := "post_read".
Definition WebsocketEventPostReadBatch := "post_read_batch".

(** ** Collaborators: posts, channels, members, preferences *)

Module Post.
Record t := mk {
  Id : string; ChannelId : string; UserId : string; CreateAt : Z }.
End Post.

Module Channel.
Record t := mk { Id : string; Type_ : string }.
End Channel.

Module ChannelMember.
Record t := mk { ChannelId : string; UserId : string; LastViewedAt : Z }.
End ChannelMember.

Module Preference.
Record t := mk { Category : string; Name : string; Value : string }.
End Preference.

(** ** The database

    One record per table row, without the key columns: the key is the key of
    the finite map, so the primary-key constraint holds by construction.
    [ChannelMembers], primary key [(ChannelId, UserId)], maps a channel to
    its members and each member to the [LastViewedAt] column. *)

Module ReceiptRow.
(** [PostReadReceipts], primary key [(PostId, UserId)]. *)
Record t := mk {
  ChannelId : string; ReadAt : Z; CreateAt : Z;
  DeviceId : string; DeviceType : string; SessionId : string }.
End ReceiptRow.

Module SummaryRow.
(** [PostReadReceiptSummary], primary key [PostId]. *)
Record t := mk {
  ChannelId : string; ReadCount : Z; TotalRecipients : Z;
  LastUpdated : Z; FirstReadAt : Z; LastReadAt : Z }.
End SummaryRow.

Module PostRow.
(** [Posts], primary key [Id]. *)
Record t := mk { ChannelId : string; UserId : string; CreateAt : Z }.
End PostRow.

Record Db := mkDb {
  Posts : gmap string PostRow.t;
  Channels : gmap string string;
  ChannelMembers : gmap string (gmap string Z);
  Preferences : gmap string (list Preference.t);
  PostReadReceipts : gmap (string * string) ReceiptRow.t;
  PostReadReceiptSummary : gmap string SummaryRow.t;
  ReadReceiptAuditLogs : list ReadReceiptAuditLog.t }.

Definition set_PostReadReceipts (t : gmap (string * string) ReceiptRow.t) (d : Db) : Db :=
  mkDb (Posts d) (Channels d) (ChannelMembers d) (Preferences d)
       t (PostReadReceiptSummary d) (ReadReceiptAuditLogs d).

Definition set_PostReadReceiptSummary (t : gmap string SummaryRow.t) (d : Db) : Db :=
  mkDb (Posts d) (Channels d) (ChannelMembers d) (Preferences d)
       (PostReadReceipts d) t (ReadReceiptAuditLogs d).

Definition set_ReadReceiptAuditLogs (t : list ReadReceiptAuditLog.t) (d : Db) : Db :=
  mkDb (Posts d) (Channels d) (ChannelMembers d) (Preferences d)
       (PostReadReceipts d) (PostReadReceiptSummary d) t.

(** ** Configuration and the world *)

Record ServiceSettings := mkServiceSettings {
  EnableReadReceipts : bool;
  ReadReceiptsEnableTeamChannels : bool;
  ReadReceiptsDefaultSetting : string;
  ReadReceiptsAllowPrivacyDeletion : bool }.

(** A websocket message: event name, channel to broadcast to, payload. *)
Inductive WebSocketEvent :=
| EventReceipt (event channelId postId userId : string) (readAt : Z)
| EventBatch (event channelId : string) (receipts : list PostReadReceipt.t) (count : Z).

(** The world a request runs in.  [millis] is the clock read by
    [model.GetMillis].  [master_faults] and [replica_faults] are the outcomes
    of the statements still to be sent to the master and to the replica
    connection: [true] is a driver error, and an exhausted tape means the
    statement goes through. *)
Record World := mkWorld {
  Config : ServiceSettings;
  millis : Z;
  id_seed : nat;
  db : Db;
  master_faults : list bool;
  replica_faults : list bool;
  published : list WebSocketEvent }.

Definition set_db (d : Db) (w : World) : World :=
  mkWorld (Config w) (millis w) (id_seed w) d (master_faults w) (replica_faults w) (published w).

Definition set_master_faults (t : list bool) (w : World) : World :=
  mkWorld (Config w) (millis w) (id_seed w) (db w) t (replica_faults w) (published w).

Definition set_replica_faults (t : list bool) (w : World) : World :=
  mkWorld (Config w) (millis w) (id_seed w) (db w) (master_faults w) t (published w).

Definition set_id_seed (n : nat) (w : World) : World :=
  mkWorld (Config w) (millis w) n (db w) (master_faults w) (replica_faults w) (published w).

Definition set_published (p : list WebSocketEvent) (w : World) : World :=
  mkWorld (Config w) (millis w) (id_seed w) (db w) (master_faults w) (replica_faults w) p.

(** ** A state-and-error monad *)

Inductive result (E A : Type) : Type :=
| Ok (a : A)
| Err (e : E).
Arguments Ok {E A} a.
Arguments Err {E A} e.

Definition M (E A : Type) : Type := World → result E A * World.

Definition ret {E A} (a : A) : M E A := λ w, (Ok a, w).
Definition throw {E A} (e : E) : M E A := λ w, (Err e, w).
Definition bind {E A B} (m : M E A) (k : A → M E B) : M E B :=
  λ w, match m w with
       | (Ok a, w') => k a w'
       | (Err e, w') => (Err e, w')
       end.

(** [attempt m] runs [m] and hands its outcome to the caller, the way Go
    code receives [(value, err)] and decides for itself. *)
Definition attempt {E E' A} (m : M E A) : M E' (result E A) :=
  λ w, let '(r, w') := m w in (Ok r, w').

Definition gets {E A} (f : World → A) : M E A := λ w, (Ok (f w), w).
Definition modify {E} (f : World → World) : M E unit := λ w, (Ok tt, f w).

Notation "'do' x <- m ; k" := (bind m (λ x, k))
  (at level 10, x name, m at level 100, k at level 200).
Notation "'do_' m ; k" := (bind m (λ _, k))
  (at level 10, m at level 100, k at level 200).

(** Errors of the store: not found, or a wrapped driver error. *)
Inductive StoreError :=
| ErrNotFound (resource id : string)
| ErrWrap (msg : string).

Definition StoreError_Error (e : StoreError) : string :=
  match e with
  | ErrNotFound r i => r +:+ " not found: " +:+ i
  | ErrWrap m => m
  end.

(** Modelled from the spec: [model.GetMillis] reads the current time in epoch
    milliseconds. *)
Definition GetMillis {E} : M E Z := gets millis.

(** Modelled from the spec: [model.NewId] makes a fresh id; here the ids are
    the successive numbers of a counter. *)
Definition NewId {E} : M E string :=
  λ w, (Ok (pretty (id_seed w)), set_id_seed (S (id_seed w)) w).

(** One statement on a connection: consume the next outcome of the tape. *)
Definition next_outcome (tape : list bool) : bool * list bool :=
  match tape with
  | [] => (false, [])
  | b :: rest => (b, rest)
  end.

Definition GetMaster_Exec (wrap : string) : M StoreError unit :=
  λ w, let '(fault, rest) := next_outcome (master_faults w) in
       let w' := set_master_faults rest w in
       if fault then (Err (ErrWrap wrap), w') else (Ok tt, w').

Definition GetReplica_Query (wrap : string) : M StoreError unit :=
  λ w, let '(fault, rest) := next_outcome (replica_faults w) in
       let w' := set_replica_faults rest w in
       if fault then (Err (ErrWrap wrap), w') else (Ok tt, w').

(** ** Methods of [PostReadReceipt] that do not validate *)

(** [PreSave] fills [CreateAt], [ReadAt] and [DeviceType] when unset. *)
Definition PreSave {E} (r : PostReadReceipt.t) : M E PostReadReceipt.t :=
  do createAt <- (if PostReadReceipt.CreateAt r =? 0 then GetMillis
                  else ret (PostReadReceipt.CreateAt r));
  do readAt <- (if PostReadReceipt.ReadAt r =? 0 then GetMillis
                else ret (PostReadReceipt.ReadAt r));
  let deviceType := if decide (PostReadReceipt.DeviceType r = "")
                    then DeviceTypeUnknown else PostReadReceipt.DeviceType r in
  ret (PostReadReceipt.mk (PostReadReceipt.PostId r) (PostReadReceipt.UserId r)
         (PostReadReceipt.ChannelId r) readAt createAt
         (PostReadReceipt.DeviceId r) deviceType (PostReadReceipt.SessionId r)).

(** ** The SQL store *)

Module Store.

(** The primary key of a receipt. *)
Definition receipt_key (r : PostReadReceipt.t) : string * string :=
  (PostReadReceipt.PostId r, PostReadReceipt.UserId r).

(** A row read back into a struct. *)
Definition receipt_of_row (k : string * string) (row : ReceiptRow.t) : PostReadReceipt.t :=
  PostReadReceipt.mk k.1 k.2 (ReceiptRow.ChannelId row) (ReceiptRow.ReadAt row)
    (ReceiptRow.CreateAt row) (ReceiptRow.DeviceId row) (ReceiptRow.DeviceType row)
    (ReceiptRow.SessionId row).

(** [INSERT ... ON CONFLICT (PostId, UserId) DO UPDATE SET ReadAt, CreateAt,
    DeviceId, DeviceType, SessionId]: a fresh key takes all the columns, a
    present key keeps its [ChannelId]. *)
Definition upsert_receipt (r : PostReadReceipt.t)
    (t : gmap (string * string) ReceiptRow.t) : gmap (string * string) ReceiptRow.t :=
  let channelId := match t !! receipt_key r with
                   | Some old => ReceiptRow.ChannelId old
                   | None => PostReadReceipt.ChannelId r
                   end in
  <[receipt_key r :=
      ReceiptRow.mk channelId (PostReadReceipt.ReadAt r) (PostReadReceipt.CreateAt r)
        (PostReadReceipt.DeviceId r) (PostReadReceipt.DeviceType r)
        (PostReadReceipt.SessionId r)]> t.

Definition SaveReadReceipt (receipt : PostReadReceipt.t) : M StoreError PostReadReceipt.t :=
  do receipt <- PreSave receipt;
  do_ GetMaster_Exec "save_read_receipt";
  do_ modify (λ w, set_db (set_PostReadReceipts
                             (upsert_receipt receipt (PostReadReceipts (db w))) (db w)) w);
  ret receipt.

(** [strings.Contains]. *)
Fixpoint Contains (s substr : string) : bool :=
  String.prefix substr s ||
  match s with
  | EmptyString => false
  | String _ s' => Contains s' substr
  end.

(** A row of the multi-row insert of [SaveReadReceiptBatch], with
    [ON CONFLICT (PostId, UserId) DO UPDATE SET ReadAt = EXCLUDED.ReadAt,
    CreateAt = EXCLUDED.CreateAt]: a present key only takes the two times. *)
Definition upsert_batch_row (t : gmap (string * string) ReceiptRow.t)
    (k : string * string) (new : ReceiptRow.t) : gmap (string * string) ReceiptRow.t :=
  match t !! k with
  | Some old =>
      <[k := ReceiptRow.mk (ReceiptRow.ChannelId old) (ReceiptRow.ReadAt new)
               (ReceiptRow.CreateAt new) (ReceiptRow.DeviceId old)
               (ReceiptRow.DeviceType old) (ReceiptRow.SessionId old)]> t
  | None => <[k := new]> t
  end.

(** The device type the store derives from the batch's [DeviceId]. *)
Definition batch_deviceType (deviceId : string) : string :=
  if decide (deviceId ≠ "") then
    if Contains deviceId "mobile" then DeviceTypeMobile
    else if Contains deviceId "desktop" then DeviceTypeDesktop
    else DeviceTypeWeb
  else DeviceTypeWeb.

(** The rows are those of [batch.PostIds], every one of them, with the
    batch's own [ChannelId]; they are applied in the order of the list. *)
Definition insert_batch_rows (batch : PostReadReceiptBatch.t) (createAt : Z)
    (deviceType : string) (t : gmap (string * string) ReceiptRow.t)
    : gmap (string * string) ReceiptRow.t :=
  foldl (λ t postId,
           upsert_batch_row t (postId, PostReadReceiptBatch.UserId batch)
             (ReceiptRow.mk (PostReadReceiptBatch.ChannelId batch)
                (PostReadReceiptBatch.ReadAt batch) createAt
                (PostReadReceiptBatch.DeviceId batch) deviceType ""))
        t (PostReadReceiptBatch.PostIds batch).

Definition SaveReadReceiptBatch (batch : PostReadReceiptBatch.t) : M StoreError unit :=
  if decide (length (PostReadReceiptBatch.PostIds batch) = 0%nat) then ret tt
  else
    do createAt <- GetMillis;
    let deviceType := batch_deviceType (PostReadReceiptBatch.DeviceId batch) in
    do_ GetMaster_Exec "save_read_receipt_batch";
    modify (λ w, set_db (set_PostReadReceipts
                           (insert_batch_rows batch createAt deviceType
                              (PostReadReceipts (db w))) (db w)) w).

Definition GetReadReceipt (postID userID : string) : M StoreError PostReadReceipt.t :=
  do_ GetReplica_Query "get_read_receipt";
  do d <- gets db;
  match PostReadReceipts d !! (postID, userID) with
  | Some row => ret (receipt_of_row (postID, userID) row)
  | None => throw (ErrNotFound "PostReadReceipt" ("postId=" +:+ postID +:+ ", userId=" +:+ userID))
  end.

(** All the rows of [PostReadReceipts], as structs. *)
Definition receipts_of (t : gmap (string * string) ReceiptRow.t) : list PostReadReceipt.t :=
  (λ kv, receipt_of_row kv.1 kv.2) <$> map_to_list t.

(** [ORDER BY ReadAt DESC]. *)
Definition ReadAt_desc (a b : PostReadReceipt.t) : Prop :=
  PostReadReceipt.ReadAt b ≤ PostReadReceipt.ReadAt a.

Global Instance ReadAt_desc_dec : RelDecision ReadAt_desc.
Proof. intros a b. unfold ReadAt_desc. apply _. Defined.

Definition select_for_post (postID : string)
    (t : gmap (string * string) ReceiptRow.t) : list PostReadReceipt.t :=
  merge_sort ReadAt_desc
    (filter (λ r, PostReadReceipt.PostId r = postID) (receipts_of t)).

Definition GetReadReceiptsForPost (postID : string) (includeDeleted : bool)
    : M StoreError (list PostReadReceipt.t) :=
  do_ GetReplica_Query "get_read_receipts_for_post";
  do d <- gets db;
  ret (select_for_post postID (PostReadReceipts d)).

Definition DeleteReadReceipt (postID userID : string) : M StoreError unit :=
  do_ GetMaster_Exec "delete_read_receipt";
  modify (λ w, set_db (set_PostReadReceipts
                         (delete (postID, userID) (PostReadReceipts (db w))) (db w)) w).

Definition GetReadReceiptInfo (postID : string) : M StoreError PostReadReceiptInfo.t :=
  do receipts <- GetReadReceiptsForPost postID false;
  do_ GetReplica_Query "get_read_receipt_info_post";
  do d <- gets db;
  match Posts d !! postID with
  | None => throw (ErrWrap "get_read_receipt_info_post")
  | Some post =>
      let channelId := PostRow.ChannelId post in
      do_ GetReplica_Query "get_read_receipt_info_members";
      let totalUsers := Z.of_nat (size (default ∅ (ChannelMembers d !! channelId))) in
      let readCount := Z.of_nat (length receipts) in
      let lastRead := from_option PostReadReceipt.ReadAt 0 (head receipts) in
      let firstRead := from_option PostReadReceipt.ReadAt 0 (last receipts) in
      let allRead := bool_decide (totalUsers ≤ readCount) in
      let partiallyRead := bool_decide (0 < readCount) && bool_decide (readCount < totalUsers) in
      ret (PostReadReceiptInfo.mk postID channelId receipts [] totalUsers readCount
             lastRead firstRead partiallyRead allRead)
  end.

(** A row of [PostReadReceiptSummary] read into a struct. *)
Definition summary_of_row (postID : string) (row : SummaryRow.t) : PostReadReceiptSummary.t :=
  PostReadReceiptSummary.mk postID (SummaryRow.ChannelId row) (SummaryRow.ReadCount row)
    (SummaryRow.TotalRecipients row) (SummaryRow.LastUpdated row)
    (SummaryRow.FirstReadAt row) (SummaryRow.LastReadAt row).

Definition GetReadReceiptSummary (postID : string) : M StoreError PostReadReceiptSummary.t :=
  do_ GetReplica_Query "get_read_receipt_summary";
  do d <- gets db;
  match PostReadReceiptSummary d !! postID with
  | Some row => ret (summary_of_row postID row)
  | None => throw (ErrNotFound "PostReadReceiptSummary" postID)
  end.

(** [ON CONFLICT (PostId) DO UPDATE SET ReadCount, TotalRecipients,
    LastUpdated, FirstReadAt, LastReadAt]: a present key keeps [ChannelId]. *)
Definition upsert_summary (s : PostReadReceiptSummary.t)
    (t : gmap string SummaryRow.t) : gmap string SummaryRow.t :=
  let channelId := match t !! PostReadReceiptSummary.PostId s with
                   | Some old => SummaryRow.ChannelId old
                   | None => PostReadReceiptSummary.ChannelId s
                   end in
  <[PostReadReceiptSummary.PostId s :=
      SummaryRow.mk channelId (PostReadReceiptSummary.ReadCount s)
        (PostReadReceiptSummary.TotalRecipients s) (PostReadReceiptSummary.LastUpdated s)
        (PostReadReceiptSummary.FirstReadAt s) (PostReadReceiptSummary.LastReadAt s)]> t.

Definition UpdateReadReceiptSummary (summary : PostReadReceiptSummary.t) : M StoreError unit :=
  do_ GetMaster_Exec "update_read_receipt_summary";
  modify (λ w, set_db (set_PostReadReceiptSummary
                         (upsert_summary summary (PostReadReceiptSummary (db w))) (db w)) w).

Definition SaveReadReceiptAuditLog (audit : ReadReceiptAuditLog.t) : M StoreError unit :=
  do_ GetMaster_Exec "save_read_receipt_audit_log";
  modify (λ w, set_db (set_ReadReceiptAuditLogs
                         (ReadReceiptAuditLogs (db w) ++ [audit]) (db w)) w).

(** *** The other queries and statements of the store *)

(** Go's conversions of an [int]: [uint64(n)], and the wrap-around of the
    64-bit signed arithmetic. *)
Definition uint64 (n : Z) : Z := n mod 2 ^ 64.

Definition int64 (n : Z) : Z := (n + 2 ^ 63) mod 2 ^ 64 - 2 ^ 63.

(** [LIMIT n]: the first [n] rows. *)
Fixpoint limit_rows {A} (n : Z) (rows : list A) : list A :=
  match rows with
  | [] => []
  | row :: rest => if bool_decide (n ≤ 0) then [] else row :: limit_rows (n - 1) rest
  end.

(** [WHERE PostId IN (...) ORDER BY PostId, ReadAt DESC]: by post id in the
    order of the bytes, the latest read first within a post. *)
Definition PostId_then_ReadAt_desc (a b : PostReadReceipt.t) : Prop :=
  String.ltb (PostReadReceipt.PostId a) (PostReadReceipt.PostId b) = true ∨
  (PostReadReceipt.PostId a = PostReadReceipt.PostId b ∧
   PostReadReceipt.ReadAt b ≤ PostReadReceipt.ReadAt a).

Global Instance PostId_then_ReadAt_desc_dec : RelDecision PostId_then_ReadAt_desc.
Proof. intros a b. unfold PostId_then_ReadAt_desc. apply _. Defined.

(** [result[receipt.PostId] = append(result[receipt.PostId], receipt)]. *)
Definition group_by_post (receipts : list PostReadReceipt.t)
    : gmap string (list PostReadReceipt.t) :=
  foldl (λ result receipt,
           <[PostReadReceipt.PostId receipt :=
               default [] (result !! PostReadReceipt.PostId receipt) ++ [receipt]]> result)
        ∅ receipts.

Definition GetReadReceiptsForPosts (postIDs : list string)
    : M StoreError (gmap string (list PostReadReceipt.t)) :=
  if decide (length postIDs = 0%nat) then ret ∅
  else
    do_ GetReplica_Query "get_read_receipts_for_posts";
    do d <- gets db;
    ret (group_by_post
           (merge_sort PostId_then_ReadAt_desc
              (filter (λ r, PostReadReceipt.PostId r ∈ postIDs)
                 (receipts_of (PostReadReceipts d))))).

(** [WHERE UserId = ? [AND ChannelId = ?] ORDER BY ReadAt DESC LIMIT ?]; the
    limit is sent as [uint64(limit)]. *)
Definition GetReadReceiptsForUser (userID channelID : string) (limit : Z)
    : M StoreError (list PostReadReceipt.t) :=
  do_ GetReplica_Query "get_read_receipts_for_user";
  do d <- gets db;
  ret (limit_rows (uint64 limit)
         (merge_sort ReadAt_desc
            (filter (λ r, PostReadReceipt.UserId r = userID ∧
                          (channelID ≠ "" → PostReadReceipt.ChannelId r = channelID))
               (receipts_of (PostReadReceipts d))))).

(** [WHERE ChannelId = ? [AND ReadAt >= ?] ORDER BY ReadAt DESC]; [since] is
    applied only when positive. *)
Definition GetReadReceiptsForChannel (channelID : string) (since : Z)
    : M StoreError (list PostReadReceipt.t) :=
  do_ GetReplica_Query "get_read_receipts_for_channel";
  do d <- gets db;
  ret (merge_sort ReadAt_desc
         (filter (λ r, PostReadReceipt.ChannelId r = channelID ∧
                       (0 < since → since ≤ PostReadReceipt.ReadAt r))
            (receipts_of (PostReadReceipts d)))).

(** [DELETE FROM PostReadReceipts WHERE ...]. *)
Definition DeleteReadReceiptsForUser (userID : string) : M StoreError unit :=
  do_ GetMaster_Exec "delete_read_receipts_for_user";
  modify (λ w, set_db (set_PostReadReceipts
                         (filter (λ kv, kv.1.2 ≠ userID) (PostReadReceipts (db w))) (db w)) w).

Definition DeleteReadReceiptsForPost (postID : string) : M StoreError unit :=
  do_ GetMaster_Exec "delete_read_receipts_for_post";
  modify (λ w, set_db (set_PostReadReceipts
                         (filter (λ kv, kv.1.1 ≠ postID) (PostReadReceipts (db w))) (db w)) w).

Definition DeleteReadReceiptsForChannel (channelID : string) : M StoreError unit :=
  do_ GetMaster_Exec "delete_read_receipts_for_channel";
  modify (λ w, set_db (set_PostReadReceipts
                         (filter (λ kv, ReceiptRow.ChannelId kv.2 ≠ channelID)
                            (PostReadReceipts (db w))) (db w)) w).

(** The loop of [GetReadReceiptInfoBatch]: a post whose info cannot be had is
    passed over. *)
Fixpoint info_batch (postIDs : list string) (result : gmap string PostReadReceiptInfo.t)
    : M StoreError (gmap string PostReadReceiptInfo.t) :=
  match postIDs with
  | [] => ret result
  | postID :: rest =>
      do info <- attempt (GetReadReceiptInfo postID);
      match info with
      | Err _ => info_batch rest result
      | Ok info => info_batch rest (<[postID := info]> result)
      end
  end.

Definition GetReadReceiptInfoBatch (postIDs : list string)
    : M StoreError (gmap string PostReadReceiptInfo.t) :=
  info_batch postIDs ∅.

(** All the rows of [PostReadReceiptSummary], as structs. *)
Definition summaries_of (t : gmap string SummaryRow.t) : list PostReadReceiptSummary.t :=
  (λ kv, summary_of_row kv.1 kv.2) <$> map_to_list t.

(** [ORDER BY LastUpdated DESC]. *)
Definition LastUpdated_desc (a b : PostReadReceiptSummary.t) : Prop :=
  PostReadReceiptSummary.LastUpdated b ≤ PostReadReceiptSummary.LastUpdated a.

Global Instance LastUpdated_desc_dec : RelDecision LastUpdated_desc.
Proof. intros a b. unfold LastUpdated_desc. apply _. Defined.

Definition GetReadReceiptSummariesForChannel (channelID : string) (since : Z)
    : M StoreError (list PostReadReceiptSummary.t) :=
  do_ GetReplica_Query "get_read_receipt_summaries_for_channel";
  do d <- gets db;
  ret (merge_sort LastUpdated_desc
         (filter (λ s, PostReadReceiptSummary.ChannelId s = channelID ∧
                       (0 < since → since ≤ PostReadReceiptSummary.LastUpdated s))
            (summaries_of (PostReadReceiptSummary d)))).

(** A placeholder in the source. *)
Definition CoalesceReadReceipts (channelID userID : string) (beforeTime : Z)
    : M StoreError unit :=
  ret tt.

(** [model.GetMillis() - int64(daysOld*24*60*60*1000)], in 64-bit signed
    arithmetic. *)
Definition cleanup_cutoff (now daysOld : Z) : Z :=
  int64 (now - int64 (int64 (int64 (int64 (daysOld * 24) * 60) * 60) * 1000)).

(** [DELETE ... WHERE CreateAt < cutoff]; the rows affected are returned. *)
Definition CleanupOldReadReceipts (daysOld : Z) : M StoreError Z :=
  do now <- GetMillis;
  let cutoff := cleanup_cutoff now daysOld in
  do_ GetMaster_Exec "cleanup_old_read_receipts";
  do d <- gets db;
  let kept := filter (λ kv, ¬ ReceiptRow.CreateAt kv.2 < cutoff) (PostReadReceipts d) in
  do_ modify (λ w, set_db (set_PostReadReceipts kept (db w)) w);
  ret (Z.of_nat (size (PostReadReceipts d)) - Z.of_nat (size kept)).

(** [map[string]interface{}] with the three keys the source sets. *)
Record ReadReceiptStats := mkReadReceiptStats {
  total_receipts : Z; channel_id : string; last_updated : Z }.

Definition GetReadReceiptStats (channelID : string) : M StoreError ReadReceiptStats :=
  do_ GetReplica_Query "get_read_receipt_stats_count";
  do d <- gets db;
  let totalReceipts :=
    Z.of_nat (length (filter (λ r, PostReadReceipt.ChannelId r = channelID)
                        (receipts_of (PostReadReceipts d)))) in
  do now <- GetMillis;
  ret (mkReadReceiptStats totalReceipts channelID now).

(** [ORDER BY CreateAt DESC]. *)
Definition audit_CreateAt_desc (a b : ReadReceiptAuditLog.t) : Prop :=
  ReadReceiptAuditLog.CreateAt b ≤ ReadReceiptAuditLog.CreateAt a.

Global Instance audit_CreateAt_desc_dec : RelDecision audit_CreateAt_desc.
Proof. intros a b. unfold audit_CreateAt_desc. apply _. Defined.

(** [WHERE UserId = ? [AND CreateAt >= ?] ORDER BY CreateAt DESC LIMIT ?].
    The metadata travels through the table as JSON and comes back as it
    went in. *)
Definition GetReadReceiptAuditLogs (userID : string) (since limit : Z)
    : M StoreError (list ReadReceiptAuditLog.t) :=
  do_ GetReplica_Query "get_read_receipt_audit_logs";
  do d <- gets db;
  ret (limit_rows (uint64 limit)
         (merge_sort audit_CreateAt_desc
            (filter (λ a, ReadReceiptAuditLog.UserId a = userID ∧
                          (0 < since → since ≤ ReadReceiptAuditLog.CreateAt a))
               (ReadReceiptAuditLogs d)))).

(** [UPDATE PostReadReceipts SET DeviceId = 'ANONYMIZED', DeviceType =
    'unknown', SessionId = '' WHERE UserId = ?]. *)
Definition anonymized (row : ReceiptRow.t) : ReceiptRow.t :=
  ReceiptRow.mk (ReceiptRow.ChannelId row) (ReceiptRow.ReadAt row) (ReceiptRow.CreateAt row)
    "ANONYMIZED" DeviceTypeUnknown "".

Definition AnonymizeReadReceiptsForUser (userID : string) : M StoreError unit :=
  do_ GetMaster_Exec "anonymize_read_receipts_for_user";
  modify (λ w, set_db (set_PostReadReceipts
                         (map_imap (λ k row, Some (if decide (k.2 = userID)
                                                   then anonymized row else row))
                            (PostReadReceipts (db w))) (db w)) w).

(** A placeholder in the source: no ghost receipt is ever listed. *)
Definition GetGhostReadReceipts (userID channelID : string)
    : M StoreError (list PostReadReceipt.t) :=
  ret [].

(** A ghost read goes to the audit log only. *)
Definition SaveGhostReadReceipt (receipt : PostReadReceipt.t) : M StoreError unit :=
  do id <- NewId;
  do now <- GetMillis;
  SaveReadReceiptAuditLog
    (ReadReceiptAuditLog.mk id (PostReadReceipt.UserId receipt)
       (PostReadReceipt.PostId receipt) ReadReceiptActionGhostRead
       [("channel_id", PostReadReceipt.ChannelId receipt);
        ("device_type", PostReadReceipt.DeviceType receipt)]
       now).

(** [SELECT 1 ... WHERE PostId = ? AND UserId = ?]: no row is [false], not an
    error. *)
Definition IsPostReadByUser (postID userID : string) : M StoreError bool :=
  do_ GetReplica_Query "is_post_read_by_user";
  do d <- gets db;
  ret (bool_decide (is_Some (PostReadReceipts d !! (postID, userID)))).

(** [COUNT(DISTINCT p.Id)] over the posts of the channel created at or after
    [since] that have no receipt of the user. *)
Definition GetUnreadPostsCount (channelID userID : string) (since : Z) : M StoreError Z :=
  do_ GetReplica_Query "get_unread_posts_count";
  do d <- gets db;
  ret (Z.of_nat (length (filter (λ kv, PostRow.ChannelId kv.2 = channelID ∧
                                       since ≤ PostRow.CreateAt kv.2 ∧
                                       PostReadReceipts d !! (kv.1, userID) = None)
                           (map_to_list (Posts d))))).

(** [MAX(ReadAt)], [NULL] over no row. *)
Definition max_ReadAt (receipts : list PostReadReceipt.t) : option Z :=
  match receipts with
  | [] => None
  | r :: rest => Some (foldl (λ m r', Z.max m (PostReadReceipt.ReadAt r'))
                         (PostReadReceipt.ReadAt r) rest)
  end.

Definition GetLastReadTime (channelID userID : string) : M StoreError Z :=
  do_ GetReplica_Query "get_last_read_time";
  do d <- gets db;
  match max_ReadAt (filter (λ r, PostReadReceipt.ChannelId r = channelID ∧
                                 PostReadReceipt.UserId r = userID)
                      (receipts_of (PostReadReceipts d))) with
  | Some lastRead => ret lastRead
  | None => ret 0
  end.

End Store.

(** ** Collaborators of the application layer *)

(** A row of [Posts] read into a struct. *)
Definition post_of_row (id : string) (row : PostRow.t) : Post.t :=
  Post.mk id (PostRow.ChannelId row) (PostRow.UserId row) (PostRow.CreateAt row).

(** Modelled from the spec: [GetSinglePost], like [GetPostsByIds],
    [GetChannel], [GetPreferencesForUser], [GetChannelMembers] and
    [GetPostsForChannel] below, is a method of [App] outside the files at
    hand.  The post resolver answers by id, or fails with a not-found
    error. *)
Definition GetSinglePost (postId : string) : M AppError.t Post.t :=
  do d <- gets db;
  match Posts d !! postId with
  | Some row => ret (post_of_row postId row)
  | None => throw (NewAppError "GetSinglePost" "app.post.get.app_error" "" StatusNotFound)
  end.

(** Modelled from the spec: resolving a batch of ids; the posts that fail to
    resolve are dropped, and that is not an error of the whole call. *)
Definition GetPostsByIds (postIds : list string) : M AppError.t (list Post.t) :=
  do d <- gets db;
  ret (omap (λ id, post_of_row id <$> Posts d !! id) postIds).

(** Modelled from the spec: [GetChannel], the channel resolver, answers with
    the channel's type or fails with a not-found error. *)
Definition GetChannel (channelId : string) : M AppError.t Channel.t :=
  do d <- gets db;
  match Channels d !! channelId with
  | Some ty => ret (Channel.mk channelId ty)
  | None => throw (NewAppError "GetChannel" "app.channel.get.existing.app_error" "" StatusNotFound)
  end.

(** Modelled from the spec: the preference resolver maps a user to that
    user's preferences, none when nothing is recorded. *)
Definition GetPreferencesForUser (userId : string) : M AppError.t (list Preference.t) :=
  do d <- gets db;
  ret (default [] (Preferences d !! userId)).

(** Modelled from the spec: the membership resolver lists the members of a
    channel with their last-viewed time, one page at a time. *)
Definition GetChannelMembers (channelId : string) (page perPage : nat)
    : M AppError.t (list ChannelMember.t) :=
  do d <- gets db;
  ret ((λ m, ChannelMember.mk channelId m.1 m.2)
         <$> take perPage (drop (page * perPage)
                             (map_to_list (default ∅ (ChannelMembers d !! channelId))))).

(** Most recent first. *)
Definition CreateAt_desc (a b : Post.t) : Prop := Post.CreateAt b ≤ Post.CreateAt a.

Global Instance CreateAt_desc_dec : RelDecision CreateAt_desc.
Proof. intros a b. unfold CreateAt_desc. apply _. Defined.

(** Modelled from the spec: the recent posts of a channel, a bounded window
    of the most recent ones. *)
Definition GetPostsForChannel (channelId : string) (page perPage : nat)
    : M AppError.t (list Post.t) :=
  do d <- gets db;
  ret (take perPage (drop (page * perPage)
         (merge_sort CreateAt_desc
            (filter (λ p, Post.ChannelId p = channelId)
               ((λ kv, post_of_row kv.1 kv.2) <$> map_to_list (Posts d)))))).

(** [a.Publish]. *)
Definition Publish {E} (message : WebSocketEvent) : M E unit :=
  modify (λ w, set_published (published w ++ [message]) w).

(** A store call made from the application layer: a store error becomes the
    [AppError] the caller builds from it. *)
Definition from_store {A} (where_ id : string) (m : M StoreError A) : M AppError.t A :=
  λ w, match m w with
       | (Ok a, w') => (Ok a, w')
       | (Err e, w') =>
           (Err (NewAppError where_ id (StoreError_Error e) StatusInternalServerError), w')
       end.

(** ** The application layer *)

(** DM and GM channels always, team channels only if enabled. *)
Definition allowedChannelType (cfg : ServiceSettings) (channel : Channel.t) : bool :=
  let allowed := bool_decide (Channel.Type_ channel = ChannelTypeDirect)
                 || bool_decide (Channel.Type_ channel = ChannelTypeGroup) in
  if negb allowed && ReadReceiptsEnableTeamChannels cfg
  then bool_decide (Channel.Type_ channel = ChannelTypeOpen)
       || bool_decide (Channel.Type_ channel = ChannelTypePrivate)
  else allowed.

(** One turn of the loop over the user's preferences. *)
Definition apply_preference (settings : UserReadReceiptSettings.t) (pref : Preference.t)
    : UserReadReceiptSettings.t :=
  if decide (Preference.Category pref = PreferenceCategoryReadReceipts) then
    if decide (Preference.Name pref = "receipt_mode") then
      UserReadReceiptSettings.mk (Preference.Value pref)
        (UserReadReceiptSettings.ShowOthersReceipts settings)
    else if decide (Preference.Name pref = "show_others_receipts") then
      UserReadReceiptSettings.mk (UserReadReceiptSettings.ReceiptMode settings)
        (Preference.Value pref)
    else settings
  else settings.

(** The configured default, overridden by the user's preferences. *)
Definition GetUserReadReceiptSettings (userId : string)
    : M AppError.t UserReadReceiptSettings.t :=
  do preferences <- GetPreferencesForUser userId;
  do cfg <- gets Config;
  let settings := UserReadReceiptSettings.mk (ReadReceiptsDefaultSetting cfg)
                    ReadReceiptVisibilityAll in
  ret (foldl apply_preference settings preferences).

(** Unknown without a device id, web otherwise. *)
Definition DetectDeviceType (deviceId : string) : string :=
  if decide (deviceId = "") then DeviceTypeUnknown else DeviceTypeWeb.

(** The event of a single receipt. *)
Definition PublishReadReceiptEvent {E} (receipt : PostReadReceipt.t) (event : string) : M E unit :=
  Publish (EventReceipt event (PostReadReceipt.ChannelId receipt)
             (PostReadReceipt.PostId receipt) (PostReadReceipt.UserId receipt)
             (PostReadReceipt.ReadAt receipt)).

(** [channelGroups]: the receipts grouped by channel.  Go ranges over the
    map in no fixed order; here the channels come in order of appearance. *)
Fixpoint channelGroups (receipts : list PostReadReceipt.t)
    (groups : list (string * list PostReadReceipt.t)) : list (string * list PostReadReceipt.t) :=
  match receipts with
  | [] => groups
  | receipt :: rest =>
      let c := PostReadReceipt.ChannelId receipt in
      channelGroups rest
        (if bool_decide (c ∈ groups.*1)
         then (λ g, if decide (g.1 = c) then (g.1, g.2 ++ [receipt]) else g) <$> groups
         else groups ++ [(c, [receipt])])
  end.

(** One event per channel of the batch. *)
Fixpoint publish_groups {E} (event : string)
    (groups : list (string * list PostReadReceipt.t)) : M E unit :=
  match groups with
  | [] => ret tt
  | (channelId, channelReceipts) :: rest =>
      do_ Publish (EventBatch event channelId channelReceipts
                     (Z.of_nat (length channelReceipts)));
      publish_groups event rest
  end.

Definition PublishReadReceiptBatchEvent {E} (receipts : list PostReadReceipt.t)
    (event : string) : M E unit :=
  if decide (length receipts = 0%nat) then ret tt
  else publish_groups event (channelGroups receipts []).

(** [UpdateReadReceiptSummaryAsync]: the body of the goroutine, run to its
    end.  Nothing is returned; a failure is only logged. *)
Definition UpdateReadReceiptSummaryAsync (channelId postId : string) : M AppError.t unit :=
  do r <- attempt (Store.GetReadReceiptSummary postId);
  match r with
  | Err _ => ret tt
  | Ok summary =>
      do now <- GetMillis;
      let summary := PostReadReceiptSummary.mk
                       (PostReadReceiptSummary.PostId summary)
                       (PostReadReceiptSummary.ChannelId summary)
                       (PostReadReceiptSummary.ReadCount summary)
                       (PostReadReceiptSummary.TotalRecipients summary)
                       now
                       (PostReadReceiptSummary.FirstReadAt summary)
                       (PostReadReceiptSummary.LastReadAt summary) in
      do _r <- attempt (Store.UpdateReadReceiptSummary summary);
      ret tt
  end.

(** [info.ReadReceipts] narrowed to the requesting user's own receipts: the
    loop of [GetReadReceiptInfoForPost], appending to [filteredReceipts]. *)
Fixpoint filteredReceipts (requestingUserId : string) (receipts : list PostReadReceipt.t)
    (acc : list PostReadReceipt.t) : list PostReadReceipt.t :=
  match receipts with
  | [] => acc
  | receipt :: rest =>
      if decide (PostReadReceipt.UserId receipt = requestingUserId)
      then filteredReceipts requestingUserId rest (acc ++ [receipt])
      else filteredReceipts requestingUserId rest acc
  end.

(** The store's answer, narrowed when the requesting user does not show
    others' receipts. *)
Definition GetReadReceiptInfoForPost (postId requestingUserId : string) (includeDeleted : bool)
    : M AppError.t PostReadReceiptInfo.t :=
  do cfg <- gets Config;
  if negb (EnableReadReceipts cfg) then
    throw (NewAppError "GetReadReceiptInfoForPost" "app.post.read_receipt.disabled.app_error"
             "" StatusNotImplemented)
  else
    do userSettings <- GetUserReadReceiptSettings requestingUserId;
    do info <- from_store "GetReadReceiptInfoForPost"
                 "app.post.read_receipt.get_info.app_error" (Store.GetReadReceiptInfo postId);
    if decide (UserReadReceiptSettings.ShowOthersReceipts userSettings
               = ReadReceiptVisibilityNone)
    then
      let filtered := filteredReceipts requestingUserId
                        (PostReadReceiptInfo.ReadReceipts info) [] in
      ret (PostReadReceiptInfo.mk
             (PostReadReceiptInfo.PostId info) (PostReadReceiptInfo.ChannelId info)
             filtered
             (PostReadReceiptInfo.UnreadUsers info) (PostReadReceiptInfo.TotalUsers info)
             (Z.of_nat (length filtered))
             (PostReadReceiptInfo.LastRead info) (PostReadReceiptInfo.FirstRead info)
             (PostReadReceiptInfo.PartiallyRead info) (PostReadReceiptInfo.AllRead info))
    else ret info.

(** Delete, then log the deletion; the outcome of the log write is ignored. *)
Definition DeleteReadReceiptForPost (userId postId : string) : M AppError.t unit :=
  do cfg <- gets Config;
  if negb (EnableReadReceipts cfg) then
    throw (NewAppError "DeleteReadReceiptForPost" "app.post.read_receipt.disabled.app_error"
             "" StatusNotImplemented)
  else if negb (ReadReceiptsAllowPrivacyDeletion cfg) then
    throw (NewAppError "DeleteReadReceiptForPost"
             "app.post.read_receipt.privacy_deletion_disabled.app_error" "" StatusForbidden)
  else
    do_ from_store "DeleteReadReceiptForPost" "app.post.read_receipt.delete.app_error"
          (Store.DeleteReadReceipt postId userId);
    do id <- NewId;
    do now <- GetMillis;
    let audit := ReadReceiptAuditLog.mk id userId postId ReadReceiptActionPrivacyView
                   [("action", "delete_receipt"); ("reason", "user_privacy_request")] now in
    do _r <- attempt (Store.SaveReadReceiptAuditLog audit);
    ret tt.

(** [BackfillReadReceiptsForChannel], step 5: the posts one member is taken
    to have read.  The store is asked for each candidate pair. *)
Fixpoint backfill_posts (channelId : string) (member : ChannelMember.t)
    (posts : list Post.t) (receiptsToCreate : list PostReadReceipt.t)
    : M AppError.t (list PostReadReceipt.t) :=
  match posts with
  | [] => ret receiptsToCreate
  | post :: rest =>
      if bool_decide (Post.CreateAt post > ChannelMember.LastViewedAt member) then
        backfill_posts channelId member rest receiptsToCreate
      else if decide (Post.UserId post = ChannelMember.UserId member) then
        backfill_posts channelId member rest receiptsToCreate
      else
        do existing <- attempt (Store.GetReadReceipt (Post.Id post) (ChannelMember.UserId member));
        match existing with
        | Ok _ => backfill_posts channelId member rest receiptsToCreate
        | Err _ =>
            let receipt := PostReadReceipt.mk (Post.Id post) (ChannelMember.UserId member)
                             channelId (ChannelMember.LastViewedAt member) 0
                             "backfill" "backfill" "" in
            backfill_posts channelId member rest (receiptsToCreate ++ [receipt])
        end
  end.

Fixpoint backfill_members (channelId : string) (members : list ChannelMember.t)
    (posts : list Post.t) (receiptsToCreate : list PostReadReceipt.t)
    : M AppError.t (list PostReadReceipt.t) :=
  match members with
  | [] => ret receiptsToCreate
  | member :: rest =>
      if decide (ChannelMember.LastViewedAt member = 0) then
        backfill_members channelId rest posts receiptsToCreate
      else
        do receiptsToCreate <- backfill_posts channelId member posts receiptsToCreate;
        backfill_members channelId rest posts receiptsToCreate
  end.

(** Step 6: one save per receipt; a failed save is logged and passed over. *)
Fixpoint backfill_save (receiptsToCreate : list PostReadReceipt.t) : M AppError.t unit :=
  match receiptsToCreate with
  | [] => ret tt
  | receipt :: rest =>
      do _saved <- attempt (Store.SaveReadReceipt receipt);
      backfill_save rest
  end.

(** Receipts for the posts the members are taken to have read. *)
Definition BackfillReadReceiptsForChannel (channelId : string) : M AppError.t unit :=
  do cfg <- gets Config;
  if negb (EnableReadReceipts cfg) then
    throw (NewAppError "BackfillReadReceiptsForChannel"
             "app.post.read_receipt.disabled.app_error" "" StatusNotImplemented)
  else
    do channel <- GetChannel channelId;
    if negb (allowedChannelType cfg channel) then
      throw (NewAppError "BackfillReadReceiptsForChannel"
               "app.post.read_receipt.channel_type.app_error" "" StatusBadRequest)
    else
      do members <- GetChannelMembers channelId 0 200;
      do postList <- GetPostsForChannel channelId 0 60;
      do _currentTime <- GetMillis;
      do receiptsToCreate <- backfill_members channelId members postList [];
      backfill_save receiptsToCreate.

(** Summaries of a channel, for the channels that may keep receipts. *)
Definition GetChannelReadReceiptSummary (channelId userId : string) (since : Z)
    : M AppError.t (list PostReadReceiptSummary.t) :=
  do cfg <- gets Config;
  if negb (EnableReadReceipts cfg) then
    throw (NewAppError "GetChannelReadReceiptSummary"
             "app.post.read_receipt.disabled.app_error" "" StatusNotImplemented)
  else
    do channel <- GetChannel channelId;
    if negb (allowedChannelType cfg channel) then
      throw (NewAppError "GetChannelReadReceiptSummary"
               "app.post.read_receipt.channel_type.app_error" "" StatusBadRequest)
    else
      from_store "GetChannelReadReceiptSummary"
        "app.post.read_receipt.get_summaries.app_error"
        (Store.GetReadReceiptSummariesForChannel channelId since).

(** A user's receipts; [since] is taken and not passed on. *)
Definition GetUserReadReceiptHistory (userId channelId : string) (since limit : Z)
    : M AppError.t (list PostReadReceipt.t) :=
  do cfg <- gets Config;
  if negb (EnableReadReceipts cfg) then
    throw (NewAppError "GetUserReadReceiptHistory"
             "app.post.read_receipt.disabled.app_error" "" StatusNotImplemented)
  else
    from_store "GetUserReadReceiptHistory"
      "app.post.read_receipt.get_user_receipts.app_error"
      (Store.GetReadReceiptsForUser userId channelId limit).

(** [IsFullyRead], [IsPartiallyRead], [Equals] and [Clone] of package
    [model]. *)
Definition IsFullyRead (info : PostReadReceiptInfo.t) : bool :=
  bool_decide (PostReadReceiptInfo.TotalUsers info ≤ PostReadReceiptInfo.ReadCount info).

Definition IsPartiallyRead (info : PostReadReceiptInfo.t) : bool :=
  bool_decide (0 < PostReadReceiptInfo.ReadCount info)
  && bool_decide (PostReadReceiptInfo.ReadCount info < PostReadReceiptInfo.TotalUsers info).

(** [other] is [None] for Go's [nil]. *)
Definition Equals (r : PostReadReceipt.t) (other : option PostReadReceipt.t) : bool :=
  match other with
  | None => false
  | Some other =>
      bool_decide (PostReadReceipt.PostId r = PostReadReceipt.PostId other)
      && bool_decide (PostReadReceipt.UserId r = PostReadReceipt.UserId other)
      && bool_decide (PostReadReceipt.ReadAt r = PostReadReceipt.ReadAt other)
  end.

Definition Clone (r : PostReadReceipt.t) : PostReadReceipt.t :=
  PostReadReceipt.mk (PostReadReceipt.PostId r) (PostReadReceipt.UserId r)
    (PostReadReceipt.ChannelId r) (PostReadReceipt.ReadAt r) (PostReadReceipt.CreateAt r)
    (PostReadReceipt.DeviceId r) (PostReadReceipt.DeviceType r)
    (PostReadReceipt.SessionId r).

Section Validation.

(** [model.IsValidId] is declared outside the files at hand; the
    development is parametric in it. *)
Variable IsValidId : string → bool.

(** The device types [IsValid] accepts. *)
Definition validDeviceTypes : list string :=
  [DeviceTypeDesktop; DeviceTypeMobile; DeviceTypeWeb; DeviceTypeUnknown].

(** [PostReadReceipt.IsValid]: [None] is Go's [nil]. *)
Definition IsValid (r : PostReadReceipt.t) : option AppError.t :=
  if negb (IsValidId (PostReadReceipt.PostId r)) then
    Some (NewAppError "PostReadReceipt.IsValid"
            "model.post_read_receipt.is_valid.post_id.app_error" "" StatusBadRequest)
  else if negb (IsValidId (PostReadReceipt.UserId r)) then
    Some (NewAppError "PostReadReceipt.IsValid"
            "model.post_read_receipt.is_valid.user_id.app_error" "" StatusBadRequest)
  else if negb (IsValidId (PostReadReceipt.ChannelId r)) then
    Some (NewAppError "PostReadReceipt.IsValid"
            "model.post_read_receipt.is_valid.channel_id.app_error" "" StatusBadRequest)
  else if PostReadReceipt.ReadAt r =? 0 then
    Some (NewAppError "PostReadReceipt.IsValid"
            "model.post_read_receipt.is_valid.read_at.app_error" "" StatusBadRequest)
  else if PostReadReceipt.CreateAt r =? 0 then
    Some (NewAppError "PostReadReceipt.IsValid"
            "model.post_read_receipt.is_valid.create_at.app_error" "" StatusBadRequest)
  else if bool_decide (PostReadReceipt.DeviceType r ≠ "")
          && negb (bool_decide (PostReadReceipt.DeviceType r ∈ validDeviceTypes)) then
    Some (NewAppError "PostReadReceipt.IsValid"
            "model.post_read_receipt.is_valid.device_type.app_error" "" StatusBadRequest)
  else None.

(** The goroutine that refreshes the summary is run in place, after the
    event is published. *)
Definition SaveReadReceiptForPost (userId postId : string) (readAt : Z) (deviceId : string)
    : M AppError.t PostReadReceipt.t :=
  do cfg <- gets Config;
  if negb (EnableReadReceipts cfg) then
    throw (NewAppError "SaveReadReceiptForPost" "app.post.read_receipt.disabled.app_error"
             "" StatusNotImplemented)
  else
    do post <- GetSinglePost postId;
    do channel <- GetChannel (Post.ChannelId post);
    if negb (allowedChannelType cfg channel) then
      throw (NewAppError "SaveReadReceiptForPost"
               "app.post.read_receipt.channel_type.app_error" "" StatusBadRequest)
    else
      do userSettings <- GetUserReadReceiptSettings userId;
      if decide (UserReadReceiptSettings.ReceiptMode userSettings = ReadReceiptModeDisabled)
      then
        throw (NewAppError "SaveReadReceiptForPost"
                 "app.post.read_receipt.user_disabled.app_error" "" StatusForbidden)
      else
        let receipt := PostReadReceipt.mk postId userId (Post.ChannelId post) readAt 0
                         deviceId (DetectDeviceType deviceId) "" in
        match IsValid receipt with
        | Some validationErr => throw validationErr
        | None =>
            do savedReceipt <- from_store "SaveReadReceiptForPost"
                                 "app.post.read_receipt.save.app_error"
                                 (Store.SaveReadReceipt receipt);
            do_ PublishReadReceiptEvent savedReceipt WebsocketEventPostRead;
            do_ UpdateReadReceiptSummaryAsync
                  (PostReadReceipt.ChannelId savedReceipt)
                  (PostReadReceipt.PostId savedReceipt);
            ret savedReceipt
        end.

(** The loop of [SaveReadReceiptBatch], step 4.  [channelIds] caches the
    channels already found eligible. *)
Fixpoint validate_posts (userId : string) (batch : PostReadReceiptBatch.t)
    (posts : list Post.t) (channelIds : gmap string bool)
    (validatedReceipts : list PostReadReceipt.t)
    : M AppError.t (list PostReadReceipt.t) :=
  match posts with
  | [] => ret validatedReceipts
  | post :: rest =>
      do checked <-
        (if negb (default false (channelIds !! Post.ChannelId post)) then
           do channel <- attempt (GetChannel (Post.ChannelId post));
           match channel with
           | Err _ => ret None
           | Ok channel =>
               do cfg <- gets Config;
               if negb (allowedChannelType cfg channel) then ret None
               else ret (Some (<[Post.ChannelId post := true]> channelIds))
           end
         else ret (Some channelIds));
      match checked with
      | None => validate_posts userId batch rest channelIds validatedReceipts
      | Some channelIds =>
          let receipt := PostReadReceipt.mk (Post.Id post) userId (Post.ChannelId post)
                           (PostReadReceiptBatch.ReadAt batch) 0
                           (PostReadReceiptBatch.DeviceId batch)
                           (DetectDeviceType (PostReadReceiptBatch.DeviceId batch)) "" in
          validate_posts userId batch rest channelIds
            (match IsValid receipt with
             | None => validatedReceipts ++ [receipt]
             | Some _ => validatedReceipts
             end)
      end
  end.

(** The store is handed [batch], the caller is handed [validatedReceipts]. *)
Definition SaveReadReceiptBatch (userId : string) (batchRequest : ReadReceiptBatchRequest.t)
    : M AppError.t (list PostReadReceipt.t) :=
  do cfg <- gets Config;
  if negb (EnableReadReceipts cfg) then
    throw (NewAppError "SaveReadReceiptBatch" "app.post.read_receipt.disabled.app_error"
             "" StatusNotImplemented)
  else
    do userSettings <- GetUserReadReceiptSettings userId;
    if decide (UserReadReceiptSettings.ReceiptMode userSettings = ReadReceiptModeDisabled)
    then
      throw (NewAppError "SaveReadReceiptBatch"
               "app.post.read_receipt.user_disabled.app_error" "" StatusForbidden)
    else
      do readAt <- (if ReadReceiptBatchRequest.ReadAt batchRequest =? 0 then GetMillis
                    else ret (ReadReceiptBatchRequest.ReadAt batchRequest));
      let batch := PostReadReceiptBatch.mk (ReadReceiptBatchRequest.PostIds batchRequest)
                     userId (ReadReceiptBatchRequest.ChannelId batchRequest) readAt
                     (ReadReceiptBatchRequest.DeviceId batchRequest) in
      do posts <- GetPostsByIds (PostReadReceiptBatch.PostIds batch);
      do validatedReceipts <- validate_posts userId batch posts ∅ [];
      do_ from_store "SaveReadReceiptBatch" "app.post.read_receipt.batch_save.app_error"
            (Store.SaveReadReceiptBatch batch);
      do_ PublishReadReceiptBatchEvent validatedReceipts WebsocketEventPostReadBatch;
      ret validatedReceipts.

(** [validatedReceipts] after the loop has looked at [receipt]. *)
Definition appended (receipt : PostReadReceipt.t) (acc : list PostReadReceipt.t)
    : list PostReadReceipt.t :=
  match IsValid receipt with
  | None => acc ++ [receipt]
  | Some _ => acc
  end.

(** [ReadReceiptRequest.IsValid], on the request's [PostId]. *)
Definition ReadReceiptRequest_IsValid (postId : string) : option AppError.t :=
  if negb (IsValidId postId) then
    Some (NewAppError "ReadReceiptRequest.IsValid"
            "model.read_receipt_request.is_valid.post_id.app_error" "" StatusBadRequest)
  else None.

(** The loop of [ReadReceiptBatchRequest.IsValid] over the post ids. *)
Fixpoint first_invalid_id (postIds : list string) : bool :=
  match postIds with
  | [] => false
  | postId :: rest => if negb (IsValidId postId) then true else first_invalid_id rest
  end.

Definition ReadReceiptBatchRequest_IsValid (r : ReadReceiptBatchRequest.t)
    : option AppError.t :=
  if decide (length (ReadReceiptBatchRequest.PostIds r) = 0%nat) then
    Some (NewAppError "ReadReceiptBatchRequest.IsValid"
            "model.read_receipt_batch_request.is_valid.post_ids.app_error" ""
            StatusBadRequest)
  else if bool_decide (Z.of_nat (length (ReadReceiptBatchRequest.PostIds r))
                       > ReadReceiptMaxBatchSize) then
    Some (NewAppError "ReadReceiptBatchRequest.IsValid"
            "model.read_receipt_batch_request.is_valid.batch_size.app_error" ""
            StatusBadRequest)
  else if first_invalid_id (ReadReceiptBatchRequest.PostIds r) then
    Some (NewAppError "ReadReceiptBatchRequest.IsValid"
            "model.read_receipt_batch_request.is_valid.post_id.app_error" ""
            StatusBadRequest)
  else if bool_decide (ReadReceiptBatchRequest.ChannelId r ≠ "")
          && negb (IsValidId (ReadReceiptBatchRequest.ChannelId r)) then
    Some (NewAppError "ReadReceiptBatchRequest.IsValid"
            "model.read_receipt_batch_request.is_valid.channel_id.app_error" ""
            StatusBadRequest)
  else None.

End Validation.

(** * Vocabulary of the properties *)

(** Exposing the state passing behind the monad. *)
Ltac unfold_monad :=
  unfold GetMillis in *;
  unfold bind, ret, throw, gets, modify, attempt, from_store in *.

(** Closed goals over the scenarios are settled by evaluation. *)
Ltac by_computation :=
  first [ vm_compute; reflexivity
        | match goal with
          | |- ?P => apply (@bool_decide_unpack P _); vm_compute; exact I
          end ].

(** The tape of a connection, when every statement still to come goes
    through. *)
Definition reliable (tape : list bool) : Prop := Forall (λ fault, fault = false) tape.

Global Instance reliable_dec tape : Decision (reliable tape).
Proof. unfold reliable. apply _. Defined.

(** What [PreSave] makes of a receipt when the clock reads [now]. *)
Definition presaved (now : Z) (r : PostReadReceipt.t) : PostReadReceipt.t :=
  PostReadReceipt.mk (PostReadReceipt.PostId r) (PostReadReceipt.UserId r)
    (PostReadReceipt.ChannelId r)
    (if PostReadReceipt.ReadAt r =? 0 then now else PostReadReceipt.ReadAt r)
    (if PostReadReceipt.CreateAt r =? 0 then now else PostReadReceipt.CreateAt r)
    (PostReadReceipt.DeviceId r)
    (if decide (PostReadReceipt.DeviceType r = "") then DeviceTypeUnknown
     else PostReadReceipt.DeviceType r)
    (PostReadReceipt.SessionId r).

(** The settings [GetUserReadReceiptSettings] computes for a user. *)
Definition settings_of (w : World) (userId : string) : UserReadReceiptSettings.t :=
  foldl apply_preference
    (UserReadReceiptSettings.mk (ReadReceiptsDefaultSetting (Config w))
       ReadReceiptVisibilityAll)
    (default [] (Preferences (db w) !! userId)).

(** What [GetReadReceiptInfoForPost] hands back, in terms of the store's
    answer. *)
Definition narrowed (viewer : string) (info : PostReadReceiptInfo.t) : PostReadReceiptInfo.t :=
  let own := filter (λ r, PostReadReceipt.UserId r = viewer)
               (PostReadReceiptInfo.ReadReceipts info) in
  PostReadReceiptInfo.mk
    (PostReadReceiptInfo.PostId info) (PostReadReceiptInfo.ChannelId info)
    own
    (PostReadReceiptInfo.UnreadUsers info) (PostReadReceiptInfo.TotalUsers info)
    (Z.of_nat (length own))
    (PostReadReceiptInfo.LastRead info) (PostReadReceiptInfo.FirstRead info)
    (PostReadReceiptInfo.PartiallyRead info) (PostReadReceiptInfo.AllRead info).

(** A summary row with [LastUpdated] set to [now] and nothing else changed. *)
Definition touched (now : Z) (row : SummaryRow.t) : SummaryRow.t :=
  SummaryRow.mk (SummaryRow.ChannelId row) (SummaryRow.ReadCount row)
    (SummaryRow.TotalRecipients row) now
    (SummaryRow.FirstReadAt row) (SummaryRow.LastReadAt row).

(** Whether read receipts may be kept for the channel of a post. *)
Definition eligible_channel (w : World) (channelId : string) : bool :=
  match Channels (db w) !! channelId with
  | Some ty => allowedChannelType (Config w) (Channel.mk channelId ty)
  | None => false
  end.

(** The receipt the loop builds for a post, and the list it is added to. *)
Definition batch_receipt (userId : string) (batch : PostReadReceiptBatch.t) (post : Post.t)
    : PostReadReceipt.t :=
  PostReadReceipt.mk (Post.Id post) userId (Post.ChannelId post)
    (PostReadReceiptBatch.ReadAt batch) 0 (PostReadReceiptBatch.DeviceId batch)
    (DetectDeviceType (PostReadReceiptBatch.DeviceId batch)) "".

(** The receipt synthesized for a member and a post. *)
Definition backfill_receipt (channelId : string) (member : ChannelMember.t) (post : Post.t)
    : PostReadReceipt.t :=
  PostReadReceipt.mk (Post.Id post) (ChannelMember.UserId member) channelId
    (ChannelMember.LastViewedAt member) 0 "backfill" "backfill" "".

(** When a receipt is synthesized for a member with a recorded view time:
    the post is not newer than the member's last view, it is not the
    member's own, and the pair has no receipt yet. *)
Definition should_backfill (t : gmap (string * string) ReceiptRow.t)
    (member : ChannelMember.t) (post : Post.t) : Prop :=
  Post.CreateAt post ≤ ChannelMember.LastViewedAt member ∧
  Post.UserId post ≠ ChannelMember.UserId member ∧
  t !! (Post.Id post, ChannelMember.UserId member) = None.

Global Instance should_backfill_dec t member post : Decision (should_backfill t member post).
Proof. unfold should_backfill. apply _. Defined.

(** The receipts to create for one member, in the order of the posts. *)
Definition member_receipts (t : gmap (string * string) ReceiptRow.t) (channelId : string)
    (posts : list Post.t) (member : ChannelMember.t) : list PostReadReceipt.t :=
  if decide (ChannelMember.LastViewedAt member = 0) then []
  else backfill_receipt channelId member <$> filter (should_backfill t member) posts.

(** The table after the saves of step 6, given the outcomes of the statements
    sent to the master. *)
Fixpoint saved (now : Z) (receipts : list PostReadReceipt.t) (tape : list bool)
    (t : gmap (string * string) ReceiptRow.t) : gmap (string * string) ReceiptRow.t :=
  match receipts with
  | [] => t
  | r :: rest =>
      saved now rest (next_outcome tape).2
        (if (next_outcome tape).1 then t else Store.upsert_receipt (presaved now r) t)
  end.

(** The row a fresh key gets from a receipt. *)
Definition row_of (s : PostReadReceipt.t) : ReceiptRow.t :=
  ReceiptRow.mk (PostReadReceipt.ChannelId s) (PostReadReceipt.ReadAt s)
    (PostReadReceipt.CreateAt s) (PostReadReceipt.DeviceId s)
    (PostReadReceipt.DeviceType s) (PostReadReceipt.SessionId s).

(** A receipt is stored in a table when its key holds the row it was read
    from. *)
Definition stored (t : gmap (string * string) ReceiptRow.t) (r : PostReadReceipt.t) : Prop :=
  ∃ row, t !! Store.receipt_key r = Some row ∧
         r = Store.receipt_of_row (Store.receipt_key r) row.

(** A summary is stored in a table when its post holds the row it was read
    from. *)
Definition summarized (t : gmap string SummaryRow.t) (s : PostReadReceiptSummary.t) : Prop :=
  ∃ row, t !! PostReadReceiptSummary.PostId s = Some row ∧
         s = Store.summary_of_row (PostReadReceiptSummary.PostId s) row.

(** A call is refused when it returns an error of the given status and
    leaves the world as it was. *)
Definition refused {A} (m : M AppError.t A) (w : World) (status : Z) : Prop :=
  ∃ e, m w = (Err e, w) ∧ AppError.StatusCode e = status.

(** The posts [GetUnreadPostsCount] counts. *)
Definition unread_post (d : Db) (channelID userID : string) (since : Z)
    (kv : string * PostRow.t) : Prop :=
  PostRow.ChannelId kv.2 = channelID ∧ since ≤ PostRow.CreateAt kv.2 ∧
  PostReadReceipts d !! (kv.1, userID) = None.

Global Instance unread_post_dec d channelID userID since kv :
  Decision (unread_post d channelID userID since kv).
Proof. unfold unread_post. apply _. Defined.

(** All the members of a channel, in the order the membership resolver
    lists them. *)
Definition channel_members (d : Db) (channelId : string) : list ChannelMember.t :=
  (λ m, ChannelMember.mk channelId m.1 m.2)
    <$> map_to_list (default ∅ (ChannelMembers d !! channelId)).

(** * Scenarios *)

(** The summary [SummaryAggregator.refresh] is described to produce: counts
    and bounds recomputed from the receipts and the members of the channel,
    stamped with the clock, and stored. *)
Definition refresh_recomputes (w : World) (channelId postId : string) : Prop :=
  ∀ w', UpdateReadReceiptSummaryAsync channelId postId w = (Ok tt, w') →
    let receipts := Store.select_for_post postId (PostReadReceipts (db w)) in
    ∃ row, PostReadReceiptSummary (db w') !! postId = Some row ∧
      SummaryRow.ReadCount row = Z.of_nat (length receipts) ∧
      SummaryRow.TotalRecipients row
        = Z.of_nat (size (default ∅ (ChannelMembers (db w) !! channelId))) ∧
      SummaryRow.FirstReadAt row = from_option PostReadReceipt.ReadAt 0 (last receipts) ∧
      SummaryRow.LastReadAt row = from_option PostReadReceipt.ReadAt 0 (head receipts) ∧
      SummaryRow.LastUpdated row = millis w.

(** The invariant of [getInfo], read on the returned struct. *)
Definition flags_match_ReadCount (info : PostReadReceiptInfo.t) : Prop :=
  PostReadReceiptInfo.AllRead info
    = bool_decide (PostReadReceiptInfo.TotalUsers info ≤ PostReadReceiptInfo.ReadCount info) ∧
  PostReadReceiptInfo.PartiallyRead info
    = bool_decide (0 < PostReadReceiptInfo.ReadCount info
                   ∧ PostReadReceiptInfo.ReadCount info < PostReadReceiptInfo.TotalUsers info).

(** Identifiers of the scenarios, and a stand-in for [model.IsValidId]. *)
Definition id26 (s : string) : bool := bool_decide (String.length s = 26%nat).

Definition alice := "useralice00000000000000001".
Definition bob := "userbob0000000000000000002".
Definition carol := "usercarol00000000000000003".
Definition dave := "userdave000000000000000004".
Definition erin := "usererin000000000000000005".
Definition post1 := "post0000000000000000000001".
Definition post2 := "post0000000000000000000002".
Definition post3 := "post0000000000000000000003".
Definition dm := "channeldirect0000000000001".
Definition gm := "channelgroup00000000000002".
Definition town_square := "channelopen000000000000003".

Definition settings0 : ServiceSettings :=
  mkServiceSettings true false ReadReceiptModeEnabled true.

(** A direct-message channel between alice and bob with two posts of bob's,
    one before and one after alice last looked; a third post of bob's in an
    open channel.  No receipt yet. *)
Definition db0 : Db :=
  mkDb (list_to_map [(post1, PostRow.mk dm bob 400); (post2, PostRow.mk dm bob 600);
                     (post3, PostRow.mk town_square bob 300)])
       (list_to_map [(dm, ChannelTypeDirect); (town_square, ChannelTypeOpen)])
       (list_to_map [(dm, list_to_map [(alice, 500); (bob, 0)])])
       ∅ ∅ ∅ [].

Definition world0 : World := mkWorld settings0 5000 0 db0 [] [] [].

(** The same, with the first statement sent to the master failing. *)
Definition world_flaky : World := mkWorld settings0 5000 0 db0 [true] [] [].

(** Both alice and bob have read [post1]; alice does not show others'
    receipts. *)
Definition db_private : Db :=
  mkDb (Posts db0) (Channels db0) (ChannelMembers db0)
       (list_to_map [(alice, [Preference.mk PreferenceCategoryReadReceipts
                                "show_others_receipts" ReadReceiptVisibilityNone])])
       (list_to_map [((post1, alice), ReceiptRow.mk dm 1000 1000 "" DeviceTypeUnknown "");
                     ((post1, bob), ReceiptRow.mk dm 2000 2000 "" DeviceTypeUnknown "")])
       ∅ [].

Definition world_private : World := mkWorld settings0 5000 0 db_private [] [] [].

(** What alice is told about [post1] there. *)
Definition info_private_alice : PostReadReceiptInfo.t :=
  PostReadReceiptInfo.mk post1 dm
    [PostReadReceipt.mk post1 alice dm 1000 1000 "" DeviceTypeUnknown ""]
    [] 2 1 2000 1000 false true.

(** A group channel of five; two of them have read [post1].  The stored
    summary dates from the first receipt. *)
Definition db_group : Db :=
  mkDb (list_to_map [(post1, PostRow.mk gm erin 900)])
       (list_to_map [(gm, ChannelTypeGroup)])
       (list_to_map [(gm, list_to_map [(alice, 0); (bob, 0); (carol, 0); (dave, 0); (erin, 0)])])
       ∅
       (list_to_map [((post1, alice), ReceiptRow.mk gm 1000 1000 "" DeviceTypeUnknown "");
                     ((post1, bob), ReceiptRow.mk gm 2000 2000 "" DeviceTypeUnknown "")])
       (list_to_map [(post1, SummaryRow.mk gm 1 5 1500 1000 1000)])
       [].

Definition world_group : World := mkWorld settings0 5000 0 db_group [] [] [].

(** The same without a stored summary. *)
Definition world_group_fresh : World :=
  mkWorld settings0 5000 0 (set_PostReadReceiptSummary ∅ db_group) [] [] [].

Definition receipt_1000 : PostReadReceipt.t :=
  PostReadReceipt.mk post1 alice dm 1000 0 "" "" "".

Definition receipt_2000 : PostReadReceipt.t :=
  PostReadReceipt.mk post1 alice dm 2000 0 "phone" DeviceTypeMobile "".

Definition batch_of_three : ReadReceiptBatchRequest.t :=
  ReadReceiptBatchRequest.mk [post1; post2; post3] dm 1000 "".

(** The receipts of [world_private], as the store reads them. *)
Definition receipt_alice : PostReadReceipt.t :=
  PostReadReceipt.mk post1 alice dm 1000 1000 "" DeviceTypeUnknown "".

Definition receipt_bob : PostReadReceipt.t :=
  PostReadReceipt.mk post1 bob dm 2000 2000 "" DeviceTypeUnknown "".

(** What the store reports about [post1] there. *)
Definition info_private : PostReadReceiptInfo.t :=
  PostReadReceiptInfo.mk post1 dm [receipt_bob; receipt_alice] [] 2 2 2000 1000 false true.

(** The feature switched off. *)
Definition world_off : World :=
  mkWorld (mkServiceSettings false false ReadReceiptModeEnabled true) 5000 0 db0 [] [] [].

(** The second statement sent to the master fails. *)
Definition world_unlogged : World :=
  mkWorld settings0 5000 0 db_private [false; true] [] [].

(** Two entries of alice's in the audit log, one of bob's. *)
Definition audit_alice_early : ReadReceiptAuditLog.t :=
  ReadReceiptAuditLog.mk "a1" alice post1 ReadReceiptActionRead [] 1000.

Definition audit_alice_late : ReadReceiptAuditLog.t :=
  ReadReceiptAuditLog.mk "a3" alice post2 ReadReceiptActionGhostRead [] 3000.

Definition world_logged : World :=
  mkWorld settings0 5000 0
    (set_ReadReceiptAuditLogs
       [audit_alice_early;
        ReadReceiptAuditLog.mk "a2" bob post1 ReadReceiptActionRead [] 2000;
        audit_alice_late]
       db_private) [] [] [].

(** A batch of alice's from a phone: [post1], which she has read, and
    [post2]. *)
Definition batch_from_phone : PostReadReceiptBatch.t :=
  PostReadReceiptBatch.mk [post1; post2] alice dm 3000 "phone-mobile".

(** A summary of [post1] filed under another channel than the stored one. *)
Definition summary_refiled : PostReadReceiptSummary.t :=
  PostReadReceiptSummary.mk post1 dm 2 5 5000 1000 2000.

(** The direct-message channel with a receipt of alice's for [post1], read
    at 450 on her phone; the first query sent to the replica fails. *)
Definition db_read : Db :=
  set_PostReadReceipts
    (list_to_map [((post1, alice), ReceiptRow.mk dm 450 450 "phone" DeviceTypeMobile "")]) db0.

Definition world_lookup_fails : World := mkWorld settings0 5000 0 db_read [] [true] [].

(** A group channel of 201 members who all looked at 500, and a post of
    somebody else's created at 400. *)
Definition crowd : list string := (λ i : nat, "member" +:+ pretty i) <$> seq 0 201.

Definition db_crowd : Db :=
  mkDb (list_to_map [(post1, PostRow.mk gm erin 400)])
       (list_to_map [(gm, ChannelTypeGroup)])
       (list_to_map [(gm, list_to_map ((λ u, (u, 500)) <$> crowd))])
       ∅ ∅ ∅ [].

Definition world_crowd : World := mkWorld settings0 5000 0 db_crowd [] [] [].

(** * Properties *)

(** ** Reasoning about the monad *)

Lemma bind_Ok {E A B} (m : M E A) (k : A → M E B) w b w' :
  bind m k w = (Ok b, w') → ∃ a w1, m w = (Ok a, w1) ∧ k a w1 = (Ok b, w').
Proof.
  unfold bind. destruct (m w) as [[a|e] w1]; intros H; [eauto | discriminate].
Qed.

Lemma next_outcome_reliable tape :
  reliable tape → ∃ rest, next_outcome tape = (false, rest) ∧ reliable rest.
Proof.
  destruct 1 as [|b rest Hb Hrest]; simpl.
  - exists []. split; [done | constructor].
  - subst b. eauto.
Qed.

(** The collaborators only read. *)
Lemma GetSinglePost_reads postId w :
  (GetSinglePost postId w).2 = w.
Proof. unfold GetSinglePost. unfold_monad. by destruct (Posts (db w) !! postId). Qed.

Lemma GetChannel_reads channelId w :
  (GetChannel channelId w).2 = w.
Proof. unfold GetChannel. unfold_monad. by destruct (Channels (db w) !! channelId). Qed.

Lemma GetUserReadReceiptSettings_total userId w :
  GetUserReadReceiptSettings userId w =
  (Ok (foldl apply_preference
         (UserReadReceiptSettings.mk (ReadReceiptsDefaultSetting (Config w))
            ReadReceiptVisibilityAll)
         (default [] (Preferences (db w) !! userId))), w).
Proof. reflexivity. Qed.

Section ValidationProperties.

Variable IsValidId : string → bool.

(** A receipt that has not been through [PreSave] never validates. *)
Lemma IsValid_CreateAt_zero r :
  PostReadReceipt.CreateAt r = 0 → is_Some (IsValid IsValidId r).
Proof.
  intros Hc. unfold IsValid. rewrite Hc. simpl.
  repeat case_match; eauto.
Qed.

(** C1 (the code departs from the claim).  [SaveReadReceiptForPost] builds
    the receipt without [CreateAt] and validates it before the store's
    [PreSave] fills the field in: whatever the configuration, the post,
    the channel, the user and the arguments, the call returns an error and
    leaves the world as it was.  No receipt is ever returned or stored. *)
Theorem C1_SaveReadReceiptForPost_never_succeeds
    (w : World) (userId postId : string) (readAt : Z) (deviceId : string) :
  ∃ e, SaveReadReceiptForPost IsValidId userId postId readAt deviceId w = (Err e, w).
Proof.
  unfold SaveReadReceiptForPost.
  unfold bind at 1. unfold gets at 1.
  destruct (EnableReadReceipts (Config w)); simpl; [| by eexists].
  unfold bind at 1.
  pose proof (GetSinglePost_reads postId w) as Hp.
  destruct (GetSinglePost postId w) as [[post|e] w1]; simpl in Hp; subst w1;
    [| by eexists].
  unfold bind at 1.
  pose proof (GetChannel_reads (Post.ChannelId post) w) as Hc.
  destruct (GetChannel (Post.ChannelId post) w) as [[channel|e] w1]; simpl in Hc; subst w1;
    [| by eexists].
  destruct (allowedChannelType (Config w) channel); simpl; [| by eexists].
  unfold bind at 1. rewrite GetUserReadReceiptSettings_total.
  case_decide; [by eexists |].
  match goal with |- context [IsValid IsValidId ?r] =>
    destruct (IsValid_CreateAt_zero r eq_refl) as [e ->] end.
  by eexists.
Qed.

End ValidationProperties.

(** ** Rows of a keyed table *)

Lemma filter_fmap_comm {A B} (f : A → B) (P : B → Prop) `{∀ x, Decision (P x)}
    (l : list A) :
  filter P (f <$> l) = f <$> filter (λ x, P (f x)) l.
Proof.
  induction l as [|x l IH]; [done |].
  rewrite fmap_cons, !filter_cons. destruct (decide (P (f x))); simpl; by rewrite IH.
Qed.

Lemma filter_key_absent {K V} `{EqDecision K} (l : list (K * V)) (k : K) :
  k ∉ l.*1 → filter (λ kv, kv.1 = k) l = [].
Proof.
  induction l as [|[k' v'] l IH]; [done |].
  rewrite fmap_cons, not_elem_of_cons. intros [Hne Hl]. simpl in Hne.
  rewrite filter_cons. destruct (decide ((k', v').1 = k)) as [Heq|_]; [by simpl in Heq | auto].
Qed.

Lemma filter_key_singleton {K V} `{EqDecision K} (l : list (K * V)) (k : K) (v : V) :
  NoDup l.*1 → (k, v) ∈ l → filter (λ kv, kv.1 = k) l = [(k, v)].
Proof.
  induction l as [|[k' v'] l IH]; intros Hnd Hin; [by apply elem_of_nil in Hin |].
  rewrite fmap_cons in Hnd. apply NoDup_cons in Hnd as [Hk' Hnd]. simpl in Hk'.
  rewrite filter_cons. apply elem_of_cons in Hin as [Heq|Hin].
  - injection Heq as <- <-. rewrite decide_True by done.
    by rewrite filter_key_absent.
  - destruct (decide ((k', v').1 = k)) as [Heq|_]; [| by apply IH].
    simpl in Heq. subst k'. exfalso. apply Hk'.
    apply list_elem_of_fmap. by exists (k, v).
Qed.

Lemma filter_key_length {K V} `{EqDecision K} (l : list (K * V)) (k : K) :
  NoDup l.*1 → (length (filter (λ kv, kv.1 = k) l) ≤ 1)%nat.
Proof.
  intros Hnd. destruct (decide (k ∈ l.*1)) as [Hin|Hout].
  - apply list_elem_of_fmap in Hin as [[k' v] [-> Hin]].
    by rewrite (filter_key_singleton l _ v).
  - rewrite filter_key_absent by done. simpl. lia.
Qed.

Lemma receipt_key_of_row k row : Store.receipt_key (Store.receipt_of_row k row) = k.
Proof. by destruct k. Qed.

(** Selecting a key of [PostReadReceipts] yields the one row stored there. *)
Lemma receipts_of_key (t : gmap (string * string) ReceiptRow.t) k row :
  t !! k = Some row →
  filter (λ r, Store.receipt_key r = k) (Store.receipts_of t) = [Store.receipt_of_row k row].
Proof.
  intros Hk. unfold Store.receipts_of. rewrite filter_fmap_comm.
  rewrite (list_filter_iff _ (λ kv, kv.1 = k)).
  - rewrite (filter_key_singleton _ k row); [done | apply NoDup_fst_map_to_list |].
    by apply elem_of_map_to_list.
  - intros [k' v']. by rewrite receipt_key_of_row.
Qed.

(** ** The store's upsert *)

Lemma PreSave_run {E} (r : PostReadReceipt.t) (w : World) :
  @PreSave E r w = (Ok (presaved (millis w) r), w).
Proof.
  unfold PreSave, presaved. unfold_monad.
  by destruct (PostReadReceipt.CreateAt r =? 0), (PostReadReceipt.ReadAt r =? 0).
Qed.

Lemma SaveReadReceipt_Ok r w s w' :
  Store.SaveReadReceipt r w = (Ok s, w') →
  s = presaved (millis w) r ∧
  db w' = set_PostReadReceipts (Store.upsert_receipt s (PostReadReceipts (db w))) (db w) ∧
  millis w' = millis w.
Proof.
  unfold Store.SaveReadReceipt. intros H.
  apply bind_Ok in H as (s' & w1 & Hpre & H).
  rewrite PreSave_run in Hpre. injection Hpre as <- <-.
  apply bind_Ok in H as ([] & w2 & Hexec & H).
  unfold GetMaster_Exec in Hexec.
  destruct (next_outcome (master_faults w)) as [[] rest]; [discriminate |].
  injection Hexec as <-.
  unfold_monad. by injection H as <- <-.
Qed.

Lemma SaveReadReceipt_Err r w e w' :
  Store.SaveReadReceipt r w = (Err e, w') → db w' = db w ∧ millis w' = millis w.
Proof.
  unfold Store.SaveReadReceipt. unfold bind at 1. rewrite PreSave_run.
  unfold bind at 1. unfold GetMaster_Exec.
  destruct (next_outcome (master_faults w)) as [[] rest].
  - by intros [= <- <-].
  - unfold_monad. discriminate.
Qed.

Lemma upsert_receipt_lookup s t :
  ∃ row, Store.upsert_receipt s t !! Store.receipt_key s = Some row ∧
    ReceiptRow.ReadAt row = PostReadReceipt.ReadAt s ∧
    ReceiptRow.CreateAt row = PostReadReceipt.CreateAt s ∧
    ReceiptRow.DeviceId row = PostReadReceipt.DeviceId s ∧
    ReceiptRow.DeviceType row = PostReadReceipt.DeviceType s ∧
    ReceiptRow.SessionId row = PostReadReceipt.SessionId s ∧
    ReceiptRow.ChannelId row =
      from_option ReceiptRow.ChannelId (PostReadReceipt.ChannelId s)
        (t !! Store.receipt_key s).
Proof.
  unfold Store.upsert_receipt. eexists. split; [apply lookup_insert_eq |].
  simpl. by repeat split.
Qed.

Lemma upsert_receipt_size_present s t :
  is_Some (t !! Store.receipt_key s) → size (Store.upsert_receipt s t) = size t.
Proof.
  intros Hold. unfold Store.upsert_receipt. by apply map_size_insert_Some.
Qed.

(** C2.  Two [SaveReadReceipt] calls with the same [(PostId, UserId)]: the
    second overwrites [ReadAt], [CreateAt] and the device columns of the row
    the first one left instead of adding a row.  The table then holds
    exactly one receipt for the key, it carries the [ReadAt] of the second
    write (the clock's reading when that write came with [ReadAt = 0]), and
    the table is as large as after the first call. *)
Theorem C2_SaveReadReceipt_overwrites_same_key
    (w w1 w2 : World) (r1 r2 s1 s2 : PostReadReceipt.t) :
  Store.receipt_key r1 = Store.receipt_key r2 →
  Store.SaveReadReceipt r1 w = (Ok s1, w1) →
  Store.SaveReadReceipt r2 w1 = (Ok s2, w2) →
  ∃ stored,
    filter (λ r, Store.receipt_key r = Store.receipt_key r2)
      (Store.receipts_of (PostReadReceipts (db w2))) = [stored] ∧
    PostReadReceipt.ReadAt stored = PostReadReceipt.ReadAt s2 ∧
    PostReadReceipt.ReadAt s2 =
      (if PostReadReceipt.ReadAt r2 =? 0 then millis w1 else PostReadReceipt.ReadAt r2) ∧
    PostReadReceipt.CreateAt stored = PostReadReceipt.CreateAt s2 ∧
    PostReadReceipt.DeviceId stored = PostReadReceipt.DeviceId s2 ∧
    PostReadReceipt.DeviceType stored = PostReadReceipt.DeviceType s2 ∧
    PostReadReceipt.SessionId stored = PostReadReceipt.SessionId s2 ∧
    size (PostReadReceipts (db w2)) = size (PostReadReceipts (db w1)).
Proof.
  intros Hkey H1 H2.
  apply SaveReadReceipt_Ok in H1 as (Hs1 & Hdb1 & _).
  apply SaveReadReceipt_Ok in H2 as (Hs2 & Hdb2 & _).
  assert (Hk1 : Store.receipt_key s1 = Store.receipt_key r2)
    by (by rewrite <- Hkey, Hs1).
  assert (Hk2 : Store.receipt_key s2 = Store.receipt_key r2) by (by rewrite Hs2).
  rewrite Hdb2, Hdb1. simpl.
  destruct (upsert_receipt_lookup s1 (PostReadReceipts (db w))) as (row1 & Hrow1 & _).
  destruct (upsert_receipt_lookup s2 (Store.upsert_receipt s1 (PostReadReceipts (db w))))
    as (row2 & Hrow2 & Hr & Hc & Hd & Ht & Hs & _).
  rewrite Hk2 in Hrow2.
  exists (Store.receipt_of_row (Store.receipt_key r2) row2).
  split; [by apply receipts_of_key |].
  simpl. repeat split; try done.
  { by rewrite Hs2. }
  apply upsert_receipt_size_present. rewrite Hk2, <- Hk1. eauto.
Qed.

(** ** Reading: [GetReadReceiptInfo] and the privacy filter *)

Lemma GetUserReadReceiptSettings_run userId w :
  GetUserReadReceiptSettings userId w = (Ok (settings_of w userId), w).
Proof. reflexivity. Qed.

Lemma GetReplica_Query_run wrap w r w' :
  GetReplica_Query wrap w = (r, w') →
  db w' = db w ∧ Config w' = Config w ∧ millis w' = millis w ∧
  master_faults w' = master_faults w.
Proof.
  unfold GetReplica_Query.
  destruct (next_outcome (replica_faults w)) as [[] rest]; by intros [= <- <-].
Qed.

Lemma GetReplica_Query_Ok wrap w w' :
  GetReplica_Query wrap w = (Ok tt, w') →
  db w' = db w ∧ Config w' = Config w.
Proof. intros H. apply GetReplica_Query_run in H. tauto. Qed.

Lemma GetReadReceiptsForPost_Ok postID inc w receipts w' :
  Store.GetReadReceiptsForPost postID inc w = (Ok receipts, w') →
  db w' = db w ∧ Config w' = Config w ∧
  receipts = Store.select_for_post postID (PostReadReceipts (db w)).
Proof.
  unfold Store.GetReadReceiptsForPost. intros H.
  apply bind_Ok in H as ([] & w1 & Hq & H).
  apply GetReplica_Query_Ok in Hq as [Hdb Hcfg].
  unfold_monad. injection H as <- <-. by rewrite Hdb.
Qed.

Lemma GetReadReceiptInfo_Ok postID w info w' :
  Store.GetReadReceiptInfo postID w = (Ok info, w') →
  db w' = db w ∧ Config w' = Config w ∧
  ∃ post, Posts (db w) !! postID = Some post ∧
    let receipts := Store.select_for_post postID (PostReadReceipts (db w)) in
    let totalUsers :=
      Z.of_nat (size (default ∅ (ChannelMembers (db w) !! PostRow.ChannelId post))) in
    let readCount := Z.of_nat (length receipts) in
    info = PostReadReceiptInfo.mk postID (PostRow.ChannelId post) receipts []
             totalUsers readCount
             (from_option PostReadReceipt.ReadAt 0 (head receipts))
             (from_option PostReadReceipt.ReadAt 0 (last receipts))
             (bool_decide (0 < readCount) && bool_decide (readCount < totalUsers))
             (bool_decide (totalUsers ≤ readCount)).
Proof.
  unfold Store.GetReadReceiptInfo. intros H.
  apply bind_Ok in H as (receipts & w1 & Hr & H).
  apply GetReadReceiptsForPost_Ok in Hr as (Hdb1 & Hcfg1 & ->).
  apply bind_Ok in H as ([] & w2 & Hq & H).
  apply GetReplica_Query_Ok in Hq as [Hdb2 Hcfg2].
  apply bind_Ok in H as (d & w3 & Hd & H).
  unfold gets in Hd. injection Hd as <- <-.
  rewrite Hdb2, Hdb1 in H.
  destruct (Posts (db w) !! postID) as [post|] eqn:Hpost; [| discriminate].
  apply bind_Ok in H as ([] & w4 & Hq & H).
  apply GetReplica_Query_Ok in Hq as [Hdb4 Hcfg4].
  unfold ret in H. injection H as <- <-.
  repeat split; [congruence | congruence |].
  by exists post.
Qed.

Lemma filteredReceipts_filter viewer receipts acc :
  filteredReceipts viewer receipts acc
  = acc ++ filter (λ r, PostReadReceipt.UserId r = viewer) receipts.
Proof.
  revert acc. induction receipts as [|r rest IH]; intros acc; simpl.
  - by rewrite app_nil_r.
  - rewrite filter_cons. destruct (decide (PostReadReceipt.UserId r = viewer));
      rewrite IH; [by rewrite <- app_assoc | done].
Qed.

Lemma GetReadReceiptInfoForPost_Ok postId viewer inc w info w' :
  GetReadReceiptInfoForPost postId viewer inc w = (Ok info, w') →
  EnableReadReceipts (Config w) = true ∧
  ∃ unfiltered,
    Store.GetReadReceiptInfo postId w = (Ok unfiltered, w') ∧
    info = if decide (UserReadReceiptSettings.ShowOthersReceipts (settings_of w viewer)
                      = ReadReceiptVisibilityNone)
           then narrowed viewer unfiltered else unfiltered.
Proof.
  unfold GetReadReceiptInfoForPost. intros H.
  apply bind_Ok in H as (cfg & w1 & Hcfg & H).
  unfold gets in Hcfg. injection Hcfg as <- <-.
  destruct (EnableReadReceipts (Config w)); simpl in H; [| discriminate].
  split; [done |].
  apply bind_Ok in H as (st & w1 & Hst & H).
  rewrite GetUserReadReceiptSettings_run in Hst. injection Hst as <- <-.
  apply bind_Ok in H as (unfiltered & w1 & Hinfo & H).
  unfold from_store in Hinfo.
  destruct (Store.GetReadReceiptInfo postId w) as [[i|e] w2]; [| discriminate].
  injection Hinfo as -> ->.
  exists unfiltered.
  destruct (decide _); unfold ret in H; injection H as <- <-; [| done].
  unfold narrowed. by rewrite filteredReceipts_filter.
Qed.

(** [ORDER BY ReadAt DESC] puts the latest read first and the earliest last. *)
Global Instance ReadAt_desc_trans : Transitive Store.ReadAt_desc.
Proof. unfold Store.ReadAt_desc. intros a b c. lia. Qed.

Global Instance ReadAt_desc_total : Total Store.ReadAt_desc.
Proof. unfold Store.ReadAt_desc. intros a b. lia. Qed.

Lemma StronglySorted_head {A} (R : relation A) `{!Reflexive R} (l : list A) x y :
  StronglySorted R l → head l = Some x → y ∈ l → R x y.
Proof.
  destruct 1 as [|z l Hl Hz]; [done |]. simpl. intros [= ->].
  intros [->|Hy]%elem_of_cons; [done |].
  by eapply Forall_forall in Hz.
Qed.

Lemma StronglySorted_last {A} (R : relation A) `{!Reflexive R} (l : list A) x y :
  StronglySorted R l → last l = Some x → y ∈ l → R y x.
Proof.
  induction 1 as [|z l Hl IH Hz]; [done |].
  destruct l as [|z' l'].
  - simpl. intros [= ->] Hy. apply list_elem_of_singleton in Hy. by subst.
  - rewrite last_cons_cons. intros Hlast [->|Hy]%elem_of_cons; [| auto].
    eapply Forall_forall in Hz; [exact Hz |]. by apply last_Some_elem_of.
Qed.

Global Instance ReadAt_desc_refl : Reflexive Store.ReadAt_desc.
Proof. unfold Store.ReadAt_desc. intros a. lia. Qed.

Lemma select_for_post_bounds postID t r :
  let receipts := Store.select_for_post postID t in
  r ∈ receipts →
  from_option PostReadReceipt.ReadAt 0 (last receipts) ≤ PostReadReceipt.ReadAt r
  ∧ PostReadReceipt.ReadAt r ≤ from_option PostReadReceipt.ReadAt 0 (head receipts).
Proof.
  intros receipts Hr.
  assert (Hs : StronglySorted Store.ReadAt_desc receipts)
    by apply (StronglySorted_merge_sort _).
  split.
  - destruct (last receipts) as [x|] eqn:Hlast.
    + simpl. by apply (StronglySorted_last _ _ _ _ Hs Hlast).
    + apply last_None in Hlast. rewrite Hlast in Hr. by apply elem_of_nil in Hr.
  - destruct (head receipts) as [x|] eqn:Hhead.
    + simpl. by apply (StronglySorted_head _ _ _ _ Hs Hhead).
    + apply head_None in Hhead. rewrite Hhead in Hr. by apply elem_of_nil in Hr.
Qed.

(** The receipts of one post hold at most one receipt of a given user. *)
Lemma own_receipts_length (t : gmap (string * string) ReceiptRow.t) postID viewer :
  (length (filter (λ r, PostReadReceipt.UserId r = viewer)
             (Store.select_for_post postID t)) ≤ 1)%nat.
Proof.
  unfold Store.select_for_post.
  rewrite (Permutation_length
             (filter_Permutation _ _ _ (merge_sort_Permutation Store.ReadAt_desc _))).
  rewrite list_filter_filter. unfold Store.receipts_of. rewrite filter_fmap_comm.
  rewrite length_fmap.
  rewrite (list_filter_iff _ (λ kv, kv.1 = (postID, viewer))).
  - apply filter_key_length, NoDup_fst_map_to_list.
  - intros [[p u] row]. simpl. split; [by intros [-> ->] | by intros [= -> ->]].
Qed.

Lemma length_filter_Z {A} (P : A → Prop) `{∀ x, Decision (P x)} (l : list A) :
  0 ≤ Z.of_nat (length (filter P l)) ≤ Z.of_nat (length l).
Proof. pose proof (length_filter P l). lia. Qed.

(** C5 (amended).  The flags of the [PostReadReceiptInfo] that
    [GetReadReceiptInfoForPost] returns follow the number [n] of receipts
    stored for the post: [AllRead] is [n >= TotalUsers] and [PartiallyRead]
    is [0 < n < TotalUsers]; they are never both true, and both false only
    when [n = 0], in which case [ReadCount] is [0] too.  [ReadCount] is [n]
    unless the viewer's visibility is none; then it counts the viewer's own
    receipts, at most one and at most [n], and the flags are not
    recomputed from it. *)
Theorem C5_flags_follow_the_unfiltered_count
    (w w' : World) (postId viewer : string) (inc : bool) (info : PostReadReceiptInfo.t) :
  GetReadReceiptInfoForPost postId viewer inc w = (Ok info, w') →
  let n := Z.of_nat (length (Store.select_for_post postId (PostReadReceipts (db w)))) in
  let total := PostReadReceiptInfo.TotalUsers info in
  PostReadReceiptInfo.AllRead info = bool_decide (total ≤ n) ∧
  PostReadReceiptInfo.PartiallyRead info = bool_decide (0 < n ∧ n < total) ∧
  ¬ (PostReadReceiptInfo.AllRead info = true ∧ PostReadReceiptInfo.PartiallyRead info = true) ∧
  (PostReadReceiptInfo.AllRead info = false →
   PostReadReceiptInfo.PartiallyRead info = false →
   n = 0 ∧ PostReadReceiptInfo.ReadCount info = 0) ∧
  (UserReadReceiptSettings.ShowOthersReceipts (settings_of w viewer)
     ≠ ReadReceiptVisibilityNone →
   PostReadReceiptInfo.ReadCount info = n) ∧
  (UserReadReceiptSettings.ShowOthersReceipts (settings_of w viewer)
     = ReadReceiptVisibilityNone →
   PostReadReceiptInfo.ReadCount info
     = Z.of_nat (length (filter (λ r, PostReadReceipt.UserId r = viewer)
                           (Store.select_for_post postId (PostReadReceipts (db w))))) ∧
   0 ≤ PostReadReceiptInfo.ReadCount info ≤ n ∧
   PostReadReceiptInfo.ReadCount info ≤ 1).
Proof.
  intros H. apply GetReadReceiptInfoForPost_Ok in H as (_ & unfiltered & Hstore & ->).
  apply GetReadReceiptInfo_Ok in Hstore as (_ & _ & post & _ & ->).
  set (receipts := Store.select_for_post postId (PostReadReceipts (db w))).
  set (members := size _).
  assert (Hown := own_receipts_length (PostReadReceipts (db w)) postId viewer).
  assert (Hlen := length_filter_Z (λ r, PostReadReceipt.UserId r = viewer) receipts).
  fold receipts in Hown.
  destruct (decide _) as [Hnone|Hall]; simpl;
    (repeat split; try (intros; congruence); try lia;
     repeat case_bool_decide; simpl; try done; try lia; intros; try lia).
Qed.

(** C6.  With visibility none, the receipts [GetReadReceiptInfoForPost]
    returns are exactly those of the stored receipts of the post whose
    [UserId] is the viewer's: the loop is [filter] on any list, the empty one
    included; on the receipts of one post it leaves none or one; and the
    call leaves every table as it was. *)
Theorem C6_ShowNone_keeps_only_the_viewers_receipts
    (w w' : World) (postId viewer : string) (inc : bool) (info : PostReadReceiptInfo.t) :
  UserReadReceiptSettings.ShowOthersReceipts (settings_of w viewer)
    = ReadReceiptVisibilityNone →
  GetReadReceiptInfoForPost postId viewer inc w = (Ok info, w') →
  (∀ receipts, filteredReceipts viewer receipts []
               = filter (λ r, PostReadReceipt.UserId r = viewer) receipts) ∧
  filteredReceipts viewer [] [] = [] ∧
  PostReadReceiptInfo.ReadReceipts info
    = filter (λ r, PostReadReceipt.UserId r = viewer)
        (Store.select_for_post postId (PostReadReceipts (db w))) ∧
  (∀ r, r ∈ PostReadReceiptInfo.ReadReceipts info ↔
        PostReadReceipt.UserId r = viewer ∧
        r ∈ Store.select_for_post postId (PostReadReceipts (db w))) ∧
  (length (PostReadReceiptInfo.ReadReceipts info) ≤ 1)%nat ∧
  db w' = db w.
Proof.
  intros Hnone H. apply GetReadReceiptInfoForPost_Ok in H as (_ & unfiltered & Hstore & ->).
  apply GetReadReceiptInfo_Ok in Hstore as (Hdb & _ & post & _ & ->).
  rewrite decide_True by done. simpl.
  split; [intros; apply filteredReceipts_filter |].
  split; [done |]. split; [done |].
  split; [intros r; by rewrite list_elem_of_filter |].
  split; [apply own_receipts_length | done].
Qed.

(** C10.  With visibility none, [GetReadReceiptInfoForPost] changes two
    fields of the store's answer, [ReadReceipts] and [ReadCount].
    [TotalUsers], [AllRead], [PartiallyRead], [FirstRead] and [LastRead] (and
    [PostId], [ChannelId], [UnreadUsers]) are those computed from all the
    receipts of the post: the flags compare the full count with
    [TotalUsers], and [FirstRead] and [LastRead] bound every stored
    [ReadAt], the receipts of other users included. *)
Theorem C10_ShowNone_changes_only_the_list_and_the_count
    (w w' : World) (postId viewer : string) (inc : bool) (info : PostReadReceiptInfo.t) :
  UserReadReceiptSettings.ShowOthersReceipts (settings_of w viewer)
    = ReadReceiptVisibilityNone →
  GetReadReceiptInfoForPost postId viewer inc w = (Ok info, w') →
  ∃ unfiltered,
    Store.GetReadReceiptInfo postId w = (Ok unfiltered, w') ∧
    PostReadReceiptInfo.ReadReceipts unfiltered
      = Store.select_for_post postId (PostReadReceipts (db w)) ∧
    PostReadReceiptInfo.ReadReceipts info
      = filter (λ r, PostReadReceipt.UserId r = viewer)
          (PostReadReceiptInfo.ReadReceipts unfiltered) ∧
    PostReadReceiptInfo.ReadCount info
      = Z.of_nat (length (PostReadReceiptInfo.ReadReceipts info)) ∧
    PostReadReceiptInfo.PostId info = PostReadReceiptInfo.PostId unfiltered ∧
    PostReadReceiptInfo.ChannelId info = PostReadReceiptInfo.ChannelId unfiltered ∧
    PostReadReceiptInfo.UnreadUsers info = PostReadReceiptInfo.UnreadUsers unfiltered ∧
    PostReadReceiptInfo.TotalUsers info = PostReadReceiptInfo.TotalUsers unfiltered ∧
    PostReadReceiptInfo.AllRead info = PostReadReceiptInfo.AllRead unfiltered ∧
    PostReadReceiptInfo.PartiallyRead info = PostReadReceiptInfo.PartiallyRead unfiltered ∧
    PostReadReceiptInfo.FirstRead info = PostReadReceiptInfo.FirstRead unfiltered ∧
    PostReadReceiptInfo.LastRead info = PostReadReceiptInfo.LastRead unfiltered ∧
    (let n := Z.of_nat (length (PostReadReceiptInfo.ReadReceipts unfiltered)) in
     PostReadReceiptInfo.AllRead info
       = bool_decide (PostReadReceiptInfo.TotalUsers info ≤ n) ∧
     PostReadReceiptInfo.PartiallyRead info
       = bool_decide (0 < n ∧ n < PostReadReceiptInfo.TotalUsers info)) ∧
    (∀ r, r ∈ PostReadReceiptInfo.ReadReceipts unfiltered →
          PostReadReceiptInfo.FirstRead info ≤ PostReadReceipt.ReadAt r
          ∧ PostReadReceipt.ReadAt r ≤ PostReadReceiptInfo.LastRead info).
Proof.
  intros Hnone H. apply GetReadReceiptInfoForPost_Ok in H as (_ & unfiltered & Hstore & ->).
  exists unfiltered. split; [done |].
  apply GetReadReceiptInfo_Ok in Hstore as (_ & _ & post & _ & ->).
  rewrite decide_True by done. simpl.
  repeat split; try apply (select_for_post_bounds postId (PostReadReceipts (db w)) r); try done.
  repeat case_bool_decide; simpl; try done; lia.
Qed.

(** ** A statement on the master that goes through *)

Lemma GetMaster_Exec_reliable wrap w :
  reliable (master_faults w) →
  ∃ rest, GetMaster_Exec wrap w = (Ok tt, set_master_faults rest w) ∧ reliable rest.
Proof.
  intros (rest & Hnext & Hrest)%next_outcome_reliable.
  exists rest. unfold GetMaster_Exec. by rewrite Hnext.
Qed.

(** ** Refreshing a summary *)

Lemma upsert_summary_of_row postId row now t :
  t !! postId = Some row →
  Store.upsert_summary
    (PostReadReceiptSummary.mk postId (SummaryRow.ChannelId row) (SummaryRow.ReadCount row)
       (SummaryRow.TotalRecipients row) now (SummaryRow.FirstReadAt row)
       (SummaryRow.LastReadAt row)) t
  = <[postId := touched now row]> t.
Proof. intros Hrow. unfold Store.upsert_summary. simpl. by rewrite Hrow. Qed.

(** Every way [UpdateReadReceiptSummaryAsync] can go. *)
Lemma UpdateReadReceiptSummaryAsync_run channelId postId w :
  ∃ w', UpdateReadReceiptSummaryAsync channelId postId w = (Ok tt, w') ∧
    Config w' = Config w ∧ millis w' = millis w ∧
    (reliable (replica_faults w) → reliable (replica_faults w')) ∧
    (reliable (master_faults w) → reliable (master_faults w')) ∧
    (db w' = db w ∨
     ∃ row, PostReadReceiptSummary (db w) !! postId = Some row ∧
       db w' = set_PostReadReceiptSummary
                 (<[postId := touched (millis w) row]> (PostReadReceiptSummary (db w)))
                 (db w)) ∧
    (reliable (replica_faults w) → reliable (master_faults w) →
     match PostReadReceiptSummary (db w) !! postId with
     | None => db w' = db w
     | Some row =>
         db w' = set_PostReadReceiptSummary
                   (<[postId := touched (millis w) row]> (PostReadReceiptSummary (db w)))
                   (db w)
     end).
Proof.
  unfold UpdateReadReceiptSummaryAsync, Store.GetReadReceiptSummary,
    Store.UpdateReadReceiptSummary, GetReplica_Query, GetMaster_Exec, reliable.
  unfold_monad.
  destruct (replica_faults w) as [|[] rrest] eqn:Hr; simpl;
    destruct (PostReadReceiptSummary (db w) !! postId) as [row|] eqn:Hrow; simpl;
    try rewrite Hr; simpl;
    destruct (master_faults w) as [|[] mrest] eqn:Hm; simpl;
    try rewrite (upsert_summary_of_row _ _ _ _ Hrow);
    (eexists; split; [reflexivity |]); simpl;
    repeat split; eauto;
    try (intros H; by apply Forall_cons in H as [? ?]);
    try (intros H; by inversion H);
    try (intros H1 H2; by inversion H1);
    try (intros H1 H2; by inversion H2);
    try (by rewrite Hm).
Qed.

(** C4 (amended).  [UpdateReadReceiptSummaryAsync] reads the stored summary
    of the post and writes it back with [LastUpdated] set to the clock.
    Without a stored summary nothing is written; with one, [ReadCount],
    [TotalRecipients], [FirstReadAt] and [LastReadAt] are the stored ones,
    not recomputed from the receipts or the members; the receipts are never
    touched; and with both connections going through and the clock
    unchanged, a second refresh leaves the database as the first one did. *)
Theorem C4_refresh_only_touches_LastUpdated (w : World) (channelId postId : string) :
  ∃ w',
    UpdateReadReceiptSummaryAsync channelId postId w = (Ok tt, w') ∧
    PostReadReceipts (db w') = PostReadReceipts (db w) ∧
    (PostReadReceiptSummary (db w) !! postId = None →
     PostReadReceiptSummary (db w') = PostReadReceiptSummary (db w)) ∧
    (∀ row', PostReadReceiptSummary (db w') !! postId = Some row' →
       ∃ row, PostReadReceiptSummary (db w) !! postId = Some row ∧
         SummaryRow.ReadCount row' = SummaryRow.ReadCount row ∧
         SummaryRow.TotalRecipients row' = SummaryRow.TotalRecipients row ∧
         SummaryRow.FirstReadAt row' = SummaryRow.FirstReadAt row ∧
         SummaryRow.LastReadAt row' = SummaryRow.LastReadAt row ∧
         SummaryRow.ChannelId row' = SummaryRow.ChannelId row ∧
         (SummaryRow.LastUpdated row' = SummaryRow.LastUpdated row
          ∨ SummaryRow.LastUpdated row' = millis w)) ∧
    (reliable (replica_faults w) → reliable (master_faults w) →
     (∀ row, PostReadReceiptSummary (db w) !! postId = Some row →
        PostReadReceiptSummary (db w') !! postId = Some (touched (millis w) row)) ∧
     ∃ w'', UpdateReadReceiptSummaryAsync channelId postId w' = (Ok tt, w'') ∧
            db w'' = db w').
Proof.
  destruct (UpdateReadReceiptSummaryAsync_run channelId postId w)
    as (w' & Hrun & Hcfg & Hmillis & Hrel_r & Hrel_m & Hdb & Hok).
  exists w'. split; [done |].
  split; [by destruct Hdb as [-> | (row & _ & ->)] |].
  split.
  { intros Hnone. destruct Hdb as [-> | (row & Hrow & _)]; [done | congruence]. }
  split.
  { intros row' Hrow'. destruct Hdb as [Hsame | (row & Hrow & Hnew)].
    - rewrite Hsame in Hrow'. exists row'. tauto.
    - rewrite Hnew in Hrow'. simpl in Hrow'. rewrite lookup_insert_eq in Hrow'.
      injection Hrow' as <-. exists row. simpl. tauto. }
  intros Hr Hm. specialize (Hok Hr Hm). split.
  { intros row Hrow. rewrite Hrow in Hok. rewrite Hok. simpl. apply lookup_insert_eq. }
  destruct (UpdateReadReceiptSummaryAsync_run channelId postId w')
    as (w'' & Hrun' & _ & _ & _ & _ & _ & Hok').
  exists w''. split; [done |].
  specialize (Hok' (Hrel_r Hr) (Hrel_m Hm)).
  destruct (PostReadReceiptSummary (db w) !! postId) as [row|] eqn:Hrow.
  - rewrite Hok in Hok'. simpl in Hok'. rewrite lookup_insert_eq in Hok'.
    rewrite Hok', Hok, Hmillis. unfold set_PostReadReceiptSummary. simpl.
    by rewrite insert_insert_eq.
  - rewrite Hok in Hok'. rewrite Hrow in Hok'. congruence.
Qed.

(** ** The batch write *)

Lemma GetChannel_run channelId w :
  GetChannel channelId w =
  (match Channels (db w) !! channelId with
   | Some ty => Ok (Channel.mk channelId ty)
   | None => Err (NewAppError "GetChannel" "app.channel.get.existing.app_error" ""
                    StatusNotFound)
   end, w).
Proof. unfold GetChannel. unfold_monad. by destruct (Channels (db w) !! channelId). Qed.

Lemma length_omap_le {A B} (f : A → option B) (l : list A) :
  (length (omap f l) ≤ length l)%nat.
Proof. induction l as [|x l IH]; csimpl; [lia |]. destruct (f x); simpl; lia. Qed.

Lemma GetPostsByIds_run postIds w :
  ∃ posts, GetPostsByIds postIds w = (Ok posts, w) ∧
    (length posts ≤ length postIds)%nat ∧
    (∀ post, post ∈ posts ↔
       ∃ row, Post.Id post ∈ postIds ∧ Posts (db w) !! Post.Id post = Some row ∧
              post = post_of_row (Post.Id post) row).
Proof.
  unfold GetPostsByIds. unfold_monad. eexists. split; [reflexivity |].
  split; [apply length_omap_le |].
  intros post. rewrite list_elem_of_omap. split.
  - intros (id & Hid & Hpost). destruct (Posts (db w) !! id) as [row|] eqn:Hrow; [| done].
    injection Hpost as <-. simpl. eauto.
  - intros (row & Hid & Hrow & Hpost). exists (Post.Id post). split; [done |].
    rewrite Hrow. simpl. by rewrite <- Hpost.
Qed.

(** Every row of the multi-row insert is in the table afterwards, with the
    times of the batch. *)
Lemma upsert_batch_row_times t k new k' readAt createAt :
  ReceiptRow.ReadAt new = readAt → ReceiptRow.CreateAt new = createAt →
  (k' = k ∨ ∃ row, t !! k' = Some row ∧ ReceiptRow.ReadAt row = readAt
                   ∧ ReceiptRow.CreateAt row = createAt) →
  ∃ row, Store.upsert_batch_row t k new !! k' = Some row
         ∧ ReceiptRow.ReadAt row = readAt ∧ ReceiptRow.CreateAt row = createAt.
Proof.
  intros Hr Hc Hk'. unfold Store.upsert_batch_row.
  destruct (decide (k' = k)) as [->|Hne].
  - destruct (t !! k); rewrite lookup_insert_eq; eauto.
  - destruct Hk' as [? | Hrow]; [done |].
    destruct (t !! k); by rewrite lookup_insert_ne.
Qed.

Lemma insert_batch_rows_lookup batch createAt deviceType t postId :
  postId ∈ PostReadReceiptBatch.PostIds batch →
  ∃ row, Store.insert_batch_rows batch createAt deviceType t
           !! (postId, PostReadReceiptBatch.UserId batch) = Some row
         ∧ ReceiptRow.ReadAt row = PostReadReceiptBatch.ReadAt batch
         ∧ ReceiptRow.CreateAt row = createAt.
Proof.
  unfold Store.insert_batch_rows.
  generalize (PostReadReceiptBatch.PostIds batch). intros ids.
  assert (Hgen : ∀ t,
    (postId ∈ ids ∨ ∃ row, t !! (postId, PostReadReceiptBatch.UserId batch) = Some row
                           ∧ ReceiptRow.ReadAt row = PostReadReceiptBatch.ReadAt batch
                           ∧ ReceiptRow.CreateAt row = createAt) →
    ∃ row, foldl (λ t postId,
                    Store.upsert_batch_row t (postId, PostReadReceiptBatch.UserId batch)
                      (ReceiptRow.mk (PostReadReceiptBatch.ChannelId batch)
                         (PostReadReceiptBatch.ReadAt batch) createAt
                         (PostReadReceiptBatch.DeviceId batch) deviceType "")) t ids
             !! (postId, PostReadReceiptBatch.UserId batch) = Some row
           ∧ ReceiptRow.ReadAt row = PostReadReceiptBatch.ReadAt batch
           ∧ ReceiptRow.CreateAt row = createAt).
  { induction ids as [|id ids IH]; intros t' [Hin|Hrow].
    - by apply elem_of_nil in Hin.
    - done.
    - simpl. apply IH. apply elem_of_cons in Hin as [->|Hin]; [right | by left].
      apply upsert_batch_row_times; auto.
    - simpl. apply IH. right. apply upsert_batch_row_times; auto. }
  intros Hin. apply Hgen. by left.
Qed.

Section BatchProperties.

Variable IsValidId : string → bool.

(** One turn of the loop. *)
Lemma validate_posts_cons userId batch post rest channelIds acc w :
  validate_posts IsValidId userId batch (post :: rest) channelIds acc w =
  if default false (channelIds !! Post.ChannelId post) then
    validate_posts IsValidId userId batch rest channelIds
      (appended IsValidId (batch_receipt userId batch post) acc) w
  else if eligible_channel w (Post.ChannelId post) then
    validate_posts IsValidId userId batch rest (<[Post.ChannelId post := true]> channelIds)
      (appended IsValidId (batch_receipt userId batch post) acc) w
  else validate_posts IsValidId userId batch rest channelIds acc w.
Proof.
  cbn [validate_posts]. unfold bind at 1.
  destruct (default false (channelIds !! Post.ChannelId post)); simpl; [done |].
  unfold bind at 1. unfold attempt. rewrite GetChannel_run. unfold eligible_channel.
  destruct (Channels (db w) !! Post.ChannelId post) as [ty|]; [| done].
  unfold bind at 1. unfold gets at 1.
  by destruct (allowedChannelType (Config w) _).
Qed.

Lemma appended_app receipt acc :
  ∃ new, appended IsValidId receipt acc = acc ++ new ∧ (length new ≤ 1)%nat ∧
         ∀ r, r ∈ new → r = receipt ∧ IsValid IsValidId r = None.
Proof.
  unfold appended. destruct (IsValid IsValidId receipt) eqn:Hvalid.
  - exists []. rewrite app_nil_r. split; [done |]. split; [simpl; lia |].
    by intros r Hr%elem_of_nil.
  - exists [receipt]. split; [done |]. split; [simpl; lia |].
    intros r Hr%list_elem_of_singleton. by subst.
Qed.

(** The loop keeps a post only if its channel is eligible, and only reads. *)
Lemma validate_posts_run userId batch posts channelIds acc w :
  (∀ c, default false (channelIds !! c) = true → eligible_channel w c = true) →
  ∃ new,
    validate_posts IsValidId userId batch posts channelIds acc w = (Ok (acc ++ new), w) ∧
    (length new ≤ length (filter (λ p, eligible_channel w (Post.ChannelId p) = true) posts))%nat ∧
    (∀ r, r ∈ new →
       ∃ post, post ∈ posts ∧ eligible_channel w (Post.ChannelId post) = true ∧
         r = batch_receipt userId batch post ∧
         IsValid IsValidId r = None).
Proof.
  revert channelIds acc.
  induction posts as [|post rest IH]; intros channelIds acc Hcache.
  { exists []. simpl. unfold ret. rewrite app_nil_r. split; [done |].
    split; [done |]. by intros r Hr%elem_of_nil. }
  rewrite validate_posts_cons, filter_cons.
  destruct (appended_app (batch_receipt userId batch post) acc) as (one & -> & Hone & Hin1).
  assert (Hkept : ∀ cache,
    (∀ c, default false (cache !! c) = true → eligible_channel w c = true) →
    eligible_channel w (Post.ChannelId post) = true →
    ∃ new,
      validate_posts IsValidId userId batch rest cache (acc ++ one) w = (Ok (acc ++ new), w) ∧
      (length new ≤ S (length (filter (λ p, eligible_channel w (Post.ChannelId p) = true)
                                 rest)))%nat ∧
      (∀ r, r ∈ new →
         ∃ p, p ∈ post :: rest ∧ eligible_channel w (Post.ChannelId p) = true ∧
           r = batch_receipt userId batch p ∧ IsValid IsValidId r = None)).
  { intros cache Hc Hel. destruct (IH cache (acc ++ one) Hc) as (new & Hrun & Hlen & Hin).
    exists (one ++ new). split; [by rewrite app_assoc |].
    split; [rewrite length_app; lia |].
    intros r [Hr|Hr]%elem_of_app.
    - destruct (Hin1 r Hr) as [-> Hv]. exists post. split; [left |]. done.
    - destruct (Hin r Hr) as (p & Hp & Hrest). exists p. split; [by right | done]. }
  destruct (default false (channelIds !! Post.ChannelId post)) eqn:Hhit.
  - pose proof (Hcache _ Hhit) as Hel. rewrite decide_True by done. simpl. auto.
  - destruct (eligible_channel w (Post.ChannelId post)) eqn:Hel.
    + rewrite decide_True by done. simpl. apply Hkept; [| done].
      intros c. destruct (decide (c = Post.ChannelId post)) as [->|Hne]; [done |].
      rewrite lookup_insert_ne by done. apply Hcache.
    + rewrite decide_False by done.
      destruct (IH channelIds acc Hcache) as (new & Hrun & Hlen & Hin).
      exists new. split; [done |]. split; [done |].
      intros r Hr. destruct (Hin r Hr) as (p & Hp & Hrest). exists p. split; [by right | done].
Qed.

(** The store's batch write, when it goes through. *)
Lemma Store_SaveReadReceiptBatch_Ok batch w w' :
  Store.SaveReadReceiptBatch batch w = (Ok tt, w') →
  PostReadReceipts (db w') =
    if decide (length (PostReadReceiptBatch.PostIds batch) = 0%nat)
    then PostReadReceipts (db w)
    else Store.insert_batch_rows batch (millis w)
           (Store.batch_deviceType (PostReadReceiptBatch.DeviceId batch))
           (PostReadReceipts (db w)).
Proof.
  unfold Store.SaveReadReceiptBatch.
  destruct (decide _); [by intros [= <-] |].
  unfold_monad. unfold GetMaster_Exec.
  destruct (next_outcome (master_faults w)) as [[] tape]; [discriminate |].
  by intros [= <-].
Qed.

Lemma Store_SaveReadReceiptBatch_reliable batch w :
  reliable (master_faults w) → ∃ w', Store.SaveReadReceiptBatch batch w = (Ok tt, w').
Proof.
  intros Hrel. unfold Store.SaveReadReceiptBatch.
  destruct (decide _); [by eexists |].
  unfold bind at 1. unfold GetMillis, gets at 1. unfold bind at 1.
  destruct (GetMaster_Exec_reliable "save_read_receipt_batch" w Hrel) as (tape & -> & _).
  by eexists.
Qed.

Lemma publish_groups_run {E} event groups w :
  ∃ w', @publish_groups E event groups w = (Ok tt, w') ∧ db w' = db w.
Proof.
  revert w. induction groups as [|[c rs] groups IH]; intros w; simpl.
  - by exists w.
  - unfold bind, Publish, modify.
    destruct (IH (set_published
                    (published w ++ [EventBatch event c rs (Z.of_nat (length rs))]) w))
      as (w' & -> & Hdb).
    by exists w'.
Qed.

Lemma PublishReadReceiptBatchEvent_run {E} receipts event w :
  ∃ w', @PublishReadReceiptBatchEvent E receipts event w = (Ok tt, w') ∧ db w' = db w.
Proof.
  unfold PublishReadReceiptBatchEvent. destruct (decide _); [by exists w |].
  apply publish_groups_run.
Qed.

(** What a successful [SaveReadReceiptBatch] has done. *)
Lemma SaveReadReceiptBatch_Ok userId req w rs w' :
  SaveReadReceiptBatch IsValidId userId req w = (Ok rs, w') →
  let batch := PostReadReceiptBatch.mk (ReadReceiptBatchRequest.PostIds req) userId
                 (ReadReceiptBatchRequest.ChannelId req)
                 (if ReadReceiptBatchRequest.ReadAt req =? 0 then millis w
                  else ReadReceiptBatchRequest.ReadAt req)
                 (ReadReceiptBatchRequest.DeviceId req) in
  ∃ posts,
    GetPostsByIds (ReadReceiptBatchRequest.PostIds req) w = (Ok posts, w) ∧
    validate_posts IsValidId userId batch posts ∅ [] w = (Ok rs, w) ∧
    PostReadReceipts (db w') =
      if decide (length (ReadReceiptBatchRequest.PostIds req) = 0%nat)
      then PostReadReceipts (db w)
      else Store.insert_batch_rows batch (millis w)
             (Store.batch_deviceType (ReadReceiptBatchRequest.DeviceId req))
             (PostReadReceipts (db w)).
Proof.
  unfold SaveReadReceiptBatch. intros H.
  apply bind_Ok in H as (cfg & w1 & Hcfg & H). unfold gets in Hcfg. injection Hcfg as <- <-.
  destruct (EnableReadReceipts (Config w)); simpl in H; [| discriminate].
  apply bind_Ok in H as (st & w1 & Hst & H).
  rewrite GetUserReadReceiptSettings_run in Hst. injection Hst as <- <-.
  destruct (decide _) as [|_]; [discriminate |].
  apply bind_Ok in H as (readAt & w1 & HreadAt & H).
  assert (readAt = (if ReadReceiptBatchRequest.ReadAt req =? 0 then millis w
                    else ReadReceiptBatchRequest.ReadAt req) ∧ w1 = w) as [-> ->].
  { destruct (ReadReceiptBatchRequest.ReadAt req =? 0); unfold_monad;
      by injection HreadAt as <- <-. }
  simpl in H.
  apply bind_Ok in H as (posts & w1 & Hposts & H).
  destruct (GetPostsByIds_run (ReadReceiptBatchRequest.PostIds req) w) as (posts' & Hrun & _).
  rewrite Hrun in Hposts. injection Hposts as <- <-.
  apply bind_Ok in H as (validated & w1 & Hloop & H).
  match type of Hloop with validate_posts _ _ ?b _ _ _ _ = _ =>
    destruct (validate_posts_run userId b posts' ∅ [] w) as (new & Hloop' & _) end.
  { intros c. by rewrite lookup_empty. }
  rewrite Hloop' in Hloop. injection Hloop as <- <-.
  apply bind_Ok in H as ([] & w1 & Hstore & H).
  unfold from_store in Hstore.
  match type of Hstore with context [Store.SaveReadReceiptBatch ?b w] =>
    destruct (Store.SaveReadReceiptBatch b w) as [[[]|e] w2] eqn:Hsave end; [| discriminate].
  injection Hstore as <-.
  apply Store_SaveReadReceiptBatch_Ok in Hsave. simpl in Hsave.
  apply bind_Ok in H as ([] & w3 & Hpub & H).
  match type of Hpub with PublishReadReceiptBatchEvent ?rs' ?ev ?w0 = _ =>
    destruct (@PublishReadReceiptBatchEvent_run AppError.t rs' ev w0) as (w4 & Hpub' & Hdb) end.
  rewrite Hpub' in Hpub. injection Hpub as <-.
  unfold ret in H. injection H as <- <-.
  exists posts'. split; [done |]. split; [done |]. by rewrite Hdb.
Qed.

Lemma SaveReadReceiptBatch_goes_through userId req w :
  EnableReadReceipts (Config w) = true →
  UserReadReceiptSettings.ReceiptMode (settings_of w userId) ≠ ReadReceiptModeDisabled →
  reliable (master_faults w) →
  ∃ rs w', SaveReadReceiptBatch IsValidId userId req w = (Ok rs, w').
Proof.
  intros Hen Hmode Hrel. unfold SaveReadReceiptBatch.
  unfold bind at 1. unfold gets at 1. rewrite Hen. simpl.
  unfold bind at 1. rewrite GetUserReadReceiptSettings_run.
  rewrite decide_False by done.
  unfold bind at 1.
  assert (∃ readAt, (if ReadReceiptBatchRequest.ReadAt req =? 0 then GetMillis
                     else ret (ReadReceiptBatchRequest.ReadAt req)) w
                    = (@Ok AppError.t Z readAt, w)) as [readAt ->].
  { destruct (_ =? 0); by eexists. }
  simpl. unfold bind at 1.
  destruct (GetPostsByIds_run (ReadReceiptBatchRequest.PostIds req) w) as (posts & -> & _).
  unfold bind at 1.
  match goal with |- context [validate_posts _ _ ?b _ _ _ _] =>
    destruct (validate_posts_run userId b posts ∅ [] w) as (new & -> & _) end.
  { intros c. by rewrite lookup_empty. }
  unfold bind at 1. unfold from_store.
  match goal with |- context [Store.SaveReadReceiptBatch ?b w] =>
    destruct (Store_SaveReadReceiptBatch_reliable b w Hrel) as (w1 & ->) end.
  unfold bind at 1.
  match goal with |- context [PublishReadReceiptBatchEvent ?rs' ?ev ?w0] =>
    destruct (@PublishReadReceiptBatchEvent_run AppError.t rs' ev w0) as (w2 & -> & _) end.
  by do 2 eexists.
Qed.

(** C8.  Whenever [SaveReadReceiptBatch] returns a list, the list is no
    longer than [PostIds], every receipt in it carries a [PostId] of the
    request, and it is strictly shorter when some requested post lies in a
    channel that is not eligible.  Such a post does not make the call fail:
    with the feature enabled, the user not opted out and the master
    connection going through, the call returns a list. *)
Theorem C8_batch_result_within_the_request
    (w : World) (userId : string) (req : ReadReceiptBatchRequest.t) :
  (∀ rs w', SaveReadReceiptBatch IsValidId userId req w = (Ok rs, w') →
     (length rs ≤ length (ReadReceiptBatchRequest.PostIds req))%nat ∧
     (∀ r, r ∈ rs → PostReadReceipt.PostId r ∈ ReadReceiptBatchRequest.PostIds req) ∧
     (∀ id row, id ∈ ReadReceiptBatchRequest.PostIds req →
        Posts (db w) !! id = Some row →
        eligible_channel w (PostRow.ChannelId row) = false →
        (length rs < length (ReadReceiptBatchRequest.PostIds req))%nat)) ∧
  (EnableReadReceipts (Config w) = true →
   UserReadReceiptSettings.ReceiptMode (settings_of w userId) ≠ ReadReceiptModeDisabled →
   reliable (master_faults w) →
   ∃ rs w', SaveReadReceiptBatch IsValidId userId req w = (Ok rs, w')).
Proof.
  split; [| apply SaveReadReceiptBatch_goes_through].
  intros rs w' H. apply SaveReadReceiptBatch_Ok in H as (posts & Hposts & Hloop & _).
  destruct (GetPostsByIds_run (ReadReceiptBatchRequest.PostIds req) w)
    as (posts' & Hrun & Hlen & Hmem).
  rewrite Hrun in Hposts. injection Hposts as <-.
  match type of Hloop with validate_posts _ _ ?b _ _ _ _ = _ =>
    destruct (validate_posts_run userId b posts' ∅ [] w) as (new & Hloop' & Hnew & Hin) end.
  { intros c. by rewrite lookup_empty. }
  rewrite Hloop' in Hloop. injection Hloop as <-. simpl.
  pose proof (length_filter (λ p, eligible_channel w (Post.ChannelId p) = true) posts').
  split; [lia |]. split.
  - intros r Hr. destruct (Hin r Hr) as (post & Hpost & _ & -> & _). simpl.
    apply Hmem in Hpost as (row & Hid & _). done.
  - intros id row Hid Hrow Hel.
    assert (Hpost : post_of_row id row ∈ posts') by (apply Hmem; simpl; eauto).
    pose proof (length_filter_lt (λ p, eligible_channel w (Post.ChannelId p) = true)
                  posts' _ Hpost) as Hlt.
    simpl in Hlt. rewrite Hel in Hlt. specialize (Hlt ltac:(done)). lia.
Qed.

(** C3 (the code departs from the claim).  [SaveReadReceiptBatch] hands the
    store the batch as requested, not the receipts that survived: whenever
    it succeeds, the returned list is empty (no receipt without [CreateAt]
    validates), and yet every post id of the request, resolved or not,
    eligible or not, has a row for the user afterwards, stamped with the
    batch's [ReadAt]. *)
Theorem C3_batch_persists_every_requested_post
    (w w' : World) (userId : string) (req : ReadReceiptBatchRequest.t)
    (rs : list PostReadReceipt.t) :
  SaveReadReceiptBatch IsValidId userId req w = (Ok rs, w') →
  rs = [] ∧
  ∀ postId, postId ∈ ReadReceiptBatchRequest.PostIds req →
    ∃ row, PostReadReceipts (db w') !! (postId, userId) = Some row ∧
      ReceiptRow.ReadAt row = (if ReadReceiptBatchRequest.ReadAt req =? 0 then millis w
                               else ReadReceiptBatchRequest.ReadAt req) ∧
      ReceiptRow.CreateAt row = millis w.
Proof.
  intros H. apply SaveReadReceiptBatch_Ok in H as (posts & _ & Hloop & Hdb).
  match type of Hloop with validate_posts _ _ ?b _ _ _ _ = _ =>
    destruct (validate_posts_run userId b posts ∅ [] w) as (new & Hloop' & _ & Hin) end.
  { intros c. by rewrite lookup_empty. }
  rewrite Hloop' in Hloop. injection Hloop as <-. simpl. split.
  - destruct new as [|r new]; [done |]. exfalso.
    destruct (Hin r) as (post & _ & _ & Heq & Hvalid); [by left |].
    destruct (IsValid_CreateAt_zero IsValidId r) as [e He]; [by rewrite Heq | congruence].
  - intros postId Hid. rewrite Hdb.
    destruct (decide _) as [Hnil|_].
    { apply length_zero_iff_nil in Hnil. rewrite Hnil in Hid. by apply elem_of_nil in Hid. }
    match goal with |- context [Store.insert_batch_rows ?b ?c ?d ?t] =>
      destruct (insert_batch_rows_lookup b c d t postId Hid) as (row & Hrow & Hr & Hc) end.
    eauto.
Qed.

End BatchProperties.

(** ** Backfill *)

Lemma GetReadReceipt_reliable postID userID w :
  reliable (replica_faults w) →
  ∃ tape, reliable tape ∧
    Store.GetReadReceipt postID userID w =
    (match PostReadReceipts (db w) !! (postID, userID) with
     | Some row => Ok (Store.receipt_of_row (postID, userID) row)
     | None => Err (ErrNotFound "PostReadReceipt"
                      ("postId=" +:+ postID +:+ ", userId=" +:+ userID))
     end, set_replica_faults tape w).
Proof.
  intros (tape & Hnext & Htape)%next_outcome_reliable. exists tape. split; [done |].
  unfold Store.GetReadReceipt, GetReplica_Query. unfold_monad. rewrite Hnext. simpl.
  by destruct (PostReadReceipts (db w) !! (postID, userID)).
Qed.

Lemma backfill_posts_run channelId member posts acc w :
  reliable (replica_faults w) →
  ∃ tape, reliable tape ∧
    backfill_posts channelId member posts acc w =
    (Ok (acc ++ (backfill_receipt channelId member
                   <$> filter (should_backfill (PostReadReceipts (db w)) member) posts)),
     set_replica_faults tape w).
Proof.
  revert acc w. induction posts as [|post rest IH]; intros acc w Hrel.
  { exists (replica_faults w). split; [done |]. simpl. unfold ret.
    rewrite app_nil_r. by destruct w. }
  cbn [backfill_posts]. rewrite filter_cons.
  case_bool_decide as Hnew.
  { rewrite decide_False by (intros [? _]; lia). apply IH, Hrel. }
  destruct (decide (Post.UserId post = ChannelMember.UserId member)) as [Hown|Hother].
  { rewrite decide_False by (intros (_ & ? & _); done). apply IH, Hrel. }
  unfold bind at 1. unfold attempt.
  destruct (GetReadReceipt_reliable (Post.Id post) (ChannelMember.UserId member) w Hrel)
    as (tape & Htape & ->).
  destruct (PostReadReceipts (db w) !! (Post.Id post, ChannelMember.UserId member))
    as [row|] eqn:Hrow.
  - rewrite decide_False by (intros (_ & _ & ?); congruence).
    destruct (IH acc (set_replica_faults tape w) Htape) as (tape' & Htape' & ->).
    exists tape'. split; [done |]. done.
  - rewrite decide_True by (repeat split; [lia | done | done]).
    destruct (IH (acc ++ [backfill_receipt channelId member post])
                (set_replica_faults tape w) Htape) as (tape' & Htape' & Hrun).
    unfold backfill_receipt at 1 in Hrun. rewrite Hrun.
    exists tape'. split; [done |]. rewrite fmap_cons. simpl. by rewrite <- app_assoc.
Qed.

Lemma backfill_members_run channelId members posts acc w :
  reliable (replica_faults w) →
  ∃ tape, reliable tape ∧
    backfill_members channelId members posts acc w =
    (Ok (acc ++ (members ≫= member_receipts (PostReadReceipts (db w)) channelId posts)),
     set_replica_faults tape w).
Proof.
  revert acc w. induction members as [|member rest IH]; intros acc w Hrel.
  { exists (replica_faults w). split; [done |]. simpl. unfold ret.
    rewrite app_nil_r. by destruct w. }
  cbn [backfill_members]. rewrite bind_cons. unfold member_receipts at 1.
  destruct (decide (ChannelMember.LastViewedAt member = 0)) as [Hzero|Hseen].
  { apply IH, Hrel. }
  unfold bind at 1.
  destruct (backfill_posts_run channelId member posts acc w Hrel) as (tape & Htape & ->).
  destruct (IH (acc ++ (backfill_receipt channelId member
                          <$> filter (should_backfill (PostReadReceipts (db w)) member) posts))
              (set_replica_faults tape w) Htape) as (tape' & Htape' & ->).
  exists tape'. split; [done |]. simpl. by rewrite <- app_assoc.
Qed.

Lemma backfill_save_run receipts w :
  ∃ w', backfill_save receipts w = (Ok tt, w') ∧
    millis w' = millis w ∧
    PostReadReceipts (db w') =
      saved (millis w) receipts (master_faults w) (PostReadReceipts (db w)).
Proof.
  revert w. induction receipts as [|r rest IH]; intros w.
  { by exists w. }
  cbn [backfill_save saved]. unfold bind at 1. unfold attempt.
  unfold Store.SaveReadReceipt. unfold bind at 1. rewrite PreSave_run.
  unfold bind at 1. unfold GetMaster_Exec.
  destruct (next_outcome (master_faults w)) as [[] tape]; simpl.
  - destruct (IH (set_master_faults tape w)) as (w' & -> & Hmillis & Hdb).
    exists w'. split; [done |]. split; [done |]. by rewrite Hdb.
  - match goal with |- context [backfill_save rest ?w1] =>
      destruct (IH w1) as (w' & -> & Hmillis & Hdb) end.
    exists w'. split; [done |]. split; [done |]. by rewrite Hdb.
Qed.

Lemma next_outcome_lookup tape :
  (next_outcome tape).1 = default false (tape !! 0%nat) ∧
  ∀ i, (next_outcome tape).2 !! i = tape !! S i.
Proof. by destruct tape. Qed.

Lemma upsert_receipt_fresh s t :
  t !! Store.receipt_key s = None →
  Store.upsert_receipt s t = <[Store.receipt_key s := row_of s]> t.
Proof. intros Hnone. unfold Store.upsert_receipt. by rewrite Hnone. Qed.

Lemma upsert_receipt_other s t k :
  k ≠ Store.receipt_key s → Store.upsert_receipt s t !! k = t !! k.
Proof. intros Hne. unfold Store.upsert_receipt. by rewrite lookup_insert_ne. Qed.

Lemma receipt_key_presaved now r : Store.receipt_key (presaved now r) = Store.receipt_key r.
Proof. done. Qed.

(** A save touches only the key of its receipt. *)
Lemma saved_other now receipts tape t k :
  k ∉ Store.receipt_key <$> receipts → saved now receipts tape t !! k = t !! k.
Proof.
  revert tape t. induction receipts as [|r rest IH]; intros tape t Hk; [done |].
  rewrite fmap_cons in Hk. apply not_elem_of_cons in Hk as [Hne Hk].
  cbn [saved]. rewrite IH by done.
  destruct (next_outcome tape).1; [done |].
  by rewrite upsert_receipt_other.
Qed.

(** Each receipt is written or not according to the outcome of its own
    statement, whatever happened to the ones before and after it. *)
Lemma saved_at now receipts tape t i r :
  NoDup (Store.receipt_key <$> receipts) →
  receipts !! i = Some r →
  t !! Store.receipt_key r = None →
  saved now receipts tape t !! Store.receipt_key r =
  if default false (tape !! i) then None else Some (row_of (presaved now r)).
Proof.
  revert tape t i. induction receipts as [|r0 rest IH]; intros tape t i Hnd Hi Ht; [done |].
  rewrite fmap_cons in Hnd. apply NoDup_cons in Hnd as [Hr0 Hnd].
  destruct (next_outcome_lookup tape) as [Hfault Htail].
  cbn [saved]. destruct i as [|j]; simpl in Hi.
  - injection Hi as ->. rewrite saved_other by done. rewrite Hfault.
    destruct (default false (tape !! 0%nat)); [done |].
    rewrite upsert_receipt_fresh by done.
    rewrite receipt_key_presaved. apply lookup_insert_eq.
  - assert (Hne : Store.receipt_key r ≠ Store.receipt_key r0).
    { intros Heq. apply Hr0. rewrite <- Heq. apply list_elem_of_fmap.
      exists r. split; [done |]. by eapply list_elem_of_lookup_2. }
    rewrite (IH _ _ j Hnd Hi); [by rewrite Htail |].
    destruct (next_outcome tape).1; [done |]. by rewrite upsert_receipt_other.
Qed.

Lemma NoDup_fmap_filter {A B} (f : A → B) (P : A → Prop) `{∀ x, Decision (P x)}
    (l : list A) :
  NoDup (f <$> l) → NoDup (f <$> filter P l).
Proof.
  induction l as [|x l IH]; [done |].
  rewrite fmap_cons, NoDup_cons, filter_cons. intros [Hx Hl].
  destruct (decide (P x)); [| auto].
  rewrite fmap_cons. apply NoDup_cons. split; [| auto].
  rewrite list_elem_of_fmap. intros (y & Hy & Hin). apply Hx.
  apply list_elem_of_filter in Hin as [_ Hin].
  apply list_elem_of_fmap. eauto.
Qed.

(** The receipts to create have pairwise distinct keys when the members
    are distinct users and the posts have distinct ids. *)
Lemma member_receipts_keys t channelId posts member :
  Store.receipt_key <$> member_receipts t channelId posts member
  = (λ post, (Post.Id post, ChannelMember.UserId member))
      <$> (if decide (ChannelMember.LastViewedAt member = 0) then []
           else filter (should_backfill t member) posts).
Proof.
  unfold member_receipts. destruct (decide _); [done |].
  by rewrite <- list_fmap_compose.
Qed.

Lemma candidates_NoDup t channelId members posts :
  NoDup (ChannelMember.UserId <$> members) →
  NoDup (Post.Id <$> posts) →
  NoDup (Store.receipt_key <$> (members ≫= member_receipts t channelId posts)).
Proof.
  intros Hm Hp. induction members as [|member rest IH]; [constructor |].
  rewrite fmap_cons in Hm. apply NoDup_cons in Hm as [Hfresh Hm].
  rewrite bind_cons, fmap_app. apply NoDup_app. split; [| split; [| auto]].
  - rewrite member_receipts_keys. destruct (decide _); [constructor |].
    rewrite (list_fmap_compose Post.Id (λ id, (id, ChannelMember.UserId member))).
    apply NoDup_fmap_2; [intros a b; congruence |].
    by apply NoDup_fmap_filter.
  - intros k Hk Hk'. apply Hfresh.
    rewrite member_receipts_keys in Hk. apply list_elem_of_fmap in Hk as (post & -> & _).
    apply list_elem_of_fmap in Hk' as (r & Hkey & Hr).
    apply list_elem_of_bind in Hr as (member' & Hr & Hmember').
    assert (Hr' : Store.receipt_key r
                  ∈ Store.receipt_key <$> member_receipts t channelId posts member')
      by (apply list_elem_of_fmap; eauto).
    rewrite member_receipts_keys in Hr'.
    apply list_elem_of_fmap in Hr' as (post' & Hkey' & _).
    rewrite Hkey' in Hkey. injection Hkey as _ ->.
    apply list_elem_of_fmap. eauto.
Qed.

Lemma GetChannelMembers_run channelId page perPage w :
  ∃ members, GetChannelMembers channelId page perPage w = (Ok members, w) ∧
    NoDup (ChannelMember.UserId <$> members).
Proof.
  unfold GetChannelMembers. unfold_monad. eexists. split; [reflexivity |].
  rewrite <- list_fmap_compose.
  match goal with |- NoDup (_ <$> ?l) => change (NoDup (l.*1)) end.
  rewrite fmap_take, fmap_drop.
  eapply sublist_NoDup; [| apply sublist_take].
  eapply sublist_NoDup; [| apply sublist_drop].
  apply NoDup_fst_map_to_list.
Qed.

Lemma GetPostsForChannel_run channelId page perPage w :
  ∃ posts, GetPostsForChannel channelId page perPage w = (Ok posts, w) ∧
    NoDup (Post.Id <$> posts).
Proof.
  unfold GetPostsForChannel. unfold_monad. eexists. split; [reflexivity |].
  rewrite fmap_take, fmap_drop.
  eapply sublist_NoDup; [| apply sublist_take].
  eapply sublist_NoDup; [| apply sublist_drop].
  rewrite (merge_sort_Permutation CreateAt_desc).
  apply NoDup_fmap_filter.
  rewrite <- list_fmap_compose.
  match goal with |- NoDup (_ <$> ?l) => change (NoDup (l.*1)) end.
  apply NoDup_fst_map_to_list.
Qed.

Lemma elem_of_candidates t channelId members posts r :
  r ∈ members ≫= member_receipts t channelId posts ↔
  ∃ member post, member ∈ members ∧ post ∈ posts ∧
    ChannelMember.LastViewedAt member ≠ 0 ∧
    should_backfill t member post ∧
    r = backfill_receipt channelId member post.
Proof.
  rewrite list_elem_of_bind. unfold member_receipts. split.
  - intros (member & Hr & Hmember). destruct (decide _) as [|Hseen];
      [by apply elem_of_nil in Hr |].
    apply list_elem_of_fmap in Hr as (post & -> & Hpost).
    apply list_elem_of_filter in Hpost as [Hshould Hpost].
    exists member, post. done.
  - intros (member & post & Hmember & Hpost & Hseen & Hshould & ->).
    exists member. split; [| done]. rewrite decide_False by done.
    apply list_elem_of_fmap. exists post. split; [done |].
    by apply list_elem_of_filter.
Qed.

(** ** Statements and queries in general *)
Lemma elem_of_receipts_of t r : r ∈ Store.receipts_of t ↔ stored t r.
Proof.
  unfold Store.receipts_of, stored. rewrite list_elem_of_fmap. split.
  - intros ([k row] & -> & Hin). apply elem_of_map_to_list in Hin.
    exists row. simpl. by rewrite receipt_key_of_row.
  - intros (row & Hrow & Hr). exists (Store.receipt_key r, row).
    split; [done |]. by apply elem_of_map_to_list.
Qed.

(** A query on the replica that goes through reads the tables and changes
    nothing but the tape. *)
Lemma replica_read_Ok {A} wrap (f : Db → M StoreError A) w x w' :
  (bind (GetReplica_Query wrap) (λ _, bind (gets db) f)) w = (Ok x, w') →
  ∃ tape, f (db w) (set_replica_faults tape w) = (Ok x, w').
Proof.
  intros H. apply bind_Ok in H as ([] & w1 & Hq & H).
  unfold GetReplica_Query in Hq.
  destruct (next_outcome (replica_faults w)) as [[] tape]; [discriminate |].
  injection Hq as <-. apply bind_Ok in H as (d & w2 & Hd & H).
  unfold gets in Hd. injection Hd as <- <-. by exists tape.
Qed.

Lemma replica_read_reliable {A} wrap (f : Db → M StoreError A) w :
  reliable (replica_faults w) →
  ∃ tape, reliable tape ∧
    (bind (GetReplica_Query wrap) (λ _, bind (gets db) f)) w
    = f (db w) (set_replica_faults tape w).
Proof.
  intros (tape & Hnext & Htape)%next_outcome_reliable. exists tape. split; [done |].
  unfold bind, GetReplica_Query, gets. by rewrite Hnext.
Qed.

(** A statement on the master either fails and changes nothing but the tape,
    or goes through. *)
Lemma master_write_run wrap (g : World → World) w r w' :
  (bind (GetMaster_Exec wrap) (λ _, modify g)) w = (r, w') →
  ∃ tape,
    (r = Err (ErrWrap wrap) ∧ w' = set_master_faults tape w
     ∧ next_outcome (master_faults w) = (true, tape)) ∨
    (r = Ok tt ∧ w' = g (set_master_faults tape w)
     ∧ next_outcome (master_faults w) = (false, tape)).
Proof.
  unfold bind, GetMaster_Exec, modify.
  destruct (next_outcome (master_faults w)) as [[] tape]; intros [= <- <-];
    exists tape; [left | right]; done.
Qed.

(** ** Save, look up, delete *)

(** X1.  What [SaveReadReceipt] has written is what [GetReadReceipt] reads
    back: the times, the device columns and the session of the saved receipt.
    The channel is the one of the row that was already there, if any: a
    rewrite never moves a receipt to another channel. *)
Theorem X1_saved_receipt_is_read_back
    (w w1 : World) (r s : PostReadReceipt.t) :
  Store.SaveReadReceipt r w = (Ok s, w1) →
  reliable (replica_faults w1) →
  ∃ got w2,
    Store.GetReadReceipt (PostReadReceipt.PostId r) (PostReadReceipt.UserId r) w1
      = (Ok got, w2) ∧
    PostReadReceipt.PostId got = PostReadReceipt.PostId r ∧
    PostReadReceipt.UserId got = PostReadReceipt.UserId r ∧
    PostReadReceipt.ReadAt got = PostReadReceipt.ReadAt s ∧
    PostReadReceipt.CreateAt got = PostReadReceipt.CreateAt s ∧
    PostReadReceipt.DeviceId got = PostReadReceipt.DeviceId s ∧
    PostReadReceipt.DeviceType got = PostReadReceipt.DeviceType s ∧
    PostReadReceipt.SessionId got = PostReadReceipt.SessionId s ∧
    PostReadReceipt.ChannelId got =
      from_option ReceiptRow.ChannelId (PostReadReceipt.ChannelId r)
        (PostReadReceipts (db w) !! (PostReadReceipt.PostId r, PostReadReceipt.UserId r)) ∧
    Equals s (Some got) = true ∧
    (Store.IsPostReadByUser (PostReadReceipt.PostId r) (PostReadReceipt.UserId r) w1).1
      = Ok true.
Proof.
  intros Hsave Hrel. apply SaveReadReceipt_Ok in Hsave as (-> & Hdb & _).
  destruct (GetReadReceipt_reliable (PostReadReceipt.PostId r) (PostReadReceipt.UserId r)
              w1 Hrel) as (tape & _ & Hget).
  destruct (upsert_receipt_lookup (presaved (millis w) r) (PostReadReceipts (db w)))
    as (row & Hrow & Hread & Hcreate & Hdev & Htype & Hsess & Hchan).
  rewrite Hdb in Hget. simpl in Hget.
  change (Store.receipt_key (presaved (millis w) r))
    with (PostReadReceipt.PostId r, PostReadReceipt.UserId r) in Hrow, Hchan.
  rewrite Hrow in Hget. do 2 eexists. split; [exact Hget |].
  unfold Store.receipt_of_row, Equals. simpl.
  rewrite Hread, Hcreate, Hdev, Htype, Hsess, Hchan.
  repeat split; try done; [by rewrite !bool_decide_eq_true_2 |].
  unfold Store.IsPostReadByUser.
  destruct (replica_read_reliable "is_post_read_by_user"
              (λ d, ret (bool_decide (is_Some (PostReadReceipts d
                     !! (PostReadReceipt.PostId r, PostReadReceipt.UserId r))))) w1 Hrel)
    as (tape' & _ & ->).
  unfold ret. simpl. rewrite Hdb. simpl. rewrite Hrow. by rewrite bool_decide_eq_true_2.
Qed.

Lemma filter_receipts_nil (P : PostReadReceipt.t → Prop) `{∀ r, Decision (P r)}
    (t : gmap (string * string) ReceiptRow.t) :
  (∀ r, stored t r → ¬ P r) → filter P (Store.receipts_of t) = [].
Proof.
  intros Hnone. destruct (filter P (Store.receipts_of t)) as [|r l] eqn:Hf; [done |].
  assert (Hr : r ∈ filter P (Store.receipts_of t)) by (rewrite Hf; left).
  apply list_elem_of_filter in Hr as [HP Hr]. apply elem_of_receipts_of in Hr.
  by destruct (Hnone r Hr).
Qed.

Lemma stored_key t r :
  stored t r → is_Some (t !! (PostReadReceipt.PostId r, PostReadReceipt.UserId r)).
Proof. intros (row & Hrow & _). by exists row. Qed.

(** X2.  After [DeleteReadReceipt] the pair has no receipt: [IsPostReadByUser]
    answers false, [GetReadReceipt] answers not-found and never a receipt,
    and every other row is as it was. *)
Theorem X2_deleted_receipt_is_not_found (w w1 : World) (postID userID : string) :
  Store.DeleteReadReceipt postID userID w = (Ok tt, w1) →
  (∀ got w2, Store.GetReadReceipt postID userID w1 ≠ (Ok got, w2)) ∧
  (∀ k, k ≠ (postID, userID) →
        PostReadReceipts (db w1) !! k = PostReadReceipts (db w) !! k) ∧
  (reliable (replica_faults w1) →
   (Store.IsPostReadByUser postID userID w1).1 = Ok false ∧
   (Store.GetReadReceipt postID userID w1).1
     = Err (ErrNotFound "PostReadReceipt"
              ("postId=" +:+ postID +:+ ", userId=" +:+ userID))).
Proof.
  unfold Store.DeleteReadReceipt. intros H.
  apply master_write_run in H as (tape & [(? & _) | (_ & -> & _)]); [discriminate |].
  simpl. split; [| split].
  - intros got w2 Hget. unfold Store.GetReadReceipt in Hget.
    apply replica_read_Ok in Hget as (tape' & Hget). simpl in Hget.
    rewrite lookup_delete_eq in Hget. discriminate.
  - intros k Hk. by rewrite lookup_delete_ne.
  - intros Hrel. split.
    + unfold Store.IsPostReadByUser.
      match goal with |- (bind _ (λ _, bind _ ?f) ?w0).1 = _ =>
        destruct (replica_read_reliable "is_post_read_by_user" f w0 Hrel) as (t' & _ & ->) end.
      unfold ret. simpl. rewrite lookup_delete_eq.
      rewrite bool_decide_eq_false_2; [done |]. by intros [? ?].
    + unfold Store.GetReadReceipt.
      match goal with |- (bind _ (λ _, bind _ ?f) ?w0).1 = _ =>
        destruct (replica_read_reliable "get_read_receipt" f w0 Hrel) as (t' & _ & ->) end.
      simpl. by rewrite lookup_delete_eq.
Qed.

(** ** Bulk deletes *)

(** X3.  [DeleteReadReceiptsForPost] removes the rows of the post and only
    those; a failed statement removes nothing.  Afterwards the post has no
    receipts to list. *)
Theorem X3_DeleteReadReceiptsForPost_removes_the_post
    (w w1 : World) (postID : string) (r : result StoreError unit) :
  Store.DeleteReadReceiptsForPost postID w = (r, w1) →
  match r with
  | Err _ => db w1 = db w
  | Ok _ =>
      (∀ u, PostReadReceipts (db w1) !! (postID, u) = None) ∧
      (∀ p u, p ≠ postID →
              PostReadReceipts (db w1) !! (p, u) = PostReadReceipts (db w) !! (p, u)) ∧
      Store.select_for_post postID (PostReadReceipts (db w1)) = [] ∧
      PostReadReceiptSummary (db w1) = PostReadReceiptSummary (db w) ∧
      ReadReceiptAuditLogs (db w1) = ReadReceiptAuditLogs (db w)
  end.
Proof.
  unfold Store.DeleteReadReceiptsForPost. intros H.
  apply master_write_run in H as (tape & [(-> & -> & _) | (-> & -> & _)]); [done |].
  simpl. split; [| split; [| split; [| done]]].
  - intros u. apply map_lookup_filter_None. right. intros row _. simpl. tauto.
  - intros p u Hp. destruct (PostReadReceipts (db w) !! (p, u)) as [row|] eqn:Hrow.
    + by apply map_lookup_filter_Some.
    + apply map_lookup_filter_None. by left.
  - unfold Store.select_for_post. rewrite filter_receipts_nil; [done |].
    intros r' (row & Hrow & _) Hpost.
    apply map_lookup_filter_Some in Hrow as [_ Hne]. simpl in Hne. congruence.
Qed.

(** X4.  [DeleteReadReceiptsForUser] removes the rows of the user and only
    those; a failed statement removes nothing.  Afterwards the user has no
    history, in any channel and under any limit. *)
Theorem X4_DeleteReadReceiptsForUser_removes_the_user
    (w w1 : World) (userID : string) (r : result StoreError unit) :
  Store.DeleteReadReceiptsForUser userID w = (r, w1) →
  match r with
  | Err _ => db w1 = db w
  | Ok _ =>
      (∀ p, PostReadReceipts (db w1) !! (p, userID) = None) ∧
      (∀ p u, u ≠ userID →
              PostReadReceipts (db w1) !! (p, u) = PostReadReceipts (db w) !! (p, u)) ∧
      (∀ channelID limit rs w2,
         Store.GetReadReceiptsForUser userID channelID limit w1 = (Ok rs, w2) → rs = [])
  end.
Proof.
  unfold Store.DeleteReadReceiptsForUser. intros H.
  apply master_write_run in H as (tape & [(-> & -> & _) | (-> & -> & _)]); [done |].
  simpl. split; [| split].
  - intros p. apply map_lookup_filter_None. right. intros row _. simpl. tauto.
  - intros p u Hu. destruct (PostReadReceipts (db w) !! (p, u)) as [row|] eqn:Hrow.
    + by apply map_lookup_filter_Some.
    + apply map_lookup_filter_None. by left.
  - intros channelID limit rs w2 Hget. unfold Store.GetReadReceiptsForUser in Hget.
    apply replica_read_Ok in Hget as (tape' & Hget). unfold ret in Hget.
    injection Hget as <- _. simpl.
    rewrite filter_receipts_nil; [done |].
    intros r' (row & Hrow & _) [Huser _].
    apply map_lookup_filter_Some in Hrow as [_ Hne]. simpl in Hne. congruence.
Qed.

(** X5.  [DeleteReadReceiptsForChannel] removes the rows filed under the
    channel and only those; a failed statement removes nothing.  Afterwards
    the channel has no receipts to list. *)
Theorem X5_DeleteReadReceiptsForChannel_removes_the_channel
    (w w1 : World) (channelID : string) (r : result StoreError unit) :
  Store.DeleteReadReceiptsForChannel channelID w = (r, w1) →
  match r with
  | Err _ => db w1 = db w
  | Ok _ =>
      (∀ k row, PostReadReceipts (db w1) !! k = Some row ↔
                PostReadReceipts (db w) !! k = Some row
                ∧ ReceiptRow.ChannelId row ≠ channelID) ∧
      (∀ since rs w2,
         Store.GetReadReceiptsForChannel channelID since w1 = (Ok rs, w2) → rs = [])
  end.
Proof.
  unfold Store.DeleteReadReceiptsForChannel. intros H.
  apply master_write_run in H as (tape & [(-> & -> & _) | (-> & -> & _)]); [done |].
  simpl. split.
  - intros k row. by rewrite map_lookup_filter_Some.
  - intros since rs w2 Hget. unfold Store.GetReadReceiptsForChannel in Hget.
    apply replica_read_Ok in Hget as (tape' & Hget). unfold ret in Hget.
    injection Hget as <- _. simpl.
    rewrite filter_receipts_nil; [done |].
    intros r' (row & Hrow & Hr') [Hchan _].
    apply map_lookup_filter_Some in Hrow as [_ Hne]. simpl in Hne.
    rewrite Hr' in Hchan. simpl in Hchan. congruence.
Qed.

(** ** Listings: filters, order and limit *)

Lemma limit_rows_take {A} (n : Z) (rows : list A) :
  Store.limit_rows n rows = take (Z.to_nat n) rows.
Proof.
  revert n. induction rows as [|row rest IH]; intros n; simpl.
  - by rewrite take_nil.
  - case_bool_decide as Hn.
    + by replace (Z.to_nat n) with 0%nat by lia.
    + replace (Z.to_nat n) with (S (Z.to_nat (n - 1))) by lia. simpl. by rewrite IH.
Qed.

Lemma uint64_small (n : Z) : 0 ≤ n < 2 ^ 63 → Store.uint64 n = n.
Proof. intros Hn. unfold Store.uint64. apply Z.mod_small. lia. Qed.

(** The first rows of a listing, at most [limit] of them, all of them when
    there are no more than that. *)
Lemma limit_rows_spec {A} (R : relation A) (limit : Z) (rows : list A) :
  0 ≤ limit < 2 ^ 63 →
  StronglySorted R rows →
  let rs := Store.limit_rows (Store.uint64 limit) rows in
  Z.of_nat (length rs) ≤ limit ∧
  StronglySorted R rs ∧
  (∀ x, x ∈ rs → x ∈ rows) ∧
  (Z.of_nat (length rows) ≤ limit → rs = rows).
Proof.
  intros Hlimit Hsorted rs. unfold rs. rewrite uint64_small by done.
  rewrite limit_rows_take. split; [rewrite length_take; lia |].
  split.
  { rewrite <- (take_drop (Z.to_nat limit) rows) in Hsorted.
    by apply StronglySorted_app_1_l in Hsorted. }
  split.
  { intros x Hx. by apply elem_of_take in Hx as (i & Hx & _); eapply list_elem_of_lookup_2. }
  intros Hall. apply take_ge. lia.
Qed.

Global Instance LastUpdated_desc_trans : Transitive Store.LastUpdated_desc.
Proof. unfold Store.LastUpdated_desc. intros a b c. lia. Qed.

Global Instance LastUpdated_desc_total : Total Store.LastUpdated_desc.
Proof. unfold Store.LastUpdated_desc. intros a b. lia. Qed.

Global Instance audit_CreateAt_desc_trans : Transitive Store.audit_CreateAt_desc.
Proof. unfold Store.audit_CreateAt_desc. intros a b c. lia. Qed.

Global Instance audit_CreateAt_desc_total : Total Store.audit_CreateAt_desc.
Proof. unfold Store.audit_CreateAt_desc. intros a b. lia. Qed.

Lemma elem_of_merge_sort {A} (R : relation A) `{∀ x y, Decision (R x y)} (l : list A) x :
  x ∈ merge_sort R l ↔ x ∈ l.
Proof. by rewrite (merge_sort_Permutation R l). Qed.

Lemma length_merge_sort {A} (R : relation A) `{∀ x y, Decision (R x y)} (l : list A) :
  length (merge_sort R l) = length l.
Proof. by rewrite (merge_sort_Permutation R l). Qed.

(** X6.  The history [GetUserReadReceiptHistory] returns holds stored
    receipts of the user, of the channel when one is named, the latest read
    first and no more than [limit] of them; when the user has no more than
    [limit], it holds them all.  The [since] argument plays no part: a
    receipt read before [since] is listed like any other. *)
Theorem X6_history_is_the_users_latest_receipts
    (w w' : World) (userId channelId : string) (since limit : Z)
    (rs : list PostReadReceipt.t) :
  GetUserReadReceiptHistory userId channelId since limit w = (Ok rs, w') →
  0 ≤ limit < 2 ^ 63 →
  let t := PostReadReceipts (db w) in
  let mine r := PostReadReceipt.UserId r = userId ∧
                (channelId ≠ "" → PostReadReceipt.ChannelId r = channelId) in
  Z.of_nat (length rs) ≤ limit ∧
  StronglySorted Store.ReadAt_desc rs ∧
  (∀ r, r ∈ rs → stored t r ∧ mine r) ∧
  (Z.of_nat (length (filter mine (Store.receipts_of t))) ≤ limit →
   ∀ r, stored t r → mine r → r ∈ rs) ∧
  db w' = db w.
Proof.
  intros H Hlimit t mine. unfold GetUserReadReceiptHistory in H.
  apply bind_Ok in H as (cfg & w1 & Hcfg & H). unfold gets in Hcfg. injection Hcfg as <- <-.
  destruct (EnableReadReceipts (Config w)); simpl in H; [| discriminate].
  unfold from_store in H.
  destruct (Store.GetReadReceiptsForUser userId channelId limit w) as [[rs'|e] w1] eqn:Hget;
    [| discriminate].
  injection H as <- <-. unfold Store.GetReadReceiptsForUser in Hget.
  apply replica_read_Ok in Hget as (tape & Hget). unfold ret in Hget.
  injection Hget as <- <-. simpl. fold t.
  change (λ r, PostReadReceipt.UserId r = userId ∧
               (channelId ≠ "" → PostReadReceipt.ChannelId r = channelId)) with mine.
  destruct (limit_rows_spec Store.ReadAt_desc limit
              (merge_sort Store.ReadAt_desc (filter mine (Store.receipts_of t))) Hlimit)
    as (Hlen & Hsorted & Hsub & Hall); [apply (StronglySorted_merge_sort _) |].
  split; [done |]. split; [done |]. split.
  - intros r Hr. apply Hsub, elem_of_merge_sort, list_elem_of_filter in Hr as [Hmine Hr].
    by apply elem_of_receipts_of in Hr.
  - split; [| done]. intros Hfew r Hr Hmine. rewrite Hall.
    + apply elem_of_merge_sort, list_elem_of_filter. split; [done |].
      by apply elem_of_receipts_of.
    + by rewrite length_merge_sort.
Qed.

(** X7.  [GetReadReceiptsForChannel] lists exactly the stored receipts filed
    under the channel, the latest read first; a positive [since] keeps those
    read at or after it, and zero or a negative one keeps them all. *)
Theorem X7_GetReadReceiptsForChannel_lists_the_channel
    (w w' : World) (channelID : string) (since : Z) (rs : list PostReadReceipt.t) :
  Store.GetReadReceiptsForChannel channelID since w = (Ok rs, w') →
  (∀ r, r ∈ rs ↔ stored (PostReadReceipts (db w)) r ∧
                 PostReadReceipt.ChannelId r = channelID ∧
                 (0 < since → since ≤ PostReadReceipt.ReadAt r)) ∧
  StronglySorted Store.ReadAt_desc rs ∧
  db w' = db w.
Proof.
  unfold Store.GetReadReceiptsForChannel. intros H.
  apply replica_read_Ok in H as (tape & H). unfold ret in H. injection H as <- <-.
  split; [| split; [apply (StronglySorted_merge_sort _) | done]].
  intros r. rewrite elem_of_merge_sort, list_elem_of_filter, elem_of_receipts_of. tauto.
Qed.

(** X8.  [GetReadReceiptAuditLogs] lists entries of the log that are the
    user's, the newest first and no more than [limit] of them; a positive
    [since] keeps those created at or after it.  When no more than [limit]
    entries qualify, all of them are listed. *)
Theorem X8_GetReadReceiptAuditLogs_lists_the_users_entries
    (w w' : World) (userID : string) (since limit : Z) (rs : list ReadReceiptAuditLog.t) :
  Store.GetReadReceiptAuditLogs userID since limit w = (Ok rs, w') →
  0 ≤ limit < 2 ^ 63 →
  let mine a := ReadReceiptAuditLog.UserId a = userID ∧
                (0 < since → since ≤ ReadReceiptAuditLog.CreateAt a) in
  Z.of_nat (length rs) ≤ limit ∧
  StronglySorted Store.audit_CreateAt_desc rs ∧
  (∀ a, a ∈ rs → a ∈ ReadReceiptAuditLogs (db w) ∧ mine a) ∧
  (Z.of_nat (length (filter mine (ReadReceiptAuditLogs (db w)))) ≤ limit →
   ∀ a, a ∈ ReadReceiptAuditLogs (db w) → mine a → a ∈ rs) ∧
  db w' = db w.
Proof.
  intros H Hlimit mine. unfold Store.GetReadReceiptAuditLogs in H.
  apply replica_read_Ok in H as (tape & H). unfold ret in H. injection H as <- <-. simpl.
  change (λ a, ReadReceiptAuditLog.UserId a = userID ∧
               (0 < since → since ≤ ReadReceiptAuditLog.CreateAt a)) with mine.
  destruct (limit_rows_spec Store.audit_CreateAt_desc limit
              (merge_sort Store.audit_CreateAt_desc
                 (filter mine (ReadReceiptAuditLogs (db w)))) Hlimit)
    as (Hlen & Hsorted & Hsub & Hall); [apply (StronglySorted_merge_sort _) |].
  split; [done |]. split; [done |]. split.
  - intros a Ha. apply Hsub, elem_of_merge_sort, list_elem_of_filter in Ha. tauto.
  - split; [| done]. intros Hfew a Ha Hmine. rewrite Hall.
    + by apply elem_of_merge_sort, list_elem_of_filter.
    + by rewrite length_merge_sort.
Qed.

(** ** The channel's summaries *)

Lemma elem_of_summaries_of t s : s ∈ Store.summaries_of t ↔ summarized t s.
Proof.
  unfold Store.summaries_of, summarized. rewrite list_elem_of_fmap. split.
  - intros ([k row] & -> & Hin). apply elem_of_map_to_list in Hin. by exists row.
  - intros (row & Hrow & Hs). exists (PostReadReceiptSummary.PostId s, row).
    split; [done |]. by apply elem_of_map_to_list.
Qed.

Lemma replica_read_run {A} wrap (f : Db → M StoreError A) w r w' :
  (bind (GetReplica_Query wrap) (λ _, bind (gets db) f)) w = (r, w') →
  ∃ tape,
    (r = Err (ErrWrap wrap) ∧ w' = set_replica_faults tape w) ∨
    f (db w) (set_replica_faults tape w) = (r, w').
Proof.
  unfold bind at 1. unfold GetReplica_Query.
  destruct (next_outcome (replica_faults w)) as [[] tape]; intros H; exists tape.
  - left. by injection H as <- <-.
  - by right.
Qed.

Section FeatureGate.

Variable IsValidId : string → bool.

(** X9.  With [EnableReadReceipts] off every entry point of the application
    layer answers 501 and does nothing else: no table is read or written, no
    statement is sent and no event is published. *)
Theorem X9_disabled_feature_refuses_every_call
    (w : World) (userId postId channelId deviceId : string) (readAt since limit : Z)
    (includeDeleted : bool) (batchRequest : ReadReceiptBatchRequest.t) :
  EnableReadReceipts (Config w) = false →
  refused (SaveReadReceiptForPost IsValidId userId postId readAt deviceId) w
    StatusNotImplemented ∧
  refused (SaveReadReceiptBatch IsValidId userId batchRequest) w StatusNotImplemented ∧
  refused (GetReadReceiptInfoForPost postId userId includeDeleted) w StatusNotImplemented ∧
  refused (DeleteReadReceiptForPost userId postId) w StatusNotImplemented ∧
  refused (GetChannelReadReceiptSummary channelId userId since) w StatusNotImplemented ∧
  refused (GetUserReadReceiptHistory userId channelId since limit) w StatusNotImplemented ∧
  refused (BackfillReadReceiptsForChannel channelId) w StatusNotImplemented.
Proof.
  intros Hoff. unfold refused.
  unfold SaveReadReceiptForPost, SaveReadReceiptBatch, GetReadReceiptInfoForPost,
    DeleteReadReceiptForPost, GetChannelReadReceiptSummary, GetUserReadReceiptHistory,
    BackfillReadReceiptsForChannel.
  unfold bind, gets. rewrite Hoff. simpl. unfold throw.
  repeat split; by eexists.
Qed.

End FeatureGate.

(** X10.  [GetChannelReadReceiptSummary], with the feature on.  An unknown
    channel is a 404 and a channel of a type that keeps no receipts a 400,
    both before the store is asked; a failed query is a 500.  Otherwise the
    answer holds exactly the stored summaries filed under the channel, those
    updated at or after a positive [since], the last updated first.  The
    requesting user plays no part, and nothing is written or published. *)
Theorem X10_GetChannelReadReceiptSummary_lists_the_channel
    (w w' : World) (channelId userId : string) (since : Z)
    (r : result AppError.t (list PostReadReceiptSummary.t)) :
  GetChannelReadReceiptSummary channelId userId since w = (r, w') →
  EnableReadReceipts (Config w) = true →
  db w' = db w ∧ published w' = published w ∧
  match r with
  | Ok rs =>
      eligible_channel w channelId = true ∧
      StronglySorted Store.LastUpdated_desc rs ∧
      ∀ s, s ∈ rs ↔ summarized (PostReadReceiptSummary (db w)) s ∧
                    PostReadReceiptSummary.ChannelId s = channelId ∧
                    (0 < since → since ≤ PostReadReceiptSummary.LastUpdated s)
  | Err e =>
      match Channels (db w) !! channelId with
      | None => AppError.StatusCode e = StatusNotFound ∧ w' = w
      | Some _ =>
          if eligible_channel w channelId
          then AppError.StatusCode e = StatusInternalServerError
          else AppError.StatusCode e = StatusBadRequest ∧ w' = w
      end
  end.
Proof.
  intros H Hon. unfold GetChannelReadReceiptSummary in H.
  unfold bind at 1 in H. unfold gets at 1 in H. rewrite Hon in H. simpl in H.
  unfold bind at 1 in H. rewrite GetChannel_run in H. unfold eligible_channel.
  destruct (Channels (db w) !! channelId) as [ty|].
  2: { unfold throw in H. by injection H as <- <-. }
  destruct (allowedChannelType (Config w) (Channel.mk channelId ty)); simpl in H.
  2: { unfold throw in H. by injection H as <- <-. }
  unfold from_store in H.
  destruct (Store.GetReadReceiptSummariesForChannel channelId since w) as [r0 w0] eqn:Hq.
  unfold Store.GetReadReceiptSummariesForChannel in Hq.
  apply replica_read_run in Hq as (tape & [[-> ->] | Hq]).
  - by injection H as <- <-.
  - unfold ret in Hq. injection Hq as <- <-. injection H as <- <-.
    split; [done |]. split; [done |]. split; [done |].
    split; [apply (StronglySorted_merge_sort _) |].
    intros s. rewrite elem_of_merge_sort, list_elem_of_filter, elem_of_summaries_of. tauto.
Qed.

(** ** Retention and anonymization *)

Lemma int64_small (n : Z) : - 2 ^ 63 ≤ n < 2 ^ 63 → Store.int64 n = n.
Proof. intros Hn. unfold Store.int64. rewrite Z.mod_small; lia. Qed.

(** X11.  [CleanupOldReadReceipts] removes the receipts created before the
    cutoff and no other, and returns how many it removed.  When the statement
    fails nothing is removed.  Short of an overflow the cutoff lies [daysOld]
    days of 86,400,000 ms before the clock's reading. *)
Theorem X11_CleanupOldReadReceipts_removes_what_is_older
    (w w' : World) (daysOld : Z) (r : result StoreError Z) :
  Store.CleanupOldReadReceipts daysOld w = (r, w') →
  let t := PostReadReceipts (db w) in
  let cutoff := Store.cleanup_cutoff (millis w) daysOld in
  match r with
  | Err _ => db w' = db w
  | Ok n =>
      (∀ k row, PostReadReceipts (db w') !! k = Some row ↔
                t !! k = Some row ∧ cutoff ≤ ReceiptRow.CreateAt row) ∧
      n = Z.of_nat (size (filter (λ kv, ReceiptRow.CreateAt kv.2 < cutoff) t)) ∧
      n = Z.of_nat (size t) - Z.of_nat (size (PostReadReceipts (db w'))) ∧
      PostReadReceiptSummary (db w') = PostReadReceiptSummary (db w) ∧
      ReadReceiptAuditLogs (db w') = ReadReceiptAuditLogs (db w)
  end ∧
  (- 2 ^ 31 ≤ daysOld ≤ 2 ^ 31 → 0 ≤ millis w < 2 ^ 62 →
   cutoff = millis w - daysOld * 86400000).
Proof.
  intros H t cutoff. split.
  - unfold Store.CleanupOldReadReceipts in H. unfold GetMillis in H.
    unfold bind at 1 in H. unfold gets at 1 in H.
    unfold bind at 1 in H. unfold GetMaster_Exec in H.
    destruct (next_outcome (master_faults w)) as [[] tape].
    + by injection H as <- <-.
    + unfold_monad. injection H as <- <-. simpl. fold t. fold cutoff.
      split.
      * intros k row. rewrite map_lookup_filter_Some. simpl. intuition lia.
      * set (P := λ kv : (string * string) * ReceiptRow.t,
                    ReceiptRow.CreateAt kv.2 < cutoff).
        assert (size t = size (filter P t) + size (filter (λ kv, ¬ P kv) t))%nat as Hsize.
        { rewrite <- (map_filter_union_complement P t) at 1.
          apply map_size_disj_union, map_disjoint_filter_complement. }
        split; [| done]. rewrite Hsize, Nat2Z.inj_add. apply Z.add_simpl_r.
  - intros Hdays Hnow. unfold cutoff, Store.cleanup_cutoff.
    rewrite (int64_small (daysOld * 24)) by lia.
    rewrite (int64_small (daysOld * 24 * 60)) by lia.
    rewrite (int64_small (daysOld * 24 * 60 * 60)) by lia.
    rewrite (int64_small (daysOld * 24 * 60 * 60 * 1000)) by lia.
    rewrite int64_small by lia. lia.
Qed.

Lemma map_size_imap_Some {A B} (g : string * string → A → B)
    (m : gmap (string * string) A) :
  size (map_imap (λ k x, Some (g k x)) m) = size m.
Proof.
  induction m as [|k x m Hk IH] using map_ind.
  - by rewrite map_imap_empty.
  - rewrite (map_imap_insert_Some _ _ _ _ (g k x)) by done.
    rewrite !map_size_insert_None; [by rewrite IH | done |].
    by rewrite map_lookup_imap, Hk.
Qed.

(** X12.  [AnonymizeReadReceiptsForUser] blanks the device and the session
    of the user's receipts and of no other.  Which posts the user has read,
    in which channel and when, stays on record: no receipt is removed and no
    time is changed. *)
Theorem X12_AnonymizeReadReceiptsForUser_scrubs_the_device
    (w w' : World) (userID : string) (r : result StoreError unit) :
  Store.AnonymizeReadReceiptsForUser userID w = (r, w') →
  match r with
  | Err _ => db w' = db w
  | Ok _ =>
      (∀ k, k.2 = userID →
         PostReadReceipts (db w') !! k = Store.anonymized <$> PostReadReceipts (db w) !! k) ∧
      (∀ k, k.2 ≠ userID → PostReadReceipts (db w') !! k = PostReadReceipts (db w) !! k) ∧
      (∀ s, stored (PostReadReceipts (db w')) s → PostReadReceipt.UserId s = userID →
         PostReadReceipt.DeviceId s = "ANONYMIZED" ∧
         PostReadReceipt.DeviceType s = DeviceTypeUnknown ∧
         PostReadReceipt.SessionId s = "") ∧
      (∀ k, ∃ keep : ReceiptRow.t → ReceiptRow.t,
         PostReadReceipts (db w') !! k = keep <$> PostReadReceipts (db w) !! k ∧
         ∀ row, ReceiptRow.ChannelId (keep row) = ReceiptRow.ChannelId row ∧
                ReceiptRow.ReadAt (keep row) = ReceiptRow.ReadAt row ∧
                ReceiptRow.CreateAt (keep row) = ReceiptRow.CreateAt row) ∧
      size (PostReadReceipts (db w')) = size (PostReadReceipts (db w))
  end.
Proof.
  intros H. unfold Store.AnonymizeReadReceiptsForUser in H.
  apply master_write_run in H as (tape & [(-> & -> & _) | (-> & -> & _)]); [done |].
  simpl.
  assert (Hlookup : ∀ k,
    map_imap (λ (k : string * string) row,
                Some (if decide (k.2 = userID) then Store.anonymized row else row))
      (PostReadReceipts (db w)) !! k
    = (λ row, if decide (k.2 = userID) then Store.anonymized row else row)
        <$> PostReadReceipts (db w) !! k).
  { intros k. rewrite map_lookup_imap. by destruct (PostReadReceipts (db w) !! k). }
  split; [| split; [| split; [| split]]].
  - intros k Hk. rewrite Hlookup. by destruct (decide _).
  - intros k Hk. rewrite Hlookup. destruct (decide _); [done |].
    by destruct (PostReadReceipts (db w) !! k).
  - intros s (row & Hrow & Hs) Hu. rewrite Hlookup in Hrow.
    destruct (decide _) as [_ | Hne]; [| by destruct Hne].
    destruct (PostReadReceipts (db w) !! Store.receipt_key s) as [old|]; [| done].
    injection Hrow as <-. by rewrite Hs.
  - intros k. exists (λ row, if decide (k.2 = userID) then Store.anonymized row else row).
    split; [apply Hlookup |]. intros row. by destruct (decide _).
  - apply (map_size_imap_Some
             (λ k row, if decide (k.2 = userID) then Store.anonymized row else row)).
Qed.

(** ** Read state of a user *)

Lemma GetReplica_Query_reliable wrap w :
  reliable (replica_faults w) →
  ∃ tape, GetReplica_Query wrap w = (Ok tt, set_replica_faults tape w) ∧ reliable tape.
Proof.
  intros (tape & Hnext & Htape)%next_outcome_reliable. exists tape.
  unfold GetReplica_Query. by rewrite Hnext.
Qed.

Lemma GetReadReceiptInfo_reads postID w :
  db (Store.GetReadReceiptInfo postID w).2 = db w.
Proof.
  unfold Store.GetReadReceiptInfo, Store.GetReadReceiptsForPost.
  unfold bind, GetReplica_Query, gets, ret, throw.
  repeat (match goal with
          | |- context [next_outcome ?t] => destruct (next_outcome t) as [[] ?]
          end; simpl; try done).
  destruct (Posts (db w) !! postID); simpl; [| done].
  repeat (match goal with
          | |- context [next_outcome ?t] => destruct (next_outcome t) as [[] ?]
          end; simpl; try done).
Qed.

Lemma GetReadReceiptInfo_reliable postID w :
  reliable (replica_faults w) →
  reliable (replica_faults (Store.GetReadReceiptInfo postID w).2) ∧
  (is_Some (Posts (db w) !! postID) → ∃ info, (Store.GetReadReceiptInfo postID w).1 = Ok info).
Proof.
  intros Hw. destruct (Store.GetReadReceiptInfo postID w) as [r w'] eqn:H. simpl.
  unfold Store.GetReadReceiptInfo, Store.GetReadReceiptsForPost in H.
  unfold bind at 1 in H. unfold bind at 1 in H.
  destruct (GetReplica_Query_reliable "get_read_receipts_for_post" w Hw) as (t1 & Hq1 & Ht1).
  rewrite Hq1 in H. unfold bind at 1 in H. unfold gets at 1 in H. unfold ret at 1 in H.
  unfold bind at 1 in H.
  destruct (GetReplica_Query_reliable "get_read_receipt_info_post"
              (set_replica_faults t1 w) Ht1) as (t2 & Hq2 & Ht2).
  rewrite Hq2 in H. unfold bind at 1 in H. unfold gets at 1 in H. simpl in H.
  destruct (Posts (db w) !! postID) as [post|].
  - unfold bind at 1 in H.
    destruct (GetReplica_Query_reliable "get_read_receipt_info_members"
                (set_replica_faults t2 (set_replica_faults t1 w)) Ht2) as (t3 & Hq3 & Ht3).
    rewrite Hq3 in H. unfold ret in H. injection H as <- <-. simpl. split; [done |]. eauto.
  - unfold throw in H. injection H as <- <-. simpl. split; [done |]. by intros [? [=]].
Qed.

Lemma info_batch_run postIDs result w :
  ∃ m w',
    Store.info_batch postIDs result w = (Ok m, w') ∧
    db w' = db w ∧
    (∀ id info, m !! id = Some info →
       result !! id = Some info ∨
       (id ∈ postIDs ∧ ∃ w1 w2, db w1 = db w ∧
                                Store.GetReadReceiptInfo id w1 = (Ok info, w2))) ∧
    (reliable (replica_faults w) →
     ∀ id, is_Some (result !! id) ∨ (id ∈ postIDs ∧ is_Some (Posts (db w) !! id)) →
           is_Some (m !! id)).
Proof.
  revert result w. induction postIDs as [|postID rest IH]; intros result w; simpl.
  - exists result, w. unfold ret. split; [done |]. split; [done |]. split; [by left |].
    intros _ id [H | [H _]]; [done |]. by apply elem_of_nil in H.
  - unfold bind, attempt.
    pose proof (GetReadReceiptInfo_reads postID w) as Hdb.
    pose proof (GetReadReceiptInfo_reliable postID w) as Hrel.
    destruct (Store.GetReadReceiptInfo postID w) as [[info|e] w1] eqn:Hinfo; simpl in *.
    + destruct (IH (<[postID := info]> result) w1) as (m & w' & -> & Hdb' & Hin & Hall).
      exists m, w'. split; [done |]. split; [congruence |]. split.
      * intros id info' Hm. destruct (Hin id info' Hm) as [Hres | (Hid & w2 & w3 & Hw2 & Hget)].
        -- destruct (decide (id = postID)) as [-> | Hne].
           ++ rewrite lookup_insert_eq in Hres. injection Hres as <-.
              right. split; [left |]. by exists w, w1.
           ++ rewrite lookup_insert_ne in Hres by done. by left.
        -- right. split; [by right |]. exists w2, w3. split; [congruence | done].
      * intros Hw id Hid. apply Hall; [by apply Hrel |]. rewrite Hdb.
        destruct (decide (id = postID)) as [-> | Hne].
        -- left. rewrite lookup_insert_eq. eauto.
        -- rewrite lookup_insert_ne by done.
           destruct Hid as [H | [H Hp]]; [by left |].
           apply elem_of_cons in H as [-> | H]; [done | by right].
    + destruct (IH result w1) as (m & w' & -> & Hdb' & Hin & Hall).
      exists m, w'. split; [done |]. split; [congruence |]. split.
      * intros id info' Hm. destruct (Hin id info' Hm) as [Hres | (Hid & w2 & w3 & Hw2 & Hget)].
        -- by left.
        -- right. split; [by right |]. exists w2, w3. split; [congruence | done].
      * intros Hw id Hid. apply Hall; [by apply Hrel |]. rewrite Hdb.
        destruct Hid as [H | [H Hp]]; [by left |].
        apply elem_of_cons in H as [-> | H]; [| by right].
        destruct Hrel as [_ Hok]; [done |]. destruct (Hok Hp) as [info [=]].
Qed.

(** X13.  [GetReadReceiptInfoBatch] never fails: a post whose info cannot be
    had is left out of the answer.  An entry of the answer is the info of a
    requested post that exists, with that post's receipts; and when the
    replica answers every query, every requested post that exists has its
    entry. *)
Theorem X13_GetReadReceiptInfoBatch_skips_what_fails (w : World) (postIDs : list string) :
  ∃ m w',
    Store.GetReadReceiptInfoBatch postIDs w = (Ok m, w') ∧
    db w' = db w ∧
    (∀ id info, m !! id = Some info →
       id ∈ postIDs ∧ is_Some (Posts (db w) !! id) ∧
       PostReadReceiptInfo.PostId info = id ∧
       PostReadReceiptInfo.ReadReceipts info
         = Store.select_for_post id (PostReadReceipts (db w)) ∧
       PostReadReceiptInfo.ReadCount info
         = Z.of_nat (length (PostReadReceiptInfo.ReadReceipts info))) ∧
    (reliable (replica_faults w) →
     ∀ id, id ∈ postIDs → is_Some (Posts (db w) !! id) → is_Some (m !! id)).
Proof.
  unfold Store.GetReadReceiptInfoBatch.
  destruct (info_batch_run postIDs ∅ w) as (m & w' & Hrun & Hdb & Hin & Hall).
  exists m, w'. split; [done |]. split; [done |]. split.
  - intros id info Hm.
    destruct (Hin id info Hm) as [Hres | (Hid & w1 & w2 & Hw1 & Hget)]; [done |].
    apply GetReadReceiptInfo_Ok in Hget as (_ & _ & post & Hpost & ->).
    rewrite Hw1 in *. simpl. eauto.
  - intros Hw id Hid Hpost. apply Hall; [done |]. by right.
Qed.

Lemma max_ReadAt_foldl (l : list PostReadReceipt.t) (a : Z) :
  let m := foldl (λ m r', Z.max m (PostReadReceipt.ReadAt r')) a l in
  a ≤ m ∧
  (∀ r, r ∈ l → PostReadReceipt.ReadAt r ≤ m) ∧
  (m = a ∨ ∃ r, r ∈ l ∧ PostReadReceipt.ReadAt r = m).
Proof.
  revert a. induction l as [|x l IH]; intros a; simpl.
  - split; [lia |]. split; [| by left]. by intros r ?%elem_of_nil.
  - destruct (IH (Z.max a (PostReadReceipt.ReadAt x))) as (Hle & Hub & Hatt).
    split; [lia |]. split.
    + intros r [-> | Hr]%elem_of_cons; [lia | by apply Hub].
    + destruct Hatt as [Heq | (r & Hr & Heq)].
      * destruct (Z.max_spec a (PostReadReceipt.ReadAt x)) as [[_ Hmax] | [_ Hmax]].
        -- right. exists x. split; [left | congruence].
        -- left. congruence.
      * right. exists r. split; [by right | done].
Qed.

(** X14.  [GetLastReadTime] is the latest [ReadAt] among the user's stored
    receipts of the channel: one of them carries it and none is later.  It is
    zero when the user has no receipt there. *)
Theorem X14_GetLastReadTime_is_the_latest_read
    (w w' : World) (channelID userID : string) (n : Z) :
  Store.GetLastReadTime channelID userID w = (Ok n, w') →
  let t := PostReadReceipts (db w) in
  let mine r := PostReadReceipt.ChannelId r = channelID ∧ PostReadReceipt.UserId r = userID in
  (∀ r, stored t r → mine r →
     PostReadReceipt.ReadAt r ≤ n ∧
     ∃ latest, stored t latest ∧ mine latest ∧ PostReadReceipt.ReadAt latest = n) ∧
  ((∀ r, stored t r → ¬ mine r) → n = 0) ∧
  db w' = db w.
Proof.
  intros H t mine. unfold Store.GetLastReadTime in H.
  apply replica_read_Ok in H as (tape & H). simpl in H. fold t in H.
  change (λ r, PostReadReceipt.ChannelId r = channelID ∧ PostReadReceipt.UserId r = userID)
    with mine in H.
  assert (Hmem : ∀ r, r ∈ filter mine (Store.receipts_of t) ↔ mine r ∧ stored t r).
  { intros r. by rewrite list_elem_of_filter, elem_of_receipts_of. }
  destruct (filter mine (Store.receipts_of t)) as [|x l] eqn:Hl; simpl in H;
    unfold ret in H; injection H as <- <-.
  - split; [| done]. intros r Hr Hmine.
    assert (r ∈ @nil PostReadReceipt.t) as []%elem_of_nil. by apply Hmem.
  - split; [| split; [| done]].
    + destruct (max_ReadAt_foldl l (PostReadReceipt.ReadAt x)) as (Hle & Hub & Hatt).
      intros r Hr Hmine. split.
      * assert (r ∈ x :: l) as [-> | Hin]%elem_of_cons by (by apply Hmem);
          [done | by apply Hub].
      * destruct Hatt as [Heq | (r' & Hr' & Heq)].
        -- exists x. assert (x ∈ x :: l) as Hx by left. apply Hmem in Hx as [? ?]. done.
        -- exists r'. assert (r' ∈ x :: l) as Hx by (by right).
           apply Hmem in Hx as [? ?]. done.
    + intros Hnone. assert (x ∈ x :: l) as Hx by left. apply Hmem in Hx as [Hm Hs].
      by destruct (Hnone x Hs).
Qed.

Lemma length_filter_map_to_list {A} (P : string * A → Prop) `{!∀ x, Decision (P x)}
    (m : gmap string A) :
  length (filter P (map_to_list m)) = size (filter P m).
Proof.
  rewrite <- length_map_to_list, map_filter_alt.
  symmetry. apply Permutation_length, map_to_list_to_map.
  apply NoDup_fmap_filter, NoDup_fst_map_to_list.
Qed.

(** X15.  Saving a receipt takes the post off the user's unread count, and
    nothing else: [GetUnreadPostsCount] drops by one when the post was
    counted (it is in the channel, was created at or after [since] and had no
    receipt of the user), and stays as it was otherwise. *)
Theorem X15_a_saved_receipt_lowers_the_unread_count
    (w w0 w1 w2 : World) (r s : PostReadReceipt.t) (channelID : string) (since n n' : Z) :
  Store.GetUnreadPostsCount channelID (PostReadReceipt.UserId r) since w = (Ok n, w0) →
  Store.SaveReadReceipt r w = (Ok s, w1) →
  Store.GetUnreadPostsCount channelID (PostReadReceipt.UserId r) since w1 = (Ok n', w2) →
  0 ≤ n' ∧
  n' = match Posts (db w) !! PostReadReceipt.PostId r with
       | Some post =>
           if decide (unread_post (db w) channelID (PostReadReceipt.UserId r) since
                        (PostReadReceipt.PostId r, post))
           then n - 1 else n
       | None => n
       end.
Proof.
  intros Hn Hsave Hn'.
  unfold Store.GetUnreadPostsCount in Hn, Hn'.
  apply replica_read_Ok in Hn as (tape & Hn). unfold ret in Hn. injection Hn as <- _.
  apply replica_read_Ok in Hn' as (tape' & Hn'). unfold ret in Hn'. injection Hn' as <- _.
  apply SaveReadReceipt_Ok in Hsave as (Hs & Hdb & _).
  set (u := PostReadReceipt.UserId r). set (p := PostReadReceipt.PostId r).
  change (λ kv : string * PostRow.t,
            PostRow.ChannelId kv.2 = channelID ∧ since ≤ PostRow.CreateAt kv.2 ∧
            PostReadReceipts (db w) !! (kv.1, u) = None)
    with (unread_post (db w) channelID u since).
  change (λ kv : string * PostRow.t,
            PostRow.ChannelId kv.2 = channelID ∧ since ≤ PostRow.CreateAt kv.2 ∧
            PostReadReceipts (db w1) !! (kv.1, u) = None)
    with (unread_post (db w1) channelID u since).
  rewrite !length_filter_map_to_list. split; [lia |].
  assert (Hposts : Posts (db w1) = Posts (db w)) by (by rewrite Hdb).
  rewrite Hposts.
  assert (Hkey : Store.receipt_key s = (p, u)) by (by rewrite Hs).
  match goal with |- Z.of_nat (size ?m) = _ => set (after := m) end.
  match goal with |- context [Z.of_nat (size ?m) - 1] => set (before := m) end.
  assert (Hbefore : ∀ id post, before !! id = Some post ↔
            Posts (db w) !! id = Some post ∧ unread_post (db w) channelID u since (id, post)).
  { intros id post. apply map_lookup_filter_Some. }
  assert (Hafter : after = delete p before).
  { apply map_eq. intros id. apply option_eq. intros post.
    rewrite lookup_delete_Some, Hbefore. unfold after.
    rewrite map_lookup_filter_Some. unfold unread_post. simpl.
    rewrite Hdb. simpl.
    destruct (decide (id = p)) as [-> | Hne].
    - destruct (upsert_receipt_lookup s (PostReadReceipts (db w))) as (row & Hrow & _).
      rewrite Hkey in Hrow. rewrite Hrow. intuition congruence.
    - rewrite upsert_receipt_other by (rewrite Hkey; congruence).
      assert (p ≠ id) by congruence. tauto. }
  rewrite Hafter.
  destruct (Posts (db w) !! p) as [post|] eqn:Hpost.
  - destruct (decide _) as [Hyes | Hno].
    + assert (before !! p = Some post) as Hin by (by apply Hbefore).
      rewrite map_size_delete_Some by done.
      assert (size before ≠ 0)%nat; [| lia].
      intros Hempty%map_size_empty_iff. by rewrite Hempty in Hin.
    + rewrite map_size_delete_None; [done |].
      destruct (before !! p) as [post'|] eqn:Hin; [| done].
      apply Hbefore in Hin as [Hp Hu]. rewrite Hpost in Hp. by injection Hp as <-.
  - rewrite map_size_delete_None; [done |].
    destruct (before !! p) as [post'|] eqn:Hin; [| done].
    apply Hbefore in Hin as [Hp Hu]. by rewrite Hpost in Hp.
Qed.

(** X16.  A ghost read leaves no receipt: [SaveGhostReadReceipt] writes one
    [ghost_read] entry for the user and the post in the audit log, stamped
    with the clock, and the receipts and the summaries are as before.  When
    the statement fails nothing is written. *)
Theorem X16_SaveGhostReadReceipt_writes_the_audit_log_only
    (w w' : World) (receipt : PostReadReceipt.t) (r : result StoreError unit) :
  Store.SaveGhostReadReceipt receipt w = (r, w') →
  PostReadReceipts (db w') = PostReadReceipts (db w) ∧
  PostReadReceiptSummary (db w') = PostReadReceiptSummary (db w) ∧
  match r with
  | Err _ => db w' = db w
  | Ok _ =>
      ∃ audit,
        ReadReceiptAuditLogs (db w') = ReadReceiptAuditLogs (db w) ++ [audit] ∧
        ReadReceiptAuditLog.Action audit = ReadReceiptActionGhostRead ∧
        ReadReceiptAuditLog.UserId audit = PostReadReceipt.UserId receipt ∧
        ReadReceiptAuditLog.PostId audit = PostReadReceipt.PostId receipt ∧
        ReadReceiptAuditLog.CreateAt audit = millis w
  end.
Proof.
  unfold Store.SaveGhostReadReceipt, Store.SaveReadReceiptAuditLog, NewId, GetMillis.
  unfold bind at 1. unfold bind at 1. unfold gets at 1. intros H.
  apply master_write_run in H as (tape & [(-> & -> & _) | (-> & -> & _)]); [done |].
  simpl. split; [done |]. split; [done |]. by eexists.
Qed.

(** ** Validation *)

Section ValidationRules.

Variable IsValidId : string → bool.

Lemma first_invalid_id_false (postIds : list string) :
  first_invalid_id IsValidId postIds = false ↔ ∀ id, id ∈ postIds → IsValidId id = true.
Proof.
  induction postIds as [|postId rest IH]; simpl.
  - split; [| done]. by intros _ id ?%elem_of_nil.
  - destruct (IsValidId postId) eqn:Hid; simpl.
    + rewrite IH. split.
      * intros Hrest id [-> | Hin]%elem_of_cons; [done | by apply Hrest].
      * intros Hall id Hin. apply Hall. by right.
    + split; [done |]. intros Hall. rewrite Hall in Hid; [done | left].
Qed.

(** X17.  [ReadReceiptBatchRequest.IsValid] accepts a request exactly when
    it names between one and [ReadReceiptMaxBatchSize] posts, every post id
    is a valid id, and the channel id is empty or a valid id.  Whatever it
    rejects, it rejects with status 400. *)
Theorem X17_ReadReceiptBatchRequest_IsValid_accepts (r : ReadReceiptBatchRequest.t) :
  (ReadReceiptBatchRequest_IsValid IsValidId r = None ↔
   1 ≤ Z.of_nat (length (ReadReceiptBatchRequest.PostIds r)) ≤ ReadReceiptMaxBatchSize ∧
   (∀ id, id ∈ ReadReceiptBatchRequest.PostIds r → IsValidId id = true) ∧
   (ReadReceiptBatchRequest.ChannelId r = ""
    ∨ IsValidId (ReadReceiptBatchRequest.ChannelId r) = true)) ∧
  (∀ e, ReadReceiptBatchRequest_IsValid IsValidId r = Some e →
        AppError.StatusCode e = StatusBadRequest).
Proof.
  unfold ReadReceiptBatchRequest_IsValid.
  pose proof (first_invalid_id_false (ReadReceiptBatchRequest.PostIds r)) as Hids.
  destruct (decide _) as [Hzero | Hsome].
  { split; [| by intros e [= <-]]. split; [done |]. rewrite Hzero. lia. }
  case_bool_decide as Hmax.
  { split; [| by intros e [= <-]]. split; [done |]. lia. }
  destruct (first_invalid_id IsValidId (ReadReceiptBatchRequest.PostIds r)).
  { split; [| by intros e [= <-]]. split; [done |].
    intros (_ & Hall & _). apply Hids in Hall. done. }
  case_bool_decide as Hchannel; simpl.
  - destruct (IsValidId (ReadReceiptBatchRequest.ChannelId r)); simpl.
    + split; [| done]. split; [| done]. intros _.
      split; [lia |]. split; [by apply Hids | by right].
    + split; [| by intros e [= <-]]. split; [done |]. by intros (_ & _ & [? | ?]).
  - split; [| done]. split; [| done]. intros _.
    split; [lia |]. split; [by apply Hids |]. left.
    by destruct (decide (ReadReceiptBatchRequest.ChannelId r = "")).
Qed.

(** X18.  A receipt that has gone through [PreSave] under a running clock
    passes [PostReadReceipt.IsValid] exactly when its three ids are valid and
    its device type was empty or one of desktop, mobile, web, unknown: the
    times and the empty device type are filled in by [PreSave].  The receipts
    the backfill synthesizes carry the device type "backfill" and never
    pass, while the device types the application and the store derive from a
    device id are always among the four. *)
Theorem X18_IsValid_after_PreSave (now : Z) (r : PostReadReceipt.t) :
  now ≠ 0 →
  (IsValid IsValidId (presaved now r) = None ↔
   IsValidId (PostReadReceipt.PostId r) = true ∧
   IsValidId (PostReadReceipt.UserId r) = true ∧
   IsValidId (PostReadReceipt.ChannelId r) = true ∧
   (PostReadReceipt.DeviceType r = "" ∨ PostReadReceipt.DeviceType r ∈ validDeviceTypes)) ∧
  (∀ channelId member post,
     is_Some (IsValid IsValidId (presaved now (backfill_receipt channelId member post)))) ∧
  (∀ deviceId, DetectDeviceType deviceId ∈ validDeviceTypes ∧
               Store.batch_deviceType deviceId ∈ validDeviceTypes).
Proof.
  intros Hnow.
  assert (Htime : ∀ t, ((if t =? 0 then now else t) =? 0) = false).
  { intros t. destruct (t =? 0) eqn:Ht; lia. }
  split.
  - unfold IsValid, presaved. simpl. rewrite !Htime.
    destruct (IsValidId (PostReadReceipt.PostId r)); simpl; [| by intuition].
    destruct (IsValidId (PostReadReceipt.UserId r)); simpl; [| by intuition].
    destruct (IsValidId (PostReadReceipt.ChannelId r)); simpl; [| by intuition].
    destruct (decide (PostReadReceipt.DeviceType r = "")) as [-> | Hne].
    + simpl. intuition.
    + rewrite bool_decide_eq_true_2 by done. simpl.
      case_bool_decide as Hin; simpl; [by intuition |].
      split; [done |]. by intros (_ & _ & _ & [? | ?]).
  - split.
    + intros channelId member post. unfold IsValid, presaved, backfill_receipt. simpl.
      rewrite !Htime. repeat case_match; eauto.
    + intros deviceId. unfold DetectDeviceType, Store.batch_deviceType, validDeviceTypes.
      split; repeat case_match; repeat constructor.
Qed.

End ValidationRules.

(** ** The user's settings *)

Lemma foldl_apply_preference (prefs : list Preference.t) (settings : UserReadReceiptSettings.t) :
  let named name p := Preference.Category p = PreferenceCategoryReadReceipts ∧
                      Preference.Name p = name in
  UserReadReceiptSettings.ReceiptMode (foldl apply_preference settings prefs)
    = from_option Preference.Value (UserReadReceiptSettings.ReceiptMode settings)
        (last (filter (named "receipt_mode") prefs)) ∧
  UserReadReceiptSettings.ShowOthersReceipts (foldl apply_preference settings prefs)
    = from_option Preference.Value (UserReadReceiptSettings.ShowOthersReceipts settings)
        (last (filter (named "show_others_receipts") prefs)).
Proof.
  intros named. induction prefs as [|pref prefs IH] using rev_ind; [done |].
  rewrite foldl_snoc, !filter_app, !filter_cons, !filter_nil.
  destruct IH as [IHmode IHshow].
  set (acc := foldl apply_preference settings prefs) in *.
  unfold apply_preference.
  destruct (decide (Preference.Category pref = PreferenceCategoryReadReceipts)) as [Hc | Hc].
  - destruct (decide (Preference.Name pref = "receipt_mode")) as [Hn | Hn].
    + rewrite (decide_True (P := named "receipt_mode" pref)) by done.
      rewrite (decide_False (P := named "show_others_receipts" pref))
        by (intros [_ Hs]; rewrite Hn in Hs; discriminate).
      rewrite last_snoc, app_nil_r. simpl. by rewrite IHshow.
    + rewrite (decide_False (P := named "receipt_mode" pref)) by (by intros [_ ?]).
      rewrite app_nil_r.
      destruct (decide (Preference.Name pref = "show_others_receipts")) as [Hs | Hs].
      * rewrite (decide_True (P := named "show_others_receipts" pref)) by done.
        rewrite last_snoc. simpl. by rewrite IHmode.
      * rewrite (decide_False (P := named "show_others_receipts" pref)) by (by intros [_ ?]).
        by rewrite app_nil_r.
  - rewrite (decide_False (P := named "receipt_mode" pref)) by (by intros [? _]).
    rewrite (decide_False (P := named "show_others_receipts" pref)) by (by intros [? _]).
    by rewrite !app_nil_r.
Qed.

(** X19.  [GetUserReadReceiptSettings] never fails and changes nothing.  The
    receipt mode is the value of the user's last [read_receipts] preference
    named [receipt_mode], and the configured default when there is none; the
    visibility is the value of the last one named [show_others_receipts],
    and "all" when there is none.  Preferences of other categories and names
    play no part. *)
Theorem X19_the_last_preference_wins (w : World) (userId : string) :
  let prefs := default [] (Preferences (db w) !! userId) in
  let named name p := Preference.Category p = PreferenceCategoryReadReceipts ∧
                      Preference.Name p = name in
  ∃ settings,
    GetUserReadReceiptSettings userId w = (Ok settings, w) ∧
    UserReadReceiptSettings.ReceiptMode settings
      = from_option Preference.Value (ReadReceiptsDefaultSetting (Config w))
          (last (filter (named "receipt_mode") prefs)) ∧
    UserReadReceiptSettings.ShowOthersReceipts settings
      = from_option Preference.Value ReadReceiptVisibilityAll
          (last (filter (named "show_others_receipts") prefs)).
Proof.
  intros prefs named. exists (settings_of w userId).
  split; [apply GetUserReadReceiptSettings_run |].
  apply (foldl_apply_preference prefs
           (UserReadReceiptSettings.mk (ReadReceiptsDefaultSetting (Config w))
              ReadReceiptVisibilityAll)).
Qed.

(** ** The batch write, the events and the deletion *)

Lemma bind_inv {E A B} (m : M E A) (k : A → M E B) w r w' :
  bind m k w = (r, w') →
  (∃ e, m w = (Err e, w') ∧ r = Err e) ∨
  (∃ a w1, m w = (Ok a, w1) ∧ k a w1 = (r, w')).
Proof.
  unfold bind. destruct (m w) as [[a|e] w1]; intros H; [right; eauto |].
  injection H as <- <-. left. eauto.
Qed.

Lemma upsert_batch_row_lookup t k0 new k :
  Store.upsert_batch_row t k0 new !! k =
  if decide (k = k0)
  then Some (match t !! k0 with
             | Some old =>
                 ReceiptRow.mk (ReceiptRow.ChannelId old) (ReceiptRow.ReadAt new)
                   (ReceiptRow.CreateAt new) (ReceiptRow.DeviceId old)
                   (ReceiptRow.DeviceType old) (ReceiptRow.SessionId old)
             | None => new
             end)
  else t !! k.
Proof.
  unfold Store.upsert_batch_row.
  destruct (decide (k = k0)) as [-> | Hne]; destruct (t !! k0);
    by rewrite ?lookup_insert_eq, ?lookup_insert_ne.
Qed.

Lemma insert_batch_rows_rows batch createAt deviceType t k :
  let new := ReceiptRow.mk (PostReadReceiptBatch.ChannelId batch)
               (PostReadReceiptBatch.ReadAt batch) createAt
               (PostReadReceiptBatch.DeviceId batch) deviceType "" in
  Store.insert_batch_rows batch createAt deviceType t !! k =
  if decide (k.2 = PostReadReceiptBatch.UserId batch ∧ k.1 ∈ PostReadReceiptBatch.PostIds batch)
  then Some (match t !! k with
             | Some old =>
                 ReceiptRow.mk (ReceiptRow.ChannelId old) (PostReadReceiptBatch.ReadAt batch)
                   createAt (ReceiptRow.DeviceId old) (ReceiptRow.DeviceType old)
                   (ReceiptRow.SessionId old)
             | None => new
             end)
  else t !! k.
Proof.
  intros new. unfold Store.insert_batch_rows. fold new.
  generalize (PostReadReceiptBatch.PostIds batch). intros ids. revert t.
  induction ids as [|id ids IH]; intros t; simpl.
  - rewrite decide_False; [done |]. intros [_ H]. by apply elem_of_nil in H.
  - rewrite IH, upsert_batch_row_lookup.
    destruct (decide (k = (id, PostReadReceiptBatch.UserId batch))) as [-> | Hne]; simpl.
    + rewrite (decide_True (P := _ ∧ id ∈ id :: ids)) by (split; [done | left]).
      destruct (t !! (id, PostReadReceiptBatch.UserId batch)) as [old|] eqn:Hold;
        by destruct (decide _).
    + destruct (decide (k.2 = PostReadReceiptBatch.UserId batch ∧ k.1 ∈ ids)) as [[Hu Hin] | Hout].
      * rewrite decide_True; [done |]. split; [done | by right].
      * rewrite decide_False; [done |]. intros [Hu [Hid | Hin]%elem_of_cons]; [| tauto].
        apply Hne. destruct k as [k1 k2]. simpl in *. congruence.
Qed.

(** X20.  The multi-row insert of the store's [SaveReadReceiptBatch].  A
    batch without posts sends no statement and succeeds whatever the state of
    the connection.  Otherwise every post of the batch gets the batch's
    [ReadAt] and the clock's reading as [CreateAt] under the user's key: a
    row that was there keeps its channel, device and session, a new row takes
    the batch's channel and the device type derived from the batch's device,
    with an empty session.  No other row is touched, and a failed statement
    writes nothing. *)
Theorem X20_batch_insert_rewrites_only_the_times
    (w w' : World) (batch : PostReadReceiptBatch.t) (r : result StoreError unit) :
  Store.SaveReadReceiptBatch batch w = (r, w') →
  let t := PostReadReceipts (db w) in
  let t' := PostReadReceipts (db w') in
  let user := PostReadReceiptBatch.UserId batch in
  (PostReadReceiptBatch.PostIds batch = [] → r = Ok tt ∧ w' = w) ∧
  match r with
  | Err _ => db w' = db w
  | Ok _ =>
      (∀ k, k.2 ≠ user ∨ k.1 ∉ PostReadReceiptBatch.PostIds batch → t' !! k = t !! k) ∧
      (∀ postId, postId ∈ PostReadReceiptBatch.PostIds batch →
         ∃ row, t' !! (postId, user) = Some row ∧
           ReceiptRow.ReadAt row = PostReadReceiptBatch.ReadAt batch ∧
           ReceiptRow.CreateAt row = millis w ∧
           match t !! (postId, user) with
           | Some old =>
               ReceiptRow.ChannelId row = ReceiptRow.ChannelId old ∧
               ReceiptRow.DeviceId row = ReceiptRow.DeviceId old ∧
               ReceiptRow.DeviceType row = ReceiptRow.DeviceType old ∧
               ReceiptRow.SessionId row = ReceiptRow.SessionId old
           | None =>
               ReceiptRow.ChannelId row = PostReadReceiptBatch.ChannelId batch ∧
               ReceiptRow.DeviceId row = PostReadReceiptBatch.DeviceId batch ∧
               ReceiptRow.DeviceType row
                 = Store.batch_deviceType (PostReadReceiptBatch.DeviceId batch) ∧
               ReceiptRow.SessionId row = ""
           end)
  end.
Proof.
  intros H t t' user. unfold Store.SaveReadReceiptBatch in H.
  destruct (decide (length (PostReadReceiptBatch.PostIds batch) = 0%nat)) as [Hnil | Hsome].
  - unfold ret in H. injection H as <- <-. split; [done |].
    apply length_zero_iff_nil in Hnil. split.
    + done.
    + intros postId Hin. rewrite Hnil in Hin. by apply elem_of_nil in Hin.
  - split; [intros Hnil; by rewrite Hnil in Hsome |].
    unfold GetMillis in H. unfold bind at 1 in H. unfold gets at 1 in H.
    apply master_write_run in H as (tape & [(-> & -> & _) | (-> & -> & _)]); [done |].
    unfold t', t, user. simpl. split.
    + intros k Hk. rewrite insert_batch_rows_rows. rewrite decide_False; [done | tauto].
    + intros postId Hin. rewrite insert_batch_rows_rows.
      rewrite decide_True by done. eexists. split; [done |].
      by destruct (PostReadReceipts (db w) !! (postId, PostReadReceiptBatch.UserId batch)).
Qed.

Lemma Store_SaveReadReceiptBatch_run batch w :
  let w' := (Store.SaveReadReceiptBatch batch w).2 in
  published w' = published w ∧
  ((Store.SaveReadReceiptBatch batch w).1 ≠ Ok tt → db w' = db w).
Proof.
  unfold Store.SaveReadReceiptBatch.
  destruct (decide _); [done |].
  unfold GetMillis, bind, gets, GetMaster_Exec, modify.
  by destruct (next_outcome (master_faults w)) as [[] tape].
Qed.

Section BatchOutcome.

Variable IsValidId : string → bool.

(** X21.  The application's [SaveReadReceiptBatch] never publishes an event
    and never hands a receipt back: the list it returns is empty, because
    every receipt is validated before its [CreateAt] is set.  When it fails,
    with 501, 403 or 500, nothing has been written. *)
Theorem X21_SaveReadReceiptBatch_publishes_nothing
    (w w' : World) (userId : string) (batchRequest : ReadReceiptBatchRequest.t)
    (r : result AppError.t (list PostReadReceipt.t)) :
  SaveReadReceiptBatch IsValidId userId batchRequest w = (r, w') →
  published w' = published w ∧
  match r with
  | Ok validatedReceipts => validatedReceipts = []
  | Err e =>
      db w' = db w ∧
      (AppError.StatusCode e = StatusNotImplemented
       ∨ AppError.StatusCode e = StatusForbidden
       ∨ AppError.StatusCode e = StatusInternalServerError)
  end.
Proof.
  intros H. unfold SaveReadReceiptBatch in H.
  apply bind_inv in H as [(e & Hcfg & _) | (cfg & w1 & Hcfg & H)]; [discriminate |].
  unfold gets in Hcfg. injection Hcfg as <- <-.
  destruct (EnableReadReceipts (Config w)); simpl in H.
  2: { unfold throw in H. injection H as <- <-. simpl. tauto. }
  apply bind_inv in H as [(e & Hst & _) | (st & w1 & Hst & H)];
    rewrite GetUserReadReceiptSettings_run in Hst; [discriminate |].
  injection Hst as <- <-.
  destruct (decide _) as [Hoff | Hon].
  { unfold throw in H. injection H as <- <-. simpl. tauto. }
  apply bind_inv in H as [(e & HreadAt & _) | (readAt & w1 & HreadAt & H)].
  { destruct (ReadReceiptBatchRequest.ReadAt batchRequest =? 0); discriminate. }
  assert (w1 = w) as ->.
  { destruct (ReadReceiptBatchRequest.ReadAt batchRequest =? 0); unfold_monad;
      by injection HreadAt as <- <-. }
  simpl in H.
  destruct (GetPostsByIds_run (ReadReceiptBatchRequest.PostIds batchRequest) w)
    as (posts & Hposts & _).
  apply bind_inv in H as [(e & Hp & _) | (posts' & w1 & Hp & H)];
    rewrite Hposts in Hp; [discriminate |].
  injection Hp as <- <-.
  match type of H with context [validate_posts _ _ ?b _ _ _] =>
    destruct (validate_posts_run IsValidId userId b posts ∅ [] w) as (new & Hloop & _ & Hin)
  end.
  { intros c. by rewrite lookup_empty. }
  apply bind_inv in H as [(e & Hv & _) | (validated & w1 & Hv & H)];
    rewrite Hloop in Hv; [discriminate |].
  injection Hv as <- <-.
  assert (new = []) as ->.
  { destruct new as [|x new]; [done |]. exfalso.
    destruct (Hin x) as (post & _ & _ & Heq & Hvalid); [by left |].
    destruct (IsValid_CreateAt_zero IsValidId x) as [e He]; [by rewrite Heq | congruence]. }
  simpl in H. unfold from_store in H.
  match type of H with context [Store.SaveReadReceiptBatch ?b] =>
    pose proof (Store_SaveReadReceiptBatch_run b w) as [Hpub Hdb];
    apply bind_inv in H as [(e & Hs & ->) | ([] & w1 & Hs & H)];
    destruct (Store.SaveReadReceiptBatch b w) as [[[]|e'] w2]
  end; simpl in *; try discriminate.
  - injection Hs as <- <-. split; [done |]. split; [by apply Hdb |]. simpl. tauto.
  - injection Hs as <-. unfold PublishReadReceiptBatchEvent in H. simpl in H.
    unfold_monad. by injection H as <- <-.
Qed.

End BatchOutcome.

(** X22.  [DeleteReadReceiptForPost], with the feature on.  It answers 403
    and does nothing when privacy deletion is not allowed, and 500, with
    nothing deleted and nothing logged, when the delete statement fails.
    Otherwise it succeeds and the receipt is gone; the [privacy_view] entry
    is in the audit log unless the statement that writes it fails, and that
    failure is not reported.  No event is published. *)
Theorem X22_DeleteReadReceiptForPost_outcomes
    (w w' : World) (userId postId : string) (r : result AppError.t unit) :
  DeleteReadReceiptForPost userId postId w = (r, w') →
  EnableReadReceipts (Config w) = true →
  let audit := ReadReceiptAuditLog.mk (pretty (id_seed w)) userId postId
                 ReadReceiptActionPrivacyView
                 [("action", "delete_receipt"); ("reason", "user_privacy_request")]
                 (millis w) in
  published w' = published w ∧
  PostReadReceiptSummary (db w') = PostReadReceiptSummary (db w) ∧
  match r with
  | Err e =>
      db w' = db w ∧
      if ReadReceiptsAllowPrivacyDeletion (Config w)
      then AppError.StatusCode e = StatusInternalServerError ∧
           default false (master_faults w !! 0%nat) = true
      else AppError.StatusCode e = StatusForbidden ∧ w' = w
  | Ok _ =>
      ReadReceiptsAllowPrivacyDeletion (Config w) = true ∧
      default false (master_faults w !! 0%nat) = false ∧
      PostReadReceipts (db w') = delete (postId, userId) (PostReadReceipts (db w)) ∧
      ReadReceiptAuditLogs (db w') =
        if default false (master_faults w !! 1%nat)
        then ReadReceiptAuditLogs (db w)
        else ReadReceiptAuditLogs (db w) ++ [audit]
  end.
Proof.
  intros H Hon audit. unfold DeleteReadReceiptForPost in H.
  apply bind_inv in H as [(e & Hcfg & _) | (cfg & w1 & Hcfg & H)]; [discriminate |].
  unfold gets in Hcfg. injection Hcfg as <- <-. rewrite Hon in H. simpl in H.
  destruct (ReadReceiptsAllowPrivacyDeletion (Config w)); simpl in H.
  2: { unfold throw in H. by injection H as <- <-. }
  destruct (next_outcome_lookup (master_faults w)) as [Hfirst Hrest].
  apply bind_inv in H as [(e & Hdel & ->) | ([] & w1 & Hdel & H)];
    unfold from_store, Store.DeleteReadReceipt in Hdel;
    destruct (bind (GetMaster_Exec "delete_read_receipt") _ w) as [r0 w0] eqn:Hm;
    apply master_write_run in Hm as (tape & [(-> & -> & Hnext) | (-> & -> & Hnext)]);
    try discriminate; rewrite Hnext in Hfirst, Hrest; simpl in Hfirst, Hrest.
  { injection Hdel as <- <-. by rewrite <- Hfirst. }
  injection Hdel as <-.
  unfold Store.SaveReadReceiptAuditLog, NewId, GetMillis in H.
  unfold bind, gets, attempt, GetMaster_Exec, modify, ret in H. simpl in H.
  destruct (next_outcome_lookup tape) as [Hsecond _].
  rewrite <- (Hrest 0%nat), <- Hsecond, <- Hfirst.
  destruct (next_outcome tape) as [[] tape'] eqn:Hnext'; simpl in *;
    by injection H as <- <-.
Qed.

(** X23.  What [UpdateReadReceiptSummary] has written is what
    [GetReadReceiptSummary] reads back: the counts and the times of the saved
    summary, under the channel of the row that was already there, if any.
    The summaries of the other posts and the receipts are as before. *)
Theorem X23_saved_summary_is_read_back
    (w w1 : World) (summary : PostReadReceiptSummary.t) :
  Store.UpdateReadReceiptSummary summary w = (Ok tt, w1) →
  reliable (replica_faults w1) →
  let postId := PostReadReceiptSummary.PostId summary in
  ∃ got w2,
    Store.GetReadReceiptSummary postId w1 = (Ok got, w2) ∧
    PostReadReceiptSummary.PostId got = postId ∧
    PostReadReceiptSummary.ReadCount got = PostReadReceiptSummary.ReadCount summary ∧
    PostReadReceiptSummary.TotalRecipients got
      = PostReadReceiptSummary.TotalRecipients summary ∧
    PostReadReceiptSummary.LastUpdated got = PostReadReceiptSummary.LastUpdated summary ∧
    PostReadReceiptSummary.FirstReadAt got = PostReadReceiptSummary.FirstReadAt summary ∧
    PostReadReceiptSummary.LastReadAt got = PostReadReceiptSummary.LastReadAt summary ∧
    PostReadReceiptSummary.ChannelId got
      = from_option SummaryRow.ChannelId (PostReadReceiptSummary.ChannelId summary)
          (PostReadReceiptSummary (db w) !! postId) ∧
    (∀ other, other ≠ postId →
       PostReadReceiptSummary (db w1) !! other = PostReadReceiptSummary (db w) !! other) ∧
    PostReadReceipts (db w1) = PostReadReceipts (db w).
Proof.
  intros Hsave Hw1 postId. unfold Store.UpdateReadReceiptSummary in Hsave.
  apply master_write_run in Hsave as (tape & [([=] & _) | (_ & -> & _)]).
  unfold Store.GetReadReceiptSummary.
  match goal with |- context [bind (GetReplica_Query ?wrap) (λ _, bind (gets db) ?f) ?w0] =>
    destruct (replica_read_reliable wrap f w0 Hw1) as (tape' & _ & ->) end.
  simpl. unfold Store.upsert_summary. fold postId. rewrite lookup_insert_eq.
  unfold ret. eexists _, _. split; [done |]. simpl.
  do 6 (split; [done |]). split; [by destruct (PostReadReceiptSummary (db w) !! postId) |].
  split; [| done]. intros other Hne. by rewrite lookup_insert_ne.
Qed.

(** ** Backfill, once more *)

Lemma backfill_save_frame receipts w :
  let w' := (backfill_save receipts w).2 in
  Config w' = Config w ∧ Posts (db w') = Posts (db w) ∧ Channels (db w') = Channels (db w) ∧
  ChannelMembers (db w') = ChannelMembers (db w) ∧
  replica_faults w' = replica_faults w ∧ published w' = published w ∧
  (reliable (master_faults w) → reliable (master_faults w')).
Proof.
  revert w. induction receipts as [|r rest IH]; intros w; [done |].
  destruct (backfill_save (r :: rest) w) as [res w'] eqn:H. simpl.
  cbn [backfill_save] in H. unfold bind at 1 in H. unfold attempt in H.
  unfold Store.SaveReadReceipt in H. unfold bind at 1 in H. rewrite PreSave_run in H.
  unfold bind at 1 in H. unfold GetMaster_Exec in H.
  pose proof (next_outcome_reliable (master_faults w)) as Hrel.
  destruct (next_outcome (master_faults w)) as [[] tape]; simpl in H.
  - specialize (IH (set_master_faults tape w)). rewrite H in IH. simpl in IH.
    destruct IH as (? & ? & ? & ? & ? & ? & Hm).
    do 6 (split; [done |]). intros Hw. by destruct (Hrel Hw) as (? & [=] & _).
  - unfold bind, modify, ret in H. simpl in H.
    match type of H with backfill_save rest ?w1 = _ => specialize (IH w1) end.
    rewrite H in IH. simpl in IH. destruct IH as (? & ? & ? & ? & ? & ? & Hm).
    do 6 (split; [done |]). intros Hw. apply Hm.
    by destruct (Hrel Hw) as (? & [= <-] & ?).
Qed.

Lemma reliable_lookup tape i : reliable tape → default false (tape !! i) = false.
Proof.
  intros Htape. destruct (tape !! i) as [b|] eqn:Hi; [| done].
  by apply (Forall_lookup_1 _ _ _ _ Htape Hi).
Qed.

(** X24.  Backfill is idempotent when nothing fails.  After a
    [BackfillReadReceiptsForChannel] during which every query and every
    statement went through, every member and post that the rule pairs up has
    a receipt, so a second run finds nothing to create and leaves the tables
    as they are.  Neither run publishes an event. *)
Theorem X24_backfill_twice_is_backfill_once (w w1 : World) (channelId : string) :
  BackfillReadReceiptsForChannel channelId w = (Ok tt, w1) →
  reliable (replica_faults w) →
  reliable (master_faults w) →
  published w1 = published w ∧
  ∃ w2, BackfillReadReceiptsForChannel channelId w1 = (Ok tt, w2) ∧
        db w2 = db w1 ∧ published w2 = published w1.
Proof.
  intros H Hreplica Hmaster. unfold BackfillReadReceiptsForChannel in H.
  apply bind_Ok in H as (cfg & w0 & Hcfg & H). unfold gets in Hcfg. injection Hcfg as <- <-.
  destruct (EnableReadReceipts (Config w)) eqn:Hen; simpl in H; [| discriminate].
  apply bind_Ok in H as (channel & w0 & Hc & H). rewrite GetChannel_run in Hc.
  destruct (Channels (db w) !! channelId) as [ty|] eqn:Hty; [| discriminate].
  injection Hc as <- <-.
  destruct (allowedChannelType (Config w) (Channel.mk channelId ty)) eqn:Hal;
    simpl in H; [| discriminate].
  apply bind_Ok in H as (members & w0 & Hm & H).
  destruct (GetChannelMembers_run channelId 0 200 w) as (members' & Hm' & Hnd_m).
  rewrite Hm' in Hm. injection Hm as <- <-.
  apply bind_Ok in H as (posts & w0 & Hp & H).
  destruct (GetPostsForChannel_run channelId 0 60 w) as (posts' & Hp' & Hnd_p).
  rewrite Hp' in Hp. injection Hp as <- <-.
  apply bind_Ok in H as (now & w0 & Hnow & H). unfold GetMillis, gets in Hnow.
  injection Hnow as <- <-.
  apply bind_Ok in H as (cands & w0 & Hcands & H).
  destruct (backfill_members_run channelId members' posts' [] w Hreplica)
    as (tape & Htape & Hrun).
  rewrite Hrun in Hcands. injection Hcands as <- <-. simpl in H.
  set (t := PostReadReceipts (db w)) in *.
  set (cands := members' ≫= member_receipts t channelId posts') in *.
  destruct (backfill_save_run cands (set_replica_faults tape w)) as (w1' & Hsave & _ & Hdb).
  rewrite Hsave in H. injection H as ->.
  pose proof (backfill_save_frame cands (set_replica_faults tape w)) as Hframe.
  rewrite Hsave in Hframe. simpl in Hframe, Hdb. fold t in Hdb.
  destruct Hframe as (Hcfg1 & Hposts1 & Hchannels1 & Hmembers1 & Hreplica1 & Hpub1 & Hmaster1).
  split; [done |].
  (* every candidate has its receipt, and the rows that were there still are *)
  assert (Hfull : ∀ member post, member ∈ members' → post ∈ posts' →
            ChannelMember.LastViewedAt member ≠ 0 →
            ¬ should_backfill (PostReadReceipts (db w1)) member post).
  { intros member post Hmem Hpost Hseen (Hold & Hother & Hnone).
    destruct (decide (should_backfill t member post)) as [Hyes | Hno].
    - assert (Hin : backfill_receipt channelId member post ∈ cands).
      { apply elem_of_candidates. by exists member, post. }
      apply list_elem_of_lookup in Hin as (i & Hi).
      rewrite Hdb in Hnone.
      change (Post.Id post, ChannelMember.UserId member)
        with (Store.receipt_key (backfill_receipt channelId member post)) in Hnone.
      rewrite (saved_at _ _ _ _ i) in Hnone;
        [| by apply candidates_NoDup | done | by destruct Hyes as (_ & _ & ?)].
      by rewrite reliable_lookup in Hnone.
    - rewrite Hdb, saved_other in Hnone.
      + apply Hno. done.
      + intros (r & Hkey & Hr)%list_elem_of_fmap.
        apply elem_of_candidates in Hr as (m' & p' & _ & _ & _ & (_ & _ & Hfree) & ->).
        apply Hno. split; [done |]. split; [done |].
        simpl in Hkey. by rewrite Hkey. }
  assert (Hnone : members' ≫= member_receipts (PostReadReceipts (db w1)) channelId posts' = []).
  { destruct (members' ≫= member_receipts (PostReadReceipts (db w1)) channelId posts')
      as [|r rest] eqn:Hc; [done |]. exfalso.
    assert (Hr : r ∈ members' ≫= member_receipts (PostReadReceipts (db w1)) channelId posts')
      by (rewrite Hc; left).
    apply elem_of_candidates in Hr as (member & post & Hmem & Hpost & Hseen & Hback & _).
    by apply (Hfull member post). }
  assert (Hreplica1' : reliable (replica_faults w1)) by (by rewrite Hreplica1).
  destruct (backfill_members_run channelId members' posts' [] w1 Hreplica1')
    as (tape1 & Htape1 & Hrun1).
  rewrite Hnone in Hrun1. simpl in Hrun1.
  exists (set_replica_faults tape1 w1). split; [| done].
  unfold BackfillReadReceiptsForChannel.
  unfold bind at 1. unfold gets at 1. rewrite Hcfg1, Hen. simpl.
  unfold bind at 1. rewrite GetChannel_run, Hchannels1, Hty, Hal. simpl.
  assert (Hm1 : GetChannelMembers channelId 0 200 w1 = (Ok members', w1)).
  { clear -Hm' Hmembers1. unfold GetChannelMembers in *. unfold_monad.
    injection Hm' as <-. by rewrite Hmembers1. }
  assert (Hp1 : GetPostsForChannel channelId 0 60 w1 = (Ok posts', w1)).
  { clear -Hp' Hposts1. unfold GetPostsForChannel in *. unfold_monad.
    injection Hp' as <-. by rewrite Hposts1. }
  unfold bind at 1. rewrite Hm1.
  unfold bind at 1. rewrite Hp1.
  unfold bind at 1. unfold GetMillis, gets at 1.
  unfold bind at 1. by rewrite Hrun1.
Qed.

(** ** Grouping by a key *)

(** [m[key x] = append(m[key x], x)] over a list: each key ends up with the
    elements it names, in the order of the list. *)
Lemma group_fold_lookup {A} (key : A → string) (l : list A)
    (m0 : gmap string (list A)) (k : string) :
  foldl (λ m x, <[key x := default [] (m !! key x) ++ [x]]> m) m0 l !! k =
  match filter (λ x, key x = k) l with
  | [] => m0 !! k
  | ys => Some (default [] (m0 !! k) ++ ys)
  end.
Proof.
  revert m0. induction l as [|x l IH]; intros m0; [done |].
  cbn [foldl]. rewrite IH, filter_cons.
  destruct (decide (key x = k)) as [Hk | Hk].
  - rewrite Hk, lookup_insert_eq. simpl.
    destruct (filter (λ x0, key x0 = k) l); [done |]. by rewrite <- app_assoc.
  - by rewrite lookup_insert_ne.
Qed.

Lemma StronglySorted_filter {A} (R : relation A) (P : A → Prop) `{∀ x, Decision (P x)}
    (l : list A) :
  StronglySorted R l → StronglySorted R (filter P l).
Proof.
  induction 1 as [|x l Hl IH Hx]; [constructor |].
  rewrite filter_cons. destruct (decide (P x)); [| done].
  constructor; [done |]. apply Forall_forall. intros y Hy%list_elem_of_filter.
  rewrite Forall_forall in Hx. apply Hx. tauto.
Qed.

(** The order of the bytes on strings. *)
Lemma ascii_compare_refl (a : Ascii.ascii) : Ascii.compare a a = Eq.
Proof. unfold Ascii.compare. apply N.compare_refl. Qed.

Lemma string_compare_refl (s : string) : String.compare s s = Eq.
Proof. induction s as [|a s IH]; [done |]. simpl. by rewrite ascii_compare_refl. Qed.

Lemma string_compare_trans (a b c : string) :
  String.compare a b = Lt → String.compare b c = Lt → String.compare a c = Lt.
Proof.
  revert b c. induction a as [|x a IH]; intros [|y b] [|z c]; simpl; try done.
  destruct (Ascii.compare x y) eqn:Hxy; [| | done].
  - apply Ascii.compare_eq_iff in Hxy as ->.
    destruct (Ascii.compare y z); [apply IH | done | done].
  - intros _. destruct (Ascii.compare y z) eqn:Hyz; [| | done].
    + apply Ascii.compare_eq_iff in Hyz as <-. by rewrite Hxy.
    + intros _. unfold Ascii.compare in *.
      rewrite N.compare_lt_iff in Hxy, Hyz. 
      assert ((Ascii.N_of_ascii x ?= Ascii.N_of_ascii z)%N = Lt) as ->; [| done].
      apply N.compare_lt_iff. by etrans.
Qed.

Global Instance PostId_then_ReadAt_desc_trans : Transitive Store.PostId_then_ReadAt_desc.
Proof.
  unfold Store.PostId_then_ReadAt_desc, String.ltb. intros a b c [Hab | [Hab Hab']] [Hbc | [Hbc Hbc']].
  - left. destruct (String.compare (PostReadReceipt.PostId a) (PostReadReceipt.PostId b)) eqn:H1;
      try done.
    destruct (String.compare (PostReadReceipt.PostId b) (PostReadReceipt.PostId c)) eqn:H2;
      try done.
    by rewrite (string_compare_trans _ _ _ H1 H2).
  - left. by rewrite <- Hbc.
  - left. by rewrite Hab.
  - right. split; [congruence | lia].
Qed.

Global Instance PostId_then_ReadAt_desc_total : Total Store.PostId_then_ReadAt_desc.
Proof.
  unfold Store.PostId_then_ReadAt_desc, String.ltb. intros a b.
  destruct (String.compare (PostReadReceipt.PostId a) (PostReadReceipt.PostId b)) eqn:Hab.
  - apply String.compare_eq_iff in Hab.
    destruct (Z.le_ge_cases (PostReadReceipt.ReadAt a) (PostReadReceipt.ReadAt b));
      [right | left]; right; split; (done || lia).
  - by left; left.
  - right. left. rewrite String.compare_antisym, Hab. done.
Qed.

(** ** What the store reports about a post *)

(** X25.  The info the store's [GetReadReceiptInfo] returns is consistent
    with itself: the list holds exactly the stored receipts of the post, one
    per user at most, the latest read first; [ReadCount] is its length; the
    flags are what [IsFullyRead] and [IsPartiallyRead] compute from the
    counts, and they are never both set.  [UnreadUsers] is never filled
    in. *)
Theorem X25_GetReadReceiptInfo_is_consistent
    (w w' : World) (postID : string) (info : PostReadReceiptInfo.t) :
  Store.GetReadReceiptInfo postID w = (Ok info, w') →
  (∀ r, r ∈ PostReadReceiptInfo.ReadReceipts info ↔
        stored (PostReadReceipts (db w)) r ∧ PostReadReceipt.PostId r = postID) ∧
  NoDup (PostReadReceipt.UserId <$> PostReadReceiptInfo.ReadReceipts info) ∧
  StronglySorted Store.ReadAt_desc (PostReadReceiptInfo.ReadReceipts info) ∧
  PostReadReceiptInfo.ReadCount info
    = Z.of_nat (length (PostReadReceiptInfo.ReadReceipts info)) ∧
  IsFullyRead info = PostReadReceiptInfo.AllRead info ∧
  IsPartiallyRead info = PostReadReceiptInfo.PartiallyRead info ∧
  ¬ (IsFullyRead info = true ∧ IsPartiallyRead info = true) ∧
  PostReadReceiptInfo.UnreadUsers info = [] ∧
  db w' = db w.
Proof.
  intros H. apply GetReadReceiptInfo_Ok in H as (Hdb & _ & post & Hpost & ->). simpl.
  unfold IsFullyRead, IsPartiallyRead. simpl.
  set (t := PostReadReceipts (db w)).
  split; [| split; [| split; [apply (StronglySorted_merge_sort _) |]]].
  - intros r. unfold Store.select_for_post.
    rewrite elem_of_merge_sort, list_elem_of_filter, elem_of_receipts_of. tauto.
  - unfold Store.select_for_post. rewrite (merge_sort_Permutation Store.ReadAt_desc).
    unfold Store.receipts_of. rewrite filter_fmap_comm, <- list_fmap_compose.
    apply NoDup_fmap_2_strong.
    + intros [[p u] row] [[p' u'] row'] [Hp Hin]%list_elem_of_filter
        [Hp' Hin']%list_elem_of_filter Hu. simpl in *. subst.
      apply elem_of_map_to_list in Hin, Hin'. congruence.
    + apply NoDup_filter, NoDup_map_to_list.
  - do 3 (split; [done |]). split; [| done].
    intros [Hall Hpart]. apply andb_true_iff in Hpart as [_ Hlt].
    apply bool_decide_eq_true in Hall, Hlt. lia.
Qed.

(** ** The batch event *)

Lemma channel_groups_step (groups : list (string * list PostReadReceipt.t))
    (receipt : PostReadReceipt.t) :
  let c := PostReadReceipt.ChannelId receipt in
  let groups' :=
    if bool_decide (c ∈ groups.*1)
    then (λ g : string * list PostReadReceipt.t,
            if decide (g.1 = c) then (g.1, g.2 ++ [receipt]) else g) <$> groups
    else groups ++ [(c, [receipt])] in
  let m : gmap string (list PostReadReceipt.t) := list_to_map groups in
  NoDup groups.*1 →
  NoDup groups'.*1 ∧
  list_to_map groups' = <[c := default [] (m !! c) ++ [receipt]]> m.
Proof.
  intros c groups' m Hnd. unfold groups', m. case_bool_decide as Hin.
  - assert (Hfst : ((λ g : string * list PostReadReceipt.t,
                       if decide (g.1 = c) then (g.1, g.2 ++ [receipt]) else g)
                    <$> groups).*1 = groups.*1).
    { rewrite <- list_fmap_compose. apply list_fmap_ext. intros _ [k l] _. simpl.
      by destruct (decide (k = c)). }
    split; [by rewrite Hfst |].
    apply map_eq. intros k. apply option_eq. intros l.
    rewrite <- elem_of_list_to_map by (by rewrite Hfst).
    rewrite list_elem_of_fmap.
    destruct (decide (k = c)) as [-> | Hne].
    + rewrite lookup_insert_eq. split.
      * intros ([k0 l0] & Heq & Hg). simpl in Heq.
        destruct (decide (k0 = c)) as [-> | Hk0]; [| congruence].
        injection Heq as ->. apply elem_of_list_to_map in Hg; [| done].
        by rewrite Hg.
      * intros [= <-]. apply list_elem_of_fmap in Hin as ([k0 l0] & -> & Hg).
        exists (k0, l0). simpl. rewrite decide_True by done.
        apply elem_of_list_to_map in Hg as Hl; [| done]. by rewrite Hl.
    + rewrite lookup_insert_ne by done. rewrite <- elem_of_list_to_map by done. split.
      * intros ([k0 l0] & Heq & Hg). simpl in Heq.
        destruct (decide (k0 = c)) as [-> | Hk0]; [congruence |]. by rewrite Heq.
      * intros Hg. exists (k, l). simpl. by rewrite decide_False.
  - split.
    + rewrite fmap_app. apply NoDup_app. split; [done |]. split; [| apply NoDup_singleton].
      intros k Hk ->%list_elem_of_singleton. done.
    + rewrite list_to_map_snoc by done.
      by rewrite (not_elem_of_list_to_map_1 groups c Hin).
Qed.

Lemma channelGroups_grouped (receipts : list PostReadReceipt.t)
    (groups : list (string * list PostReadReceipt.t)) :
  NoDup groups.*1 →
  NoDup (channelGroups receipts groups).*1 ∧
  (list_to_map (channelGroups receipts groups) : gmap string (list PostReadReceipt.t))
  = foldl (λ m r, <[PostReadReceipt.ChannelId r :=
                      default [] (m !! PostReadReceipt.ChannelId r) ++ [r]]> m)
      (list_to_map groups) receipts.
Proof.
  revert groups. induction receipts as [|r rest IH]; intros groups Hnd; [done |].
  cbn [channelGroups foldl].
  destruct (channel_groups_step groups r Hnd) as [Hnd' Hmap].
  destruct (IH _ Hnd') as [Hnd'' Hmap'']. split; [done |].
  by rewrite Hmap'', Hmap.
Qed.

Lemma publish_groups_published {E} event groups w :
  @publish_groups E event groups w =
  (Ok tt, set_published
            (published w ++ ((λ g, EventBatch event g.1 g.2 (Z.of_nat (length g.2)))
                             <$> groups)) w) ∨ groups = [].
Proof.
  revert w. induction groups as [|[c l] groups IH]; intros w; [by right |]. left.
  cbn [publish_groups]. unfold bind, Publish, modify.
  destruct (IH (set_published (published w ++ [EventBatch event c l (Z.of_nat (length l))]) w))
    as [-> | ->]; simpl.
  - by rewrite <- app_assoc.
  - done.
Qed.

(** X26.  [PublishReadReceiptBatchEvent] publishes one event per channel
    that a receipt of the list is filed under, and nothing for an empty
    list.  The event of a channel carries the receipts of the list filed
    under it, in the order of the list, and their number; the tables are not
    touched. *)
Theorem X26_one_batch_event_per_channel
    (w : World) (receipts : list PostReadReceipt.t) (event : string) :
  ∃ w' groups,
    @PublishReadReceiptBatchEvent AppError.t receipts event w = (Ok tt, w') ∧
    published w' = published w ++
      ((λ g, EventBatch event g.1 g.2 (Z.of_nat (length g.2))) <$> groups) ∧
    NoDup groups.*1 ∧
    (∀ c l, (c, l) ∈ groups ↔
            l ≠ [] ∧ l = filter (λ r, PostReadReceipt.ChannelId r = c) receipts) ∧
    db w' = db w.
Proof.
  destruct (channelGroups_grouped receipts []) as [Hnd Hmap]; [constructor |].
  assert (Hgroups : ∀ c l, (c, l) ∈ channelGroups receipts [] ↔
            l ≠ [] ∧ l = filter (λ r, PostReadReceipt.ChannelId r = c) receipts).
  { intros c l. rewrite elem_of_list_to_map by done. rewrite Hmap.
    rewrite (group_fold_lookup PostReadReceipt.ChannelId receipts (list_to_map []) c).
    simpl. rewrite lookup_empty.
    destruct (filter (λ r, PostReadReceipt.ChannelId r = c) receipts) as [|y ys]; simpl.
    - split; [done |]. by intros [? ->].
    - split; [by intros [= <-] | by intros [_ ->]]. }
  unfold PublishReadReceiptBatchEvent. destruct (decide _) as [Hnil | Hsome].
  - apply length_zero_iff_nil in Hnil as ->. exists w, []. unfold ret. simpl.
    split; [done |]. split; [by rewrite app_nil_r |]. split; [constructor |].
    split; [| done]. intros c l. split; [by intros ?%elem_of_nil | by intros [? ->]].
  - destruct (@publish_groups_published AppError.t event (channelGroups receipts []) w)
      as [-> | Hempty].
    + by eexists _, _.
    + rewrite Hempty in *. exists w, []. unfold ret. simpl.
      split; [done |]. split; [by rewrite app_nil_r |]. done.
Qed.

(** ** Receipts of several posts *)

Lemma same_post_sorted (l : list PostReadReceipt.t) (id : string) :
  StronglySorted Store.PostId_then_ReadAt_desc l →
  Forall (λ r, PostReadReceipt.PostId r = id) l →
  StronglySorted Store.ReadAt_desc l.
Proof.
  induction 1 as [|x l Hl IH Hx]; intros Hid; [constructor |].
  apply Forall_cons in Hid as [Hxid Hlid].
  constructor; [by apply IH |].
  rewrite Forall_forall in Hx, Hlid |- *. intros y Hy.
  destruct (Hx y Hy) as [Hlt | [_ Hle]]; [| done].
  rewrite Hxid, (Hlid y Hy) in Hlt. unfold String.ltb in Hlt.
  by rewrite string_compare_refl in Hlt.
Qed.

(** X27.  [GetReadReceiptsForPosts] answers an empty request without asking
    the replica.  Otherwise the map has an entry for each requested post
    that has a stored receipt and for no other: the entry holds exactly the
    stored receipts of the post, the latest read first.  A requested post
    nobody has read has no entry. *)
Theorem X27_GetReadReceiptsForPosts_groups_by_post
    (w w' : World) (postIDs : list string) (m : gmap string (list PostReadReceipt.t)) :
  Store.GetReadReceiptsForPosts postIDs w = (Ok m, w') →
  let t := PostReadReceipts (db w) in
  (postIDs = [] → m = ∅ ∧ w' = w) ∧
  (∀ id, match m !! id with
         | Some rs =>
             id ∈ postIDs ∧ rs ≠ [] ∧
             StronglySorted Store.ReadAt_desc rs ∧
             ∀ r, r ∈ rs ↔ stored t r ∧ PostReadReceipt.PostId r = id
         | None => id ∉ postIDs ∨ ∀ r, stored t r → PostReadReceipt.PostId r ≠ id
         end) ∧
  db w' = db w.
Proof.
  intros H t. unfold Store.GetReadReceiptsForPosts in H.
  destruct (decide (length postIDs = 0%nat)) as [Hnil | Hsome].
  { unfold ret in H. injection H as <- <-. apply length_zero_iff_nil in Hnil as ->.
    split; [done |]. split; [| done]. intros id. rewrite lookup_empty. left.
    by intros ?%elem_of_nil. }
  split; [by intros -> |].
  apply replica_read_Ok in H as (tape & H). unfold ret in H. injection H as <- <-.
  split; [| done]. intros id. fold t. unfold Store.group_by_post.
  rewrite (group_fold_lookup PostReadReceipt.PostId _ ∅ id). rewrite lookup_empty. simpl.
  set (sorted := merge_sort Store.PostId_then_ReadAt_desc
                   (filter (λ r, PostReadReceipt.PostId r ∈ postIDs) (Store.receipts_of t))).
  assert (Hmem : ∀ r, r ∈ filter (λ r, PostReadReceipt.PostId r = id) sorted ↔
                      (stored t r ∧ PostReadReceipt.PostId r = id) ∧ id ∈ postIDs).
  { intros r. unfold sorted.
    rewrite list_elem_of_filter, elem_of_merge_sort, list_elem_of_filter,
      elem_of_receipts_of.
    split; [intros (<- & ? & ?); tauto | intros [[? <-] ?]; tauto]. }
  assert (Hsorted : StronglySorted Store.ReadAt_desc
                      (filter (λ r, PostReadReceipt.PostId r = id) sorted)).
  { assert (Hs : StronglySorted Store.PostId_then_ReadAt_desc
                   (filter (λ r, PostReadReceipt.PostId r = id) sorted)).
    { apply StronglySorted_filter, (StronglySorted_merge_sort _). }
    assert (Hid : Forall (λ r, PostReadReceipt.PostId r = id)
                    (filter (λ r, PostReadReceipt.PostId r = id) sorted)).
    { apply Forall_forall. by intros r [? _]%list_elem_of_filter. }
    by eapply same_post_sorted. }
  destruct (filter (λ r, PostReadReceipt.PostId r = id) sorted) as [|y ys] eqn:Hys.
  - destruct (decide (id ∈ postIDs)) as [Hin | Hout]; [right | by left].
    intros r Hr Hid.
    assert (r ∈ @nil PostReadReceipt.t) as []%elem_of_nil. by apply Hmem.
  - split.
    + assert (y ∈ y :: ys) as Hy by left. apply Hmem in Hy. tauto.
    + split; [done |]. split; [done |]. intros r. rewrite Hmem. split; [tauto |].
      intros Hr. split; [done |].
      assert (y ∈ y :: ys) as Hy by left. apply Hmem in Hy. tauto.
Qed.

(** ** [PreSave] *)

(** X28.  [PreSave] never fails and changes nothing but the receipt: it
    stamps a zero [ReadAt] and a zero [CreateAt] with the clock, turns an
    empty device type into "unknown", and keeps every field that was set.
    Under a running clock a receipt that has gone through [PreSave] goes
    through it again unchanged, whatever the clock reads then. *)
Theorem X28_PreSave_fills_in_what_is_missing (w : World) (r : PostReadReceipt.t) :
  ∃ s,
    @PreSave StoreError r w = (Ok s, w) ∧
    Store.receipt_key s = Store.receipt_key r ∧
    PostReadReceipt.ChannelId s = PostReadReceipt.ChannelId r ∧
    PostReadReceipt.DeviceId s = PostReadReceipt.DeviceId r ∧
    PostReadReceipt.SessionId s = PostReadReceipt.SessionId r ∧
    PostReadReceipt.ReadAt s
      = (if decide (PostReadReceipt.ReadAt r = 0) then millis w
         else PostReadReceipt.ReadAt r) ∧
    PostReadReceipt.CreateAt s
      = (if decide (PostReadReceipt.CreateAt r = 0) then millis w
         else PostReadReceipt.CreateAt r) ∧
    PostReadReceipt.DeviceType s
      = (if decide (PostReadReceipt.DeviceType r = "") then DeviceTypeUnknown
         else PostReadReceipt.DeviceType r) ∧
    (millis w ≠ 0 → ∀ w2, @PreSave StoreError s w2 = (Ok s, w2)).
Proof.
  exists (presaved (millis w) r). split; [apply PreSave_run |].
  unfold presaved. simpl. do 4 (split; [done |]).
  split; [by destruct (Z.eqb_spec (PostReadReceipt.ReadAt r) 0), (decide _) |].
  split; [by destruct (Z.eqb_spec (PostReadReceipt.CreateAt r) 0), (decide _) |].
  split; [done |].
  intros Hnow w2. rewrite PreSave_run. unfold presaved. simpl. f_equal. f_equal.
  destruct r as [p u c readAt createAt d ty sess]. simpl. f_equal.
  - destruct (Z.eqb_spec readAt 0) as [-> | Hne]; simpl.
    + by destruct (Z.eqb_spec (millis w) 0).
    + by destruct (Z.eqb_spec readAt 0).
  - destruct (Z.eqb_spec createAt 0) as [-> | Hne]; simpl.
    + by destruct (Z.eqb_spec (millis w) 0).
    + by destruct (Z.eqb_spec createAt 0).
  - destruct (decide (ty = "")) as [-> | Hne]; simpl; [done |].
    by destruct (decide (ty = "")).
Qed.

(** ** Deletion and backfill when a statement fails *)

Lemma GetChannelMembers_first_page channelId perPage w :
  GetChannelMembers channelId 0 perPage w
  = (Ok (take perPage (channel_members (db w) channelId)), w).
Proof.
  unfold GetChannelMembers, channel_members. unfold_monad. simpl. by rewrite fmap_take.
Qed.

Lemma upsert_receipt_at s t :
  Store.upsert_receipt s t !! Store.receipt_key s
  = Some (ReceiptRow.mk
            (from_option ReceiptRow.ChannelId (PostReadReceipt.ChannelId s)
               (t !! Store.receipt_key s))
            (PostReadReceipt.ReadAt s) (PostReadReceipt.CreateAt s)
            (PostReadReceipt.DeviceId s) (PostReadReceipt.DeviceType s)
            (PostReadReceipt.SessionId s)).
Proof.
  unfold Store.upsert_receipt. rewrite lookup_insert_eq.
  by destruct (t !! Store.receipt_key s).
Qed.

(** Each save rewrites the row of its own key or, when its statement fails,
    leaves it as it was. *)
Lemma saved_at_any now receipts tape t i r :
  NoDup (Store.receipt_key <$> receipts) →
  receipts !! i = Some r →
  saved now receipts tape t !! Store.receipt_key r =
  if default false (tape !! i) then t !! Store.receipt_key r
  else Store.upsert_receipt (presaved now r) t !! Store.receipt_key r.
Proof.
  revert tape t i. induction receipts as [|r0 rest IH]; intros tape t i Hnd Hi; [done |].
  rewrite fmap_cons in Hnd. apply NoDup_cons in Hnd as [Hr0 Hnd].
  destruct (next_outcome_lookup tape) as [Hfault Htail].
  cbn [saved]. destruct i as [|j]; simpl in Hi.
  - injection Hi as ->. rewrite saved_other by done. rewrite Hfault.
    by destruct (default false (tape !! 0%nat)).
  - assert (Hne : Store.receipt_key r ≠ Store.receipt_key r0).
    { intros Heq. apply Hr0. rewrite <- Heq. apply list_elem_of_fmap.
      exists r. split; [done |]. by eapply list_elem_of_lookup_2. }
    rewrite (IH _ _ j Hnd Hi), Htail.
    rewrite <- (receipt_key_presaved now r) at 2 4.
    rewrite !upsert_receipt_at, !receipt_key_presaved.
    destruct (next_outcome tape).1; [done |]. by rewrite upsert_receipt_other.
Qed.

(** The loop over the posts, whatever the replica answers: a receipt is
    built only for a post the member saw and did not write, and always for
    such a post that has no receipt. *)
Lemma backfill_posts_any channelId member posts acc w :
  ∃ new tape,
    backfill_posts channelId member posts acc w
      = (Ok (acc ++ new), set_replica_faults tape w) ∧
    new `sublist_of` (backfill_receipt channelId member
                        <$> filter (should_backfill ∅ member) posts) ∧
    (∀ post, post ∈ posts → should_backfill (PostReadReceipts (db w)) member post →
             backfill_receipt channelId member post ∈ new).
Proof.
  revert acc w. induction posts as [|post rest IH]; intros acc w.
  { exists [], (replica_faults w). simpl. unfold ret. rewrite app_nil_r.
    split; [by destruct w |]. split; [constructor |]. by intros post ?%elem_of_nil. }
  cbn [backfill_posts]. rewrite filter_cons.
  case_bool_decide as Hnew.
  { rewrite decide_False by (intros [? _]; lia).
    destruct (IH acc w) as (new & tape & Hrun & Hsub & Hall).
    exists new, tape. split; [done |]. split; [done |].
    intros post' [-> | Hin]%elem_of_cons Hshould; [| by apply Hall].
    destruct Hshould as [? _]. lia. }
  destruct (decide (Post.UserId post = ChannelMember.UserId member)) as [Hown | Hother].
  { rewrite decide_False by (intros (_ & ? & _); done).
    destruct (IH acc w) as (new & tape & Hrun & Hsub & Hall).
    exists new, tape. split; [done |]. split; [done |].
    intros post' [-> | Hin]%elem_of_cons Hshould; [| by apply Hall].
    by destruct Hshould as (_ & ? & _). }
  rewrite decide_True by (split; [lia | split; [done | apply lookup_empty]]).
  rewrite fmap_cons.
  unfold bind at 1. unfold attempt, Store.GetReadReceipt.
  unfold bind at 1. unfold GetReplica_Query.
  destruct (next_outcome (replica_faults w)) as [[] tape1].
  - destruct (IH (acc ++ [backfill_receipt channelId member post])
                (set_replica_faults tape1 w)) as (new & tape & Hrun & Hsub & Hall).
    unfold backfill_receipt at 1 in Hrun. rewrite Hrun.
    exists (backfill_receipt channelId member post :: new), tape.
    split; [by rewrite <- app_assoc |]. split; [by apply sublist_skip |].
    intros post' [-> | Hin]%elem_of_cons Hshould; [left | right; by apply Hall].
  - unfold bind at 1. unfold gets at 1. simpl.
    destruct (PostReadReceipts (db w) !! (Post.Id post, ChannelMember.UserId member))
      as [row|] eqn:Hrow; simpl.
    + destruct (IH acc (set_replica_faults tape1 w)) as (new & tape & Hrun & Hsub & Hall).
      rewrite Hrun. exists new, tape.
      split; [done |]. split; [by apply sublist_cons |].
      intros post' [-> | Hin]%elem_of_cons Hshould; [| by apply Hall].
      destruct Hshould as (_ & _ & Hnone). congruence.
    + destruct (IH (acc ++ [backfill_receipt channelId member post])
                  (set_replica_faults tape1 w)) as (new & tape & Hrun & Hsub & Hall).
      unfold backfill_receipt at 1 in Hrun. rewrite Hrun.
      exists (backfill_receipt channelId member post :: new), tape.
      split; [by rewrite <- app_assoc |]. split; [by apply sublist_skip |].
      intros post' [-> | Hin]%elem_of_cons Hshould; [left | right; by apply Hall].
Qed.

Lemma backfill_members_any channelId members posts acc w :
  ∃ new tape,
    backfill_members channelId members posts acc w
      = (Ok (acc ++ new), set_replica_faults tape w) ∧
    new `sublist_of` (members ≫= member_receipts ∅ channelId posts) ∧
    (∀ member post, member ∈ members → post ∈ posts →
       ChannelMember.LastViewedAt member ≠ 0 →
       should_backfill (PostReadReceipts (db w)) member post →
       backfill_receipt channelId member post ∈ new).
Proof.
  revert acc w. induction members as [|member rest IH]; intros acc w.
  { exists [], (replica_faults w). simpl. unfold ret. rewrite app_nil_r.
    split; [by destruct w |]. split; [constructor |]. by intros member post ?%elem_of_nil. }
  cbn [backfill_members]. rewrite bind_cons. unfold member_receipts at 1.
  destruct (decide (ChannelMember.LastViewedAt member = 0)) as [Hzero | Hseen].
  { destruct (IH acc w) as (new & tape & Hrun & Hsub & Hall).
    exists new, tape. split; [done |]. split; [done |].
    intros member' post [-> | Hin]%elem_of_cons Hpost Hseen' Hshould; [done |].
    by apply Hall. }
  unfold bind at 1.
  destruct (backfill_posts_any channelId member posts acc w)
    as (new1 & tape1 & -> & Hsub1 & Hall1).
  destruct (IH (acc ++ new1) (set_replica_faults tape1 w))
    as (new2 & tape2 & Hrun & Hsub2 & Hall2).
  rewrite Hrun. exists (new1 ++ new2), tape2.
  split; [by rewrite <- app_assoc |]. split; [by apply sublist_app |].
  intros member' post [-> | Hin]%elem_of_cons Hpost Hseen' Hshould.
  - apply elem_of_app. left. by apply Hall1.
  - apply elem_of_app. right. by apply Hall2.
Qed.

(** C7 (the code departs from the claim).  With the feature enabled and
    privacy deletion allowed, [DeleteReadReceiptForPost] returns success
    exactly when its delete statement goes through, whether or not a receipt
    is stored for [(postId, userId)]; the key then has no row and the other
    rows are untouched.  The [privacy_view] entry is appended only when the
    statement that writes it goes through as well: when that statement
    fails, the error is dropped, the call still returns success and the
    audit log is as it was.  When the delete statement fails the call
    answers 500 and nothing is written. *)
Theorem C7_DeleteReadReceiptForPost_drops_a_failed_audit_write
    (w : World) (userId postId : string) :
  EnableReadReceipts (Config w) = true →
  ReadReceiptsAllowPrivacyDeletion (Config w) = true →
  ∃ r w',
    DeleteReadReceiptForPost userId postId w = (r, w') ∧
    (r = Ok tt ↔ default false (master_faults w !! 0%nat) = false) ∧
    (r = Ok tt →
     PostReadReceipts (db w') !! (postId, userId) = None ∧
     PostReadReceipts (db w') = delete (postId, userId) (PostReadReceipts (db w)) ∧
     (PostReadReceipts (db w) !! (postId, userId) = None →
      PostReadReceipts (db w') = PostReadReceipts (db w)) ∧
     (default false (master_faults w !! 1%nat) = true →
      ReadReceiptAuditLogs (db w') = ReadReceiptAuditLogs (db w)) ∧
     (default false (master_faults w !! 1%nat) = false →
      ∃ audit,
        ReadReceiptAuditLogs (db w') = ReadReceiptAuditLogs (db w) ++ [audit] ∧
        ReadReceiptAuditLog.Action audit = ReadReceiptActionPrivacyView ∧
        ReadReceiptAuditLog.UserId audit = userId ∧
        ReadReceiptAuditLog.PostId audit = postId ∧
        ReadReceiptAuditLog.CreateAt audit = millis w)) ∧
    (r ≠ Ok tt →
     db w' = db w ∧
     ∃ e, r = Err e ∧ AppError.StatusCode e = StatusInternalServerError).
Proof.
  intros Hen Hallow.
  destruct (DeleteReadReceiptForPost userId postId w) as [r w'] eqn:H.
  exists r, w'. split; [done |].
  unfold DeleteReadReceiptForPost in H.
  apply bind_inv in H as [(e & Hcfg & _) | (cfg & w1 & Hcfg & H)]; [discriminate |].
  unfold gets in Hcfg. injection Hcfg as <- <-. rewrite Hen, Hallow in H. simpl in H.
  destruct (next_outcome_lookup (master_faults w)) as [Hfirst Hrest].
  apply bind_inv in H as [(e & Hdel & ->) | ([] & w1 & Hdel & H)];
    unfold from_store, Store.DeleteReadReceipt in Hdel;
    destruct (bind (GetMaster_Exec "delete_read_receipt") _ w) as [r0 w0] eqn:Hm;
    apply master_write_run in Hm as (tape & [(-> & -> & Hnext) | (-> & -> & Hnext)]);
    try discriminate; rewrite Hnext in Hfirst, Hrest; simpl in Hfirst, Hrest.
  { injection Hdel as <- <-. rewrite <- Hfirst.
    split; [split; discriminate |]. split; [discriminate |].
    intros _. split; [done |]. by eexists. }
  injection Hdel as <-.
  unfold Store.SaveReadReceiptAuditLog, NewId, GetMillis in H.
  unfold bind, gets, attempt, GetMaster_Exec, modify, ret in H. simpl in H.
  destruct (next_outcome_lookup tape) as [Hsecond _].
  rewrite <- (Hrest 0%nat), <- Hsecond, <- Hfirst.
  destruct (next_outcome tape) as [[] tape'] eqn:Hnext'; simpl in *;
    injection H as <- <-; simpl.
  - split; [done |]. split; [| done]. intros _.
    split; [apply lookup_delete_eq |]. split; [done |].
    split; [apply delete_id |]. split; [done | discriminate].
  - split; [done |]. split; [| done]. intros _.
    split; [apply lookup_delete_eq |]. split; [done |].
    split; [apply delete_id |]. split; [discriminate |]. intros _. by eexists.
Qed.

(** C9 (the code departs from the claim).  With the feature enabled and the
    channel eligible, [BackfillReadReceiptsForChannel] returns no error
    whatever the connections do.  It looks at the first 200 members of the
    channel only.  A receipt is built only for a member with a last-viewed
    time other than zero and a post of the window created no later than that
    time and not the member's own, with that time as [ReadAt]; it is built
    for every such pair that has no receipt.  A pair that has a receipt is
    passed over when the replica answers the lookup; a lookup that fails is
    taken for a missing receipt.  Each receipt built is then saved on its
    own: unless its statement fails, the row of its key is rewritten with
    the last-viewed time, the clock's reading and the device "backfill"
    (a row that was there keeps only its channel); no other row changes. *)
Theorem C9_backfill_takes_a_failed_lookup_for_a_missing_receipt
    (w : World) (channelId : string) (posts : list Post.t) :
  EnableReadReceipts (Config w) = true →
  eligible_channel w channelId = true →
  GetPostsForChannel channelId 0 60 w = (Ok posts, w) →
  let t := PostReadReceipts (db w) in
  let members := take 200 (channel_members (db w) channelId) in
  ∃ (w' : World) (receiptsToCreate : list PostReadReceipt.t),
    BackfillReadReceiptsForChannel channelId w = (Ok tt, w') ∧
    NoDup (Store.receipt_key <$> receiptsToCreate) ∧
    (∀ r, r ∈ receiptsToCreate →
       ∃ member post, member ∈ members ∧ post ∈ posts ∧
         ChannelMember.LastViewedAt member ≠ 0 ∧
         Post.CreateAt post ≤ ChannelMember.LastViewedAt member ∧
         Post.UserId post ≠ ChannelMember.UserId member ∧
         r = backfill_receipt channelId member post ∧
         PostReadReceipt.ReadAt r = ChannelMember.LastViewedAt member) ∧
    (∀ member post, member ∈ members → post ∈ posts →
       ChannelMember.LastViewedAt member ≠ 0 →
       Post.CreateAt post ≤ ChannelMember.LastViewedAt member →
       Post.UserId post ≠ ChannelMember.UserId member →
       t !! (Post.Id post, ChannelMember.UserId member) = None →
       backfill_receipt channelId member post ∈ receiptsToCreate) ∧
    (reliable (replica_faults w) →
     ∀ r, r ∈ receiptsToCreate → t !! Store.receipt_key r = None) ∧
    (∀ i r, receiptsToCreate !! i = Some r →
       PostReadReceipts (db w') !! Store.receipt_key r =
       if default false (master_faults w !! i) then t !! Store.receipt_key r
       else Some (ReceiptRow.mk
                    (from_option ReceiptRow.ChannelId channelId (t !! Store.receipt_key r))
                    (PostReadReceipt.ReadAt r) (millis w) "backfill" "backfill" "")) ∧
    (∀ k, k ∉ Store.receipt_key <$> receiptsToCreate →
       PostReadReceipts (db w') !! k = t !! k).
Proof.
  intros Hen Hel Hposts t members.
  destruct (GetChannelMembers_run channelId 0 200 w) as (members' & Hm' & Hnd_m).
  rewrite GetChannelMembers_first_page in Hm'. injection Hm' as <-. fold members in Hnd_m.
  destruct (GetPostsForChannel_run channelId 0 60 w) as (posts' & Hp' & Hnd_p).
  rewrite Hposts in Hp'. injection Hp' as <-.
  destruct (backfill_members_any channelId members posts [] w)
    as (new & tape & Hrun & Hsub & Hall).
  destruct (backfill_save_run new (set_replica_faults tape w)) as (w' & Hsave & _ & Hdb).
  simpl in Hrun, Hdb. fold t in Hdb, Hall.
  assert (Hnd : NoDup (Store.receipt_key <$> new)).
  { eapply sublist_NoDup; [by apply (candidates_NoDup ∅ channelId members posts) |].
    by apply fmap_sublist. }
  assert (Hsound : ∀ r, r ∈ new →
            ∃ member post, member ∈ members ∧ post ∈ posts ∧
              ChannelMember.LastViewedAt member ≠ 0 ∧
              Post.CreateAt post ≤ ChannelMember.LastViewedAt member ∧
              Post.UserId post ≠ ChannelMember.UserId member ∧
              r = backfill_receipt channelId member post ∧
              PostReadReceipt.ReadAt r = ChannelMember.LastViewedAt member).
  { intros r Hr. apply (sublist_subseteq _ _ Hsub) in Hr.
    apply elem_of_candidates in Hr as (member & post & ? & ? & ? & (? & ? & _) & ->).
    exists member, post. done. }
  exists w', new. split.
  { unfold BackfillReadReceiptsForChannel.
    unfold bind at 1. unfold gets at 1. rewrite Hen. simpl.
    unfold bind at 1. rewrite GetChannel_run.
    unfold eligible_channel in Hel.
    destruct (Channels (db w) !! channelId) as [ty|]; [| discriminate].
    rewrite Hel. simpl.
    unfold bind at 1. rewrite GetChannelMembers_first_page.
    unfold bind at 1. rewrite Hposts.
    unfold bind at 1. unfold GetMillis, gets at 1.
    unfold bind at 1. fold members. rewrite Hrun. exact Hsave. }
  split; [done |]. split; [done |]. split.
  { intros member post Hmember Hpost Hseen Hold Hother Hnone. by apply Hall. }
  split.
  { intros Hrel r Hr.
    destruct (backfill_members_run channelId members posts [] w Hrel) as (tape' & _ & Hrun').
    rewrite Hrun in Hrun'. simpl in Hrun'. injection Hrun' as -> _.
    apply elem_of_candidates in Hr as (member & post & _ & _ & _ & (_ & _ & Hnone) & ->).
    done. }
  split.
  { intros i r Hi. rewrite Hdb, (saved_at_any _ _ _ _ i r Hnd Hi).
    destruct (default false (master_faults w !! i)); [done |].
    rewrite <- (receipt_key_presaved (millis w) r) at 1.
    rewrite upsert_receipt_at, receipt_key_presaved.
    destruct (Hsound r) as (member & post & _ & _ & Hseen & _ & _ & -> & _);
      [by eapply list_elem_of_lookup_2 |].
    unfold presaved, backfill_receipt. simpl.
    by rewrite (proj2 (Z.eqb_neq _ _) Hseen). }
  intros k Hk. rewrite Hdb. by apply saved_other.
Qed.

(** * The properties at the scenarios *)

(** C1 at the scenario of the specification: feature enabled, post in a
    direct-message channel, user not opted out, ids well formed, [readAt]
    1000.  The call fails on the missing [CreateAt], and nothing is stored. *)
Example C1_scenario_fails_on_CreateAt :
  (SaveReadReceiptForPost id26 alice post1 1000 "" world0).1
  = Err (NewAppError "PostReadReceipt.IsValid"
           "model.post_read_receipt.is_valid.create_at.app_error" "" StatusBadRequest).
Proof. vm_compute. reflexivity. Qed.

(** C2 at the scenario: alice marks [post1] read at 1000, then at 2000 from
    another device. *)
Lemma C2_witness :
  ∃ stored,
    filter (λ r, Store.receipt_key r = (post1, alice))
      (Store.receipts_of
         (PostReadReceipts
            (db (Store.SaveReadReceipt receipt_2000
                   (Store.SaveReadReceipt receipt_1000 world0).2).2))) = [stored] ∧
    PostReadReceipt.ReadAt stored = 2000.
Proof.
  destruct (C2_SaveReadReceipt_overwrites_same_key
              world0
              (Store.SaveReadReceipt receipt_1000 world0).2
              (Store.SaveReadReceipt receipt_2000
                 (Store.SaveReadReceipt receipt_1000 world0).2).2
              receipt_1000 receipt_2000
              (presaved 5000 receipt_1000) (presaved 5000 receipt_2000))
    as (stored & Hone & Hread & Hwritten & _);
    [by_computation | by_computation | by_computation |].
  exists stored. split; [exact Hone |]. rewrite Hread. exact Hwritten.
Defined.

(** C3 at the scenario: the post of the open channel is persisted. *)
Lemma C3_witness :
  (SaveReadReceiptBatch id26 alice batch_of_three world0).1 = Ok [] ∧
  ∃ row, PostReadReceipts (db (SaveReadReceiptBatch id26 alice batch_of_three world0).2)
           !! (post3, alice) = Some row ∧ ReceiptRow.ReadAt row = 1000.
Proof.
  destruct (C3_batch_persists_every_requested_post id26 world0
              (SaveReadReceiptBatch id26 alice batch_of_three world0).2
              alice batch_of_three
              [])
    as (_ & Hrows); [by_computation |].
  split; [by_computation |].
  destruct (Hrows post3) as (row & Hrow & Hread & _); [by_computation |].
  exists row. split; [exact Hrow | exact Hread].
Defined.

(** C3 at the scenario: three posts requested, the third in an open channel
    while team channels are off.  Nothing is returned, and the open
    channel's post has a row all the same, filed under the channel of the
    request. *)
Example C3_scenario_persists_the_dropped_post :
  (SaveReadReceiptBatch id26 alice batch_of_three world0).1 = Ok [] ∧
  eligible_channel world0 town_square = false ∧
  PostReadReceipts (db (SaveReadReceiptBatch id26 alice batch_of_three world0).2)
    !! (post3, alice) = Some (ReceiptRow.mk dm 1000 5000 "" DeviceTypeWeb "").
Proof. by vm_compute. Qed.

(** The summary is not recomputed: with two receipts stored, the stale row
    keeps [ReadCount] 1, and without a row none appears. *)
Lemma C4_counterexample :
  ¬ refresh_recomputes world_group gm post1 ∧
  ¬ refresh_recomputes world_group_fresh gm post1.
Proof.
  split.
  - intros H.
    destruct (H (UpdateReadReceiptSummaryAsync gm post1 world_group).2)
      as (row & Hrow & Hcount & _); [by_computation |].
    vm_compute in Hrow. injection Hrow as <-. vm_compute in Hcount. discriminate.
  - intros H.
    destruct (H (UpdateReadReceiptSummaryAsync gm post1 world_group_fresh).2)
      as (row & Hrow & _); [by_computation |].
    vm_compute in Hrow. discriminate.
Qed.

(** C4 at the scenario: the stored row comes back with [LastUpdated] 5000
    and the old counts. *)
Lemma C4_witness :
  ∃ w', UpdateReadReceiptSummaryAsync gm post1 world_group = (Ok tt, w') ∧
    PostReadReceiptSummary (db w') !! post1 = Some (SummaryRow.mk gm 1 5 5000 1000 1000).
Proof.
  destruct (C4_refresh_only_touches_LastUpdated world_group gm post1)
    as (w' & Hrun & _ & _ & _ & Hreliable).
  destruct Hreliable as [Hrow _]; [by_computation | by_computation |].
  exists w'. split; [exact Hrun |].
  apply (Hrow (SummaryRow.mk gm 1 5 1500 1000 1000)). by_computation.
Defined.

(** Alice and bob have both read [post1]; alice, who sees only her own
    receipt, is told [ReadCount] 1 of 2 with [AllRead] true. *)
Lemma C5_counterexample :
  (GetReadReceiptInfoForPost post1 alice false world_private).1 = Ok info_private_alice ∧
  ¬ flags_match_ReadCount info_private_alice.
Proof.
  split; [vm_compute; reflexivity |].
  intros [Hall _]. discriminate Hall.
Qed.

(** C5 at the scenario: [AllRead] follows the two stored receipts. *)
Lemma C5_witness :
  PostReadReceiptInfo.AllRead info_private_alice = bool_decide (2 ≤ 2) ∧
  PostReadReceiptInfo.ReadCount info_private_alice ≤ 1.
Proof.
  destruct (C5_flags_follow_the_unfiltered_count world_private
              (GetReadReceiptInfoForPost post1 alice false world_private).2
              post1 alice false info_private_alice)
    as (Hall & _ & _ & _ & _ & Hnone); [by_computation |].
  destruct Hnone as (_ & _ & Hone); [by_computation |].
  split; [| exact Hone]. rewrite Hall. by_computation.
Defined.

(** C6 at the scenario: alice gets her own receipt of [post1], and only it. *)
Lemma C6_witness :
  PostReadReceiptInfo.ReadReceipts info_private_alice
    = filter (λ r, PostReadReceipt.UserId r = alice)
        (Store.select_for_post post1 (PostReadReceipts (db world_private))) ∧
  (length (PostReadReceiptInfo.ReadReceipts info_private_alice) ≤ 1)%nat.
Proof.
  destruct (C6_ShowNone_keeps_only_the_viewers_receipts world_private
              (GetReadReceiptInfoForPost post1 alice false world_private).2
              post1 alice false info_private_alice)
    as (_ & _ & Hown & _ & Hone & _); [by_computation | by_computation |].
  split; [exact Hown | exact Hone].
Defined.

(** C7 at the failing input: carol has no receipt of [post1], the delete
    goes through and the audit write fails.  The call reports success and
    the audit log holds no entry. *)
Lemma C7_witness :
  ∃ r w',
    DeleteReadReceiptForPost carol post1 world_unlogged = (r, w') ∧
    r = Ok tt ∧
    PostReadReceipts (db world_unlogged) !! (post1, carol) = None ∧
    PostReadReceipts (db w') = PostReadReceipts (db world_unlogged) ∧
    ReadReceiptAuditLogs (db w') = [].
Proof.
  destruct (C7_DeleteReadReceiptForPost_drops_a_failed_audit_write world_unlogged carol post1)
    as (r & w' & Hrun & Hok & Hdone & _); [by_computation | by_computation |].
  assert (Hr : r = Ok tt) by (apply Hok; by_computation).
  destruct (Hdone Hr) as (_ & _ & Hsame & Hlost & _).
  exists r, w'. split; [exact Hrun |]. split; [exact Hr |].
  split; [by_computation |]. split; [apply Hsame; by_computation |].
  rewrite Hlost; by_computation.
Defined.

(** C7 at the failing input, evaluated. *)
Example C7_scenario_success_without_an_audit_entry :
  (DeleteReadReceiptForPost carol post1 world_unlogged).1 = Ok tt ∧
  ReadReceiptAuditLogs (db (DeleteReadReceiptForPost carol post1 world_unlogged).2) = [].
Proof. by vm_compute. Qed.

(** C8 at the scenario: three posts requested, one in an open channel. *)
Lemma C8_witness :
  ∃ rs w', SaveReadReceiptBatch id26 alice batch_of_three world0 = (Ok rs, w') ∧
    (length rs < 3)%nat ∧
    (∀ r, r ∈ rs → PostReadReceipt.PostId r ∈ [post1; post2; post3]).
Proof.
  destruct (C8_batch_result_within_the_request id26 world0 alice batch_of_three)
    as [Hwithin Hreturns].
  destruct Hreturns as (rs & w' & Hrun); [by_computation | by_computation | by_computation |].
  destruct (Hwithin rs w' Hrun) as (_ & Hids & Hshorter).
  exists rs, w'. split; [exact Hrun |]. split; [| exact Hids].
  apply (Hshorter post3 (PostRow.mk town_square bob 300)); by_computation.
Defined.

(** C9 at the failing input: alice has read [post1] at 450 on her phone and
    the lookup of her receipt fails.  The backfill reports no error and her
    receipt now says 500, device "backfill". *)
Lemma C9_witness :
  ∃ w',
    BackfillReadReceiptsForChannel dm world_lookup_fails = (Ok tt, w') ∧
    PostReadReceipts (db world_lookup_fails) !! (post1, alice)
      = Some (ReceiptRow.mk dm 450 450 "phone" DeviceTypeMobile "") ∧
    PostReadReceipts (db w') !! (post1, alice)
      = Some (ReceiptRow.mk dm 500 5000 "backfill" "backfill" "").
Proof.
  destruct (C9_backfill_takes_a_failed_lookup_for_a_missing_receipt world_lookup_fails dm
              [Post.mk post2 dm bob 600; Post.mk post1 dm bob 400])
    as (w' & receiptsToCreate & Hrun & _ & _ & _ & _ & _ & _);
    [by_computation | by_computation | by_computation |].
  exists w'. split; [exact Hrun |]. split; [by_computation |].
  assert (Hw' : w' = (BackfillReadReceiptsForChannel dm world_lookup_fails).2)
    by (by rewrite Hrun).
  rewrite Hw'. by_computation.
Defined.

(** C9 at the failing inputs, evaluated: the receipt alice had is
    overwritten after the failed lookup; and of 201 members who all saw the
    post, 200 get a receipt. *)
Example C9_scenario_overwrites_a_receipt :
  (BackfillReadReceiptsForChannel dm world_lookup_fails).1 = Ok tt ∧
  PostReadReceipts (db (BackfillReadReceiptsForChannel dm world_lookup_fails).2)
    !! (post1, alice) = Some (ReceiptRow.mk dm 500 5000 "backfill" "backfill" "").
Proof. by vm_compute. Qed.

Example C9_scenario_stops_at_200_members :
  (BackfillReadReceiptsForChannel gm world_crowd).1 = Ok tt ∧
  length (filter (λ m, ChannelMember.LastViewedAt m = 500 ∧ ChannelMember.UserId m ≠ erin)
            (channel_members (db world_crowd) gm)) = 201%nat ∧
  size (PostReadReceipts (db (BackfillReadReceiptsForChannel gm world_crowd).2)) = 200%nat.
Proof. by vm_compute. Qed.

(** C9 at the scenario: alice last looked at 500, bob never.  The post
    created at 400 gets a receipt of alice's with [ReadAt] 500 and the post
    created at 600 gets none; with the first save failing, the table stays
    empty and the call still returns no error. *)
Example C9_scenario :
  (BackfillReadReceiptsForChannel dm world0).1 = Ok tt ∧
  Store.receipts_of (PostReadReceipts (db (BackfillReadReceiptsForChannel dm world0).2))
    = [PostReadReceipt.mk post1 alice dm 500 5000 "backfill" "backfill" ""] ∧
  (BackfillReadReceiptsForChannel dm world_flaky).1 = Ok tt ∧
  Store.receipts_of (PostReadReceipts (db (BackfillReadReceiptsForChannel dm world_flaky).2))
    = [].
Proof. by vm_compute. Qed.

(** C10 at the scenario: what alice is told keeps the totals and flags of
    the unfiltered answer. *)
Lemma C10_witness :
  ∃ unfiltered,
    Store.GetReadReceiptInfo post1 world_private
      = (Ok unfiltered, (GetReadReceiptInfoForPost post1 alice false world_private).2) ∧
    PostReadReceiptInfo.TotalUsers info_private_alice
      = PostReadReceiptInfo.TotalUsers unfiltered ∧
    PostReadReceiptInfo.AllRead info_private_alice
      = PostReadReceiptInfo.AllRead unfiltered ∧
    PostReadReceiptInfo.LastRead info_private_alice
      = PostReadReceiptInfo.LastRead unfiltered.
Proof.
  destruct (C10_ShowNone_changes_only_the_list_and_the_count world_private
              (GetReadReceiptInfoForPost post1 alice false world_private).2
              post1 alice false info_private_alice)
    as (unfiltered & Hstore & _ & _ & _ & _ & _ & _ & Htotal & Hall & _ & _ & Hlast & _);
    [by_computation | by_computation |].
  exists unfiltered. split; [exact Hstore |]. split; [exact Htotal |].
  split; [exact Hall | exact Hlast].
Defined.

(** ** The further properties at the scenarios *)

(** X1: alice's receipt of [post1], saved and read back. *)
Lemma X1_witness :
  ∃ got w2,
    Store.GetReadReceipt post1 alice (Store.SaveReadReceipt receipt_1000 world0).2
      = (Ok got, w2) ∧
    PostReadReceipt.ReadAt got = 1000.
Proof.
  destruct (X1_saved_receipt_is_read_back world0
              (Store.SaveReadReceipt receipt_1000 world0).2
              receipt_1000 (presaved 5000 receipt_1000))
    as (got & w2 & Hget & _ & _ & Hread & _); [by_computation | by_computation |].
  exists got, w2. split; [exact Hget |]. rewrite Hread. reflexivity.
Defined.

(** X2: alice's receipt deleted, bob's left in place. *)
Lemma X2_witness :
  (Store.IsPostReadByUser post1 alice
     (Store.DeleteReadReceipt post1 alice world_private).2).1 = Ok false ∧
  PostReadReceipts (db (Store.DeleteReadReceipt post1 alice world_private).2) !! (post1, bob)
    = PostReadReceipts (db world_private) !! (post1, bob).
Proof.
  destruct (X2_deleted_receipt_is_not_found world_private
              (Store.DeleteReadReceipt post1 alice world_private).2 post1 alice)
    as (_ & Hother & Hreliable); [by_computation |].
  destruct Hreliable as [Hread _]; [by_computation |].
  split; [exact Hread |]. apply Hother. by_computation.
Defined.

(** X3: the receipts of [post1] purged. *)
Lemma X3_witness :
  Store.select_for_post post1
    (PostReadReceipts (db (Store.DeleteReadReceiptsForPost post1 world_private).2)) = [] ∧
  PostReadReceipts (db (Store.DeleteReadReceiptsForPost post1 world_private).2)
    !! (post1, alice) = None.
Proof.
  destruct (X3_DeleteReadReceiptsForPost_removes_the_post world_private
              (Store.DeleteReadReceiptsForPost post1 world_private).2 post1 (Ok tt))
    as (Hgone & _ & Hnone & _); [by_computation |].
  split; [exact Hnone | apply Hgone].
Defined.

(** X4: alice's receipts purged, bob's left in place. *)
Lemma X4_witness :
  PostReadReceipts (db (Store.DeleteReadReceiptsForUser alice world_private).2)
    !! (post1, alice) = None ∧
  PostReadReceipts (db (Store.DeleteReadReceiptsForUser alice world_private).2)
    !! (post1, bob) = PostReadReceipts (db world_private) !! (post1, bob).
Proof.
  destruct (X4_DeleteReadReceiptsForUser_removes_the_user world_private
              (Store.DeleteReadReceiptsForUser alice world_private).2 alice (Ok tt))
    as (Hgone & Hother & _); [by_computation |].
  split; [apply Hgone | apply Hother; by_computation].
Defined.

(** X5: the receipts of the direct-message channel purged. *)
Lemma X5_witness :
  ∃ rs,
    (Store.GetReadReceiptsForChannel dm 0
       (Store.DeleteReadReceiptsForChannel dm world_private).2).1 = Ok rs ∧
    rs = [].
Proof.
  destruct (X5_DeleteReadReceiptsForChannel_removes_the_channel world_private
              (Store.DeleteReadReceiptsForChannel dm world_private).2 dm (Ok tt))
    as (_ & Hnone); [by_computation |].
  exists []. split; [by_computation |].
  apply (Hnone 0 []
           (Store.GetReadReceiptsForChannel dm 0
              (Store.DeleteReadReceiptsForChannel dm world_private).2).2).
  by_computation.
Defined.

(** X6: alice's history asked for since 9999, later than her only read. *)
Lemma X6_witness :
  (GetUserReadReceiptHistory alice "" 9999 10 world_private).1 = Ok [receipt_alice] ∧
  Z.of_nat (length [receipt_alice]) ≤ 10.
Proof.
  destruct (X6_history_is_the_users_latest_receipts world_private
              (GetUserReadReceiptHistory alice "" 9999 10 world_private).2
              alice "" 9999 10 [receipt_alice])
    as (Hlen & _); [by_computation | lia |].
  split; [by_computation | exact Hlen].
Defined.

(** X7: the receipts of the channel read at 1500 or later. *)
Lemma X7_witness :
  (Store.GetReadReceiptsForChannel dm 1500 world_private).1 = Ok [receipt_bob] ∧
  StronglySorted Store.ReadAt_desc [receipt_bob].
Proof.
  destruct (X7_GetReadReceiptsForChannel_lists_the_channel world_private
              (Store.GetReadReceiptsForChannel dm 1500 world_private).2
              dm 1500 [receipt_bob])
    as (_ & Hsorted & _); [by_computation |].
  split; [by_computation | exact Hsorted].
Defined.

(** X8: alice's audit entries, the newest first. *)
Lemma X8_witness :
  (Store.GetReadReceiptAuditLogs alice 0 10 world_logged).1
    = Ok [audit_alice_late; audit_alice_early] ∧
  StronglySorted Store.audit_CreateAt_desc [audit_alice_late; audit_alice_early].
Proof.
  destruct (X8_GetReadReceiptAuditLogs_lists_the_users_entries world_logged
              (Store.GetReadReceiptAuditLogs alice 0 10 world_logged).2
              alice 0 10 [audit_alice_late; audit_alice_early])
    as (_ & Hsorted & _); [by_computation | lia |].
  split; [by_computation | exact Hsorted].
Defined.

(** X9: with the feature off, asking about [post1] is refused. *)
Lemma X9_witness :
  refused (GetReadReceiptInfoForPost post1 alice false) world_off StatusNotImplemented.
Proof.
  destruct (X9_disabled_feature_refuses_every_call id26 world_off alice post1 dm ""
              1000 0 10 false batch_of_three)
    as (_ & _ & Hinfo & _); [by_computation |].
  exact Hinfo.
Defined.

(** X10: the summaries of the group channel. *)
Lemma X10_witness :
  (GetChannelReadReceiptSummary gm alice 0 world_group).1
    = Ok [PostReadReceiptSummary.mk post1 gm 1 5 1500 1000 1000] ∧
  eligible_channel world_group gm = true.
Proof.
  destruct (X10_GetChannelReadReceiptSummary_lists_the_channel world_group
              (GetChannelReadReceiptSummary gm alice 0 world_group).2
              gm alice 0 (Ok [PostReadReceiptSummary.mk post1 gm 1 5 1500 1000 1000]))
    as (_ & _ & Heligible & _); [by_computation | by_computation |].
  split; [by_computation | exact Heligible].
Defined.

(** X11: with no retention, both receipts are older than the clock's
    reading. *)
Lemma X11_witness :
  (Store.CleanupOldReadReceipts 0 world_private).1 = Ok 2 ∧
  Store.cleanup_cutoff (millis world_private) 0 = millis world_private - 0 * 86400000.
Proof.
  destruct (X11_CleanupOldReadReceipts_removes_what_is_older world_private
              (Store.CleanupOldReadReceipts 0 world_private).2 0 (Ok 2))
    as [_ Hcutoff]; [by_computation |].
  split; [by_computation |]. apply Hcutoff; by_computation.
Defined.

(** X12: alice anonymized, bob untouched. *)
Lemma X12_witness :
  PostReadReceipts (db (Store.AnonymizeReadReceiptsForUser alice world_private).2)
    !! (post1, alice)
    = Store.anonymized <$> PostReadReceipts (db world_private) !! (post1, alice) ∧
  PostReadReceipts (db (Store.AnonymizeReadReceiptsForUser alice world_private).2)
    !! (post1, bob) = PostReadReceipts (db world_private) !! (post1, bob).
Proof.
  destruct (X12_AnonymizeReadReceiptsForUser_scrubs_the_device world_private
              (Store.AnonymizeReadReceiptsForUser alice world_private).2 alice (Ok tt))
    as (Hmine & Hothers & _); [by_computation |].
  split; [apply Hmine; reflexivity | apply Hothers; by_computation].
Defined.

(** X14: alice last read in the channel at 1000. *)
Lemma X14_witness :
  (Store.GetLastReadTime dm alice world_private).1 = Ok 1000 ∧
  PostReadReceipt.ReadAt receipt_alice ≤ 1000.
Proof.
  destruct (X14_GetLastReadTime_is_the_latest_read world_private
              (Store.GetLastReadTime dm alice world_private).2 dm alice 1000)
    as (Hlatest & _); [by_computation |].
  split; [by_computation |].
  apply (Hlatest receipt_alice).
  - exists (ReceiptRow.mk dm 1000 1000 "" DeviceTypeUnknown ""). split; by_computation.
  - split; reflexivity.
Defined.

(** X15: two unread posts of the channel, one after alice has read
    [post1]. *)
Lemma X15_witness :
  (Store.GetUnreadPostsCount dm alice 0 world0).1 = Ok 2 ∧
  (Store.GetUnreadPostsCount dm alice 0 (Store.SaveReadReceipt receipt_1000 world0).2).1
    = Ok 1 ∧
  0 ≤ 1.
Proof.
  destruct (X15_a_saved_receipt_lowers_the_unread_count world0
              (Store.GetUnreadPostsCount dm alice 0 world0).2
              (Store.SaveReadReceipt receipt_1000 world0).2
              (Store.GetUnreadPostsCount dm alice 0
                 (Store.SaveReadReceipt receipt_1000 world0).2).2
              receipt_1000 (presaved 5000 receipt_1000) dm 0 2 1)
    as (Hpos & _); [by_computation | by_computation | by_computation |].
  split; [by_computation |]. split; [by_computation | exact Hpos].
Defined.

(** X16: a ghost read of alice's leaves the receipts as they are. *)
Lemma X16_witness :
  PostReadReceipts (db (Store.SaveGhostReadReceipt receipt_1000 world_private).2)
    = PostReadReceipts (db world_private).
Proof.
  destruct (X16_SaveGhostReadReceipt_writes_the_audit_log_only world_private
              (Store.SaveGhostReadReceipt receipt_1000 world_private).2
              receipt_1000 (Ok tt))
    as (Hreceipts & _); [by_computation |].
  exact Hreceipts.
Defined.

(** X18: alice's receipt passes once [PreSave] has stamped it. *)
Lemma X18_witness :
  IsValid id26 (presaved 5000 receipt_1000) = None.
Proof.
  destruct (X18_IsValid_after_PreSave id26 5000 receipt_1000) as [[_ Hvalid] _];
    [by_computation |].
  apply Hvalid. repeat split; first [by_computation | left; reflexivity].
Defined.

(** X20: the batch rewrites alice's row of [post1] and leaves bob's. *)
Lemma X20_witness :
  PostReadReceipts (db (Store.SaveReadReceiptBatch batch_from_phone world_private).2)
    !! (post1, bob) = PostReadReceipts (db world_private) !! (post1, bob) ∧
  ∃ row,
    PostReadReceipts (db (Store.SaveReadReceiptBatch batch_from_phone world_private).2)
      !! (post1, alice) = Some row ∧
    ReceiptRow.ReadAt row = 3000.
Proof.
  destruct (X20_batch_insert_rewrites_only_the_times world_private
              (Store.SaveReadReceiptBatch batch_from_phone world_private).2
              batch_from_phone (Ok tt))
    as (_ & Hothers & Hrows); [by_computation |].
  split; [apply Hothers; left; by_computation |].
  destruct (Hrows post1) as (row & Hrow & Hread & _); [by_computation |].
  exists row. split; [exact Hrow | exact Hread].
Defined.

(** X21: the batch of three publishes nothing. *)
Lemma X21_witness :
  published (SaveReadReceiptBatch id26 alice batch_of_three world0).2 = published world0.
Proof.
  destruct (X21_SaveReadReceiptBatch_publishes_nothing id26 world0
              (SaveReadReceiptBatch id26 alice batch_of_three world0).2
              alice batch_of_three (Ok []))
    as [Hpublished _]; [by_computation |].
  exact Hpublished.
Defined.

(** X22: the delete goes through, the audit entry is lost, and the call
    reports success. *)
Lemma X22_witness :
  (DeleteReadReceiptForPost alice post1 world_unlogged).1 = Ok tt ∧
  PostReadReceipts (db (DeleteReadReceiptForPost alice post1 world_unlogged).2)
    = delete (post1, alice) (PostReadReceipts (db world_unlogged)) ∧
  ReadReceiptAuditLogs (db (DeleteReadReceiptForPost alice post1 world_unlogged).2)
    = ReadReceiptAuditLogs (db world_unlogged).
Proof.
  destruct (X22_DeleteReadReceiptForPost_outcomes world_unlogged
              (DeleteReadReceiptForPost alice post1 world_unlogged).2
              alice post1 (Ok tt))
    as (_ & _ & _ & _ & Hgone & Hlog); [by_computation | by_computation |].
  split; [by_computation |]. split; [exact Hgone | exact Hlog].
Defined.

(** X23: the summary comes back with the new counts under the old
    channel. *)
Lemma X23_witness :
  ∃ got w2,
    Store.GetReadReceiptSummary post1
      (Store.UpdateReadReceiptSummary summary_refiled world_group).2 = (Ok got, w2) ∧
    PostReadReceiptSummary.ReadCount got = 2 ∧
    PostReadReceiptSummary.ChannelId got = gm.
Proof.
  destruct (X23_saved_summary_is_read_back world_group
              (Store.UpdateReadReceiptSummary summary_refiled world_group).2
              summary_refiled)
    as (got & w2 & Hget & _ & Hcount & _ & _ & _ & _ & Hchannel & _);
    [by_computation | by_computation |].
  exists got, w2. split; [exact Hget |]. split; [exact Hcount |].
  rewrite Hchannel. by_computation.
Defined.

(** X24: a second backfill of the direct-message channel. *)
Lemma X24_witness :
  ∃ w2,
    BackfillReadReceiptsForChannel dm (BackfillReadReceiptsForChannel dm world0).2
      = (Ok tt, w2) ∧
    db w2 = db (BackfillReadReceiptsForChannel dm world0).2.
Proof.
  destruct (X24_backfill_twice_is_backfill_once world0
              (BackfillReadReceiptsForChannel dm world0).2 dm)
    as (_ & w2 & Hrun & Hdb & _); [by_computation | by_computation | by_computation |].
  exists w2. split; [exact Hrun | exact Hdb].
Defined.

(** X25: what the store reports about [post1], read by both members. *)
Lemma X25_witness :
  (Store.GetReadReceiptInfo post1 world_private).1 = Ok info_private ∧
  IsFullyRead info_private = PostReadReceiptInfo.AllRead info_private ∧
  NoDup (PostReadReceipt.UserId <$> PostReadReceiptInfo.ReadReceipts info_private).
Proof.
  destruct (X25_GetReadReceiptInfo_is_consistent world_private
              (Store.GetReadReceiptInfo post1 world_private).2 post1 info_private)
    as (_ & Hnodup & _ & _ & Hfull & _); [by_computation |].
  split; [by_computation |]. split; [exact Hfull | exact Hnodup].
Defined.

(** X27: [post1] and [post2] asked for; only [post1] has been read. *)
Lemma X27_witness :
  (Store.GetReadReceiptsForPosts [post1; post2] world_private).1
    = Ok {[post1 := [receipt_bob; receipt_alice]]} ∧
  db (Store.GetReadReceiptsForPosts [post1; post2] world_private).2 = db world_private.
Proof.
  destruct (X27_GetReadReceiptsForPosts_groups_by_post world_private
              (Store.GetReadReceiptsForPosts [post1; post2] world_private).2
              [post1; post2] {[post1 := [receipt_bob; receipt_alice]]})
    as (_ & _ & Hdb); [by_computation |].
  split; [by_computation | exact Hdb].
Defined.
